(** * The node and credential type registry of the n8n CLI

    A shallow embedding of [packages/cli/src/load-nodes-and-credentials.ts]
    (class [LoadNodesAndCredentials]) and the properties its specification
    states about it, followed by further properties of the class and of
    what [packages/cli/src/services/frontend.service.ts], which registers
    a post processor with it, does with the aggregate descriptions.

    Conventions of the embedding.
    - A JavaScript string is a [string]; a JavaScript array is a [list];
      an optional field ([x?: T], possibly [undefined]) is an [option].
    - A plain object used as a dictionary is a [gmap string _]; the object
      [this.loaders], whose enumeration order matters, is an association
      list in insertion order.
    - A method of the class is a function on the instance state [This]
      returning a completion (normal or thrown) and the state it leaves
      behind: a thrown error does not undo the mutations made before it.
    - Descriptions are values.  The aggregate list [this.types.nodes] holds
      the very objects the loaders hold, and one parameter object may be
      held by several descriptions; the embedding follows the aggregate
      list, on which the derivation passes work, and the properties are
      stated on what the passes append, which sharing does not change.
    - A post processor is a function of the registry it finds; what it
      does elsewhere is outside the embedding.
    - [setupHotReload] wires a file watcher and a debounce timer around
      [loader.reset], [loader.loadAll] and [postProcessLoaders]: the
      callback is embedded as a function on the instance, the module cache
      and a journal of its effects, the timer as a function from the times
      of the change events to the times at which the callback runs. *)

From Stdlib Require Import String Ascii List Bool Arith Lia.
From Stdlib Require QArith.
From stdpp Require Import base option list gmap strings fin_maps.

Local Open Scope string_scope.
Local Open Scope list_scope.

(** ** JavaScript strings *)

(** [s.substring(k)]: the string from index [k] on, empty past the end. *)
Fixpoint js_substring (k : nat) (s : string) : string :=
  match k, s with
  | O, _ => s
  | S k', String _ s' => js_substring k' s'
  | S _, EmptyString => EmptyString
  end.

(** [s.includes(sub)]. *)
Fixpoint js_includes (sub s : string) : bool :=
  String.prefix sub s ||
  match s with
  | EmptyString => false
  | String _ s' => js_includes sub s'
  end.

(** [s.split(sep)] for a one-character separator. *)
Fixpoint js_split (sep : ascii) (s : string) : list string :=
  match s with
  | EmptyString => [EmptyString]
  | String c s' =>
      if Ascii.eqb c sep then EmptyString :: js_split sep s'
      else match js_split sep s' with
           | piece :: pieces => String c piece :: pieces
           | [] => [String c EmptyString]
           end
  end.

(** [names.includes(x)] on an array of strings. *)
Definition array_includes (names : list string) (x : string) : bool :=
  existsb (String.eqb x) names.

(** ** The [path] module of the runtime (POSIX flavour)

    [path] belongs to Node.js, not to the repository.  It is modelled on
    path segments: a path is cut at every ["/"], and [normalizeString]
    walks the segments with a stack, as Node's character loop does. *)

Module path.

Definition sep : ascii := "/"%char.

(** [p.split("/")] *)
Definition split (p : string) : list string := js_split sep p.

(** [segs.join("/")] *)
Fixpoint unsplit (segs : list string) : string :=
  match segs with
  | [] => EmptyString
  | [seg] => seg
  | seg :: segs' => seg +:+ String sep (unsplit segs')
  end.

(** The segment stack of [normalizeString]: empty segments and ["."] are
    skipped; [".."] removes the segment on top of the stack, and is kept
    only when [allowAboveRoot] and nothing is left to remove.  [res] is
    the stack, top first. *)
Fixpoint normalize_segments (allowAboveRoot : bool) (segs res : list string)
  : list string :=
  match segs with
  | [] => rev res
  | seg :: segs' =>
      if String.eqb seg EmptyString || String.eqb seg "." then
        normalize_segments allowAboveRoot segs' res
      else if String.eqb seg ".." then
        match res with
        | top :: res' =>
            if String.eqb top ".." then
              normalize_segments allowAboveRoot segs' (".." :: res)
            else normalize_segments allowAboveRoot segs' res'
        | [] =>
            normalize_segments allowAboveRoot segs'
              (if allowAboveRoot then [".."] else [])
        end
      else normalize_segments allowAboveRoot segs' (seg :: res)
  end.

Definition normalizeString (p : string) (allowAboveRoot : bool) : string :=
  unsplit (normalize_segments allowAboveRoot (split p) []).

Definition isAbsolute (p : string) : bool :=
  match p with
  | String c _ => Ascii.eqb c sep
  | EmptyString => false
  end.

Definition endsWithSep (p : string) : bool :=
  match last (split p) with
  | Some seg => String.eqb seg EmptyString && negb (String.eqb p EmptyString)
  | None => false
  end.

(** The loop of [path.resolve]: arguments are taken from the right until
    an absolute one is met; the working directory comes last. *)
Fixpoint resolve_loop (args_rev : list string) (cwd resolvedPath : string)
  : string * bool :=
  match args_rev with
  | [] =>
      if String.eqb cwd EmptyString then (resolvedPath, false)
      else (cwd +:+ String sep resolvedPath, isAbsolute cwd)
  | p :: rest =>
      if String.eqb p EmptyString then resolve_loop rest cwd resolvedPath
      else
        let resolvedPath' := p +:+ String sep resolvedPath in
        if isAbsolute p then (resolvedPath', true)
        else resolve_loop rest cwd resolvedPath'
  end.

(** [path.resolve(...args)], with [cwd] the result of [process.cwd()]. *)
Definition resolve (cwd : string) (args : list string) : string :=
  let '(resolvedPath, resolvedAbsolute) := resolve_loop (rev args) cwd EmptyString in
  let normalized := normalizeString resolvedPath (negb resolvedAbsolute) in
  if resolvedAbsolute then String sep normalized
  else if String.eqb normalized EmptyString then "." else normalized.

(** [path.normalize(p)] *)
Definition normalize (p : string) : string :=
  if String.eqb p EmptyString then "."
  else
    let normalized := normalizeString p (negb (isAbsolute p)) in
    let normalized :=
      if String.eqb normalized EmptyString then
        (if isAbsolute p then EmptyString else if endsWithSep p then "./" else ".")
      else if endsWithSep p then normalized +:+ "/" else normalized in
    if isAbsolute p then String sep normalized else normalized.

(** [path.join(...args)] *)
Definition join (args : list string) : string :=
  match filter (λ a, a ≠ EmptyString) args with
  | [] => "."
  | nonempty => normalize (unsplit nonempty)
  end.

(** The non-empty segments of a resolved path. *)
Definition segments (p : string) : list string :=
  filter (λ seg, seg ≠ EmptyString) (split p).

(** What is left of two segment lists after their common prefix. *)
Fixpoint strip_common (from to : list string) : list string * list string :=
  match from, to with
  | f :: from', t :: to' =>
      if String.eqb f t then strip_common from' to' else (from, to)
  | _, _ => (from, to)
  end.

(** [path.relative(from, to)]: one [".."] for every segment of [from]
    below the common ancestor, then the rest of [to]. *)
Definition relative (cwd from to : string) : string :=
  if String.eqb from to then EmptyString
  else
    let from' := resolve cwd [from] in
    let to' := resolve cwd [to] in
    if String.eqb from' to' then EmptyString
    else
      let '(up, down) := strip_common (segments from') (segments to') in
      unsplit (map (λ _, "..") up ++ down).

End path.


(** ** Plain objects

    [this.loaders] starts as [{}], so [Object.prototype] stands behind it:
    [name in this.loaders] and [this.loaders[name]] also find the members
    every object inherits.  Own properties are kept in the order in which
    [Object.values] lists them: those whose name is an array index first,
    by ascending index, then the others in the order of their creation. *)

Definition Object_prototype_members : list string :=
  [ "constructor"; "__defineGetter__"; "__defineSetter__"; "hasOwnProperty";
    "__lookupGetter__"; "__lookupSetter__"; "isPrototypeOf";
    "propertyIsEnumerable"; "toString"; "valueOf"; "__proto__";
    "toLocaleString" ].

Definition inherited (key : string) : bool :=
  array_includes Object_prototype_members key.

Definition JSObject (V : Type) : Type := list (string * V).

Fixpoint own_property {V} (key : string) (o : JSObject V) : option V :=
  match o with
  | [] => None
  | (k, v) :: o' => if String.eqb k key then Some v else own_property key o'
  end.

(** [key in o] *)
Definition js_in {V} (key : string) (o : JSObject V) : bool :=
  match own_property key o with
  | Some _ => true
  | None => inherited key
  end.

(** An array index: the canonical decimal form of an integer from [0] to
    [2^32 - 2]. *)
Definition digit (c : ascii) : option N :=
  let code := N_of_ascii c in
  if ((48 <=? code) && (code <=? 57))%N then Some (code - 48)%N else None.

Fixpoint decimal (s : string) (value : N) : option N :=
  match s with
  | EmptyString => Some value
  | String c s' =>
      match digit c with
      | Some d => decimal s' (10 * value + d)%N
      | None => None
      end
  end.

Definition array_index (key : string) : option N :=
  match key with
  | EmptyString => None
  | String c rest =>
      if Ascii.eqb c "0" then
        if String.eqb rest EmptyString then Some 0%N else None
      else
        match decimal key 0 with
        | Some n => if (n <=? 4294967294)%N then Some n else None
        | None => None
        end
  end.

(** Whether a new property [key] is listed before the property [k]: an
    array index comes before every larger index and every other name. *)
Definition listed_before (key k : string) : bool :=
  match array_index key, array_index k with
  | Some n, Some m => (n <? m)%N
  | Some _, None => true
  | None, _ => false
  end.

(** The new value of an own property, which keeps its place. *)
Fixpoint js_replace {V} (key : string) (v : V) (o : JSObject V) : JSObject V :=
  match o with
  | [] => []
  | (k, w) :: o' =>
      if String.eqb k key then (k, v) :: o' else (k, w) :: js_replace key v o'
  end.

(** A new own property: last, unless its name is an array index.  (The
    name [__proto__] does not get here: [runDirectoryLoader] refuses every
    name that [in] finds, the inherited ones included.) *)
Fixpoint js_insert {V} (key : string) (v : V) (o : JSObject V) : JSObject V :=
  match o with
  | [] => [(key, v)]
  | (k, w) :: o' =>
      if listed_before key k then (key, v) :: (k, w) :: o'
      else (k, w) :: js_insert key v o'
  end.

(** [o[key] = v] *)
Definition js_set {V} (key : string) (v : V) (o : JSObject V) : JSObject V :=
  match own_property key o with
  | Some _ => js_replace key v o
  | None => js_insert key v o
  end.

(** [delete o[key]] *)
Fixpoint js_delete {V} (key : string) (o : JSObject V) : JSObject V :=
  match o with
  | [] => []
  | (k, w) :: o' =>
      if String.eqb k key then o' else (k, w) :: js_delete key o'
  end.

Definition Object_values {V} (o : JSObject V) : list V := map snd o.
Definition Object_keys {V} (o : JSObject V) : list string := map fst o.

(** ** Type descriptions ([n8n-workflow])

    Only the fields the loader reads or writes are kept. *)

Record INodePropertyOptions := {
  option_name : string;
  option_value : string
}.

Record INodeProperties := {
  property_name : string;
  (** [options?]: [None] when [Array.isArray(p.options)] is false *)
  property_options : option (list INodePropertyOptions)
}.

Record INodeCredentialDescription := {
  credential_name : string
}.

(** [version: number | number[]]; a version number is a finite decimal. *)
Inductive NodeVersion :=
  | VersionNumber (v : QArith_base.Q)
  | VersionArray (vs : list QArith_base.Q).

Record INodeTypeDescription := {
  node_name : string;
  node_version : NodeVersion;
  node_defaultVersion : option QArith_base.Q;
  node_usableAsTool : option bool;
  node_properties : list INodeProperties;
  node_credentials : option (list INodeCredentialDescription)
}.

(** [authenticate] is a function or a generic description; the loader only
    asks whether it is defined. *)
Inductive IAuthenticate := AuthenticateFunction | AuthenticateGeneric.

Record ICredentialType := {
  credtype_name : string;
  credtype_extends : option (list string);
  credtype_authenticate : option IAuthenticate
}.

Record LoadingDetails := {
  className : string;
  sourcePath : string
}.

Record CredentialLoadingDetails := {
  cred_className : string;
  cred_sourcePath : string;
  supportedNodes : option (list string);
  cred_extends : option (list string)
}.

(** [LoadedClass<T>]: a materialised type object and where it came from;
    the object itself is opaque here and stands for its identity. *)
Record LoadedClass := {
  loaded_sourcePath : string;
  loaded_type : string
}.

(** ** Directory loaders ([n8n-core])

    The three classes [runDirectoryLoader] is called with.
    [LazyPackageDirectoryLoader] extends [PackageDirectoryLoader];
    [CustomDirectoryLoader] does not. *)

Inductive LoaderClass :=
  | CustomDirectoryLoader
  | PackageDirectoryLoader
  | LazyPackageDirectoryLoader.

Definition instanceof_PackageDirectoryLoader (c : LoaderClass) : bool :=
  match c with
  | CustomDirectoryLoader => false
  | PackageDirectoryLoader | LazyPackageDirectoryLoader => true
  end.

Record DirectoryLoader := {
  loader_class : LoaderClass;
  packageName : string;
  directory : string;
  isLazyLoaded : bool;
  loader_known_nodes : gmap string LoadingDetails;
  loader_known_credentials : gmap string CredentialLoadingDetails;
  loader_types_nodes : list INodeTypeDescription;
  loader_types_credentials : list ICredentialType;
  nodeTypes : gmap string LoadedClass;
  credentialTypes : gmap string LoadedClass
}.

(** ** Errors and completions *)

Inductive JSError :=
  | ApplicationError (message : string)
  | TypeError (message : string)
  | LoaderError (message : string).

Definition error_message (e : JSError) : string :=
  match e with
  | ApplicationError m | TypeError m | LoaderError m => m
  end.

Inductive Completion (A : Type) :=
  | Normal (a : A)
  | Throw (e : JSError).
Arguments Normal {A} a.
Arguments Throw {A} e.

(** ** The instance state *)

(** The three aggregate collections readers query:
    [this.known], [this.loaded] and [this.types].  An entry of [known.nodes]
    can hold [undefined] (see [createAiTools]). *)
Record Registry := {
  known_nodes : gmap string (option LoadingDetails);
  known_credentials : gmap string CredentialLoadingDetails;
  loaded_nodes : gmap string LoadedClass;
  loaded_credentials : gmap string LoadedClass;
  types_nodes : list INodeTypeDescription;
  types_credentials : list ICredentialType
}.

Inductive LogEntry :=
  | LogWarn (message : string)
  | LogError (message : string).

(** A post processor is an external asynchronous callback; what it can see
    of this class is the registry at the time it runs.  It is embedded as
    an observer: it completes or throws.  A callback that writes into the
    objects it finds there, as the one of the frontend service does with the
    credential types, is followed in the embedding of that service; the
    properties of the rebuild are stated on what the rebuild itself does. *)
Definition PostProcessor : Type := Registry → Completion unit.

Record This := {
  registry : Registry;
  loaders : JSObject DirectoryLoader;
  excludeNodes : option (list string);
  includeNodes : list string;
  postProcessors : list PostProcessor;
  (** messages written through [this.logger], oldest first *)
  logger : list LogEntry;
  (** errors handed to [ErrorReporter.error], oldest first *)
  reported : list JSError
}.

Definition empty_registry : Registry :=
  {| known_nodes := ∅; known_credentials := ∅;
     loaded_nodes := ∅; loaded_credentials := ∅;
     types_nodes := []; types_credentials := [] |}.

Definition set_known_nodes (f : gmap string (option LoadingDetails) →
                                gmap string (option LoadingDetails))
  (r : Registry) : Registry :=
  {| known_nodes := f (known_nodes r);
     known_credentials := known_credentials r;
     loaded_nodes := loaded_nodes r; loaded_credentials := loaded_credentials r;
     types_nodes := types_nodes r; types_credentials := types_credentials r |}.

Definition set_known_credentials
  (f : gmap string CredentialLoadingDetails → gmap string CredentialLoadingDetails)
  (r : Registry) : Registry :=
  {| known_nodes := known_nodes r;
     known_credentials := f (known_credentials r);
     loaded_nodes := loaded_nodes r; loaded_credentials := loaded_credentials r;
     types_nodes := types_nodes r; types_credentials := types_credentials r |}.

Definition set_loaded_nodes (f : gmap string LoadedClass → gmap string LoadedClass)
  (r : Registry) : Registry :=
  {| known_nodes := known_nodes r; known_credentials := known_credentials r;
     loaded_nodes := f (loaded_nodes r);
     loaded_credentials := loaded_credentials r;
     types_nodes := types_nodes r; types_credentials := types_credentials r |}.

Definition set_loaded_credentials
  (f : gmap string LoadedClass → gmap string LoadedClass)
  (r : Registry) : Registry :=
  {| known_nodes := known_nodes r; known_credentials := known_credentials r;
     loaded_nodes := loaded_nodes r;
     loaded_credentials := f (loaded_credentials r);
     types_nodes := types_nodes r; types_credentials := types_credentials r |}.

Definition set_types_nodes
  (f : list INodeTypeDescription → list INodeTypeDescription)
  (r : Registry) : Registry :=
  {| known_nodes := known_nodes r; known_credentials := known_credentials r;
     loaded_nodes := loaded_nodes r; loaded_credentials := loaded_credentials r;
     types_nodes := f (types_nodes r); types_credentials := types_credentials r |}.

Definition set_types_credentials
  (f : list ICredentialType → list ICredentialType)
  (r : Registry) : Registry :=
  {| known_nodes := known_nodes r; known_credentials := known_credentials r;
     loaded_nodes := loaded_nodes r; loaded_credentials := loaded_credentials r;
     types_nodes := types_nodes r; types_credentials := f (types_credentials r) |}.

Definition set_registry (f : Registry → Registry) (this : This) : This :=
  {| registry := f (registry this); loaders := loaders this;
     excludeNodes := excludeNodes this; includeNodes := includeNodes this;
     postProcessors := postProcessors this;
     logger := logger this; reported := reported this |}.

Definition set_loaders (f : JSObject DirectoryLoader → JSObject DirectoryLoader)
  (this : This) : This :=
  {| registry := registry this; loaders := f (loaders this);
     excludeNodes := excludeNodes this; includeNodes := includeNodes this;
     postProcessors := postProcessors this;
     logger := logger this; reported := reported this |}.

Definition set_excludeNodes (x : option (list string)) (this : This) : This :=
  {| registry := registry this; loaders := loaders this;
     excludeNodes := x; includeNodes := includeNodes this;
     postProcessors := postProcessors this;
     logger := logger this; reported := reported this |}.

Definition set_postProcessors (f : list PostProcessor → list PostProcessor)
  (this : This) : This :=
  {| registry := registry this; loaders := loaders this;
     excludeNodes := excludeNodes this; includeNodes := includeNodes this;
     postProcessors := f (postProcessors this);
     logger := logger this; reported := reported this |}.

Definition log (entry : LogEntry) (this : This) : This :=
  {| registry := registry this; loaders := loaders this;
     excludeNodes := excludeNodes this; includeNodes := includeNodes this;
     postProcessors := postProcessors this;
     logger := logger this ++ [entry]; reported := reported this |}.

Definition report (e : JSError) (this : This) : This :=
  {| registry := registry this; loaders := loaders this;
     excludeNodes := excludeNodes this; includeNodes := includeNodes this;
     postProcessors := postProcessors this;
     logger := logger this; reported := reported this ++ [e] |}.

(** ** Methods as state transformers with exceptions *)

Definition M (A : Type) : Type := This → Completion A * This.

Definition ret {A} (a : A) : M A := λ this, (Normal a, this).

Definition bind {A B} (m : M A) (k : A → M B) : M B :=
  λ this,
    match m this with
    | (Normal a, this') => k a this'
    | (Throw e, this') => (Throw e, this')
    end.

Definition throw {A} (e : JSError) : M A := λ this, (Throw e, this).

Definition gets {A} (f : This → A) : M A := λ this, (Normal (f this), this).

Definition modify (f : This → This) : M unit := λ this, (Normal tt, f this).

(** A completion computed outside the instance (a collaborator's call). *)
Definition lift {A} (c : Completion A) : M A := λ this, (c, this).

(** [try { body } catch (error) { handler(error) }] *)
Definition try_catch {A} (body : M A) (handler : JSError → M A) : M A :=
  λ this,
    match body this with
    | (Normal a, this') => (Normal a, this')
    | (Throw e, this') => handler e this'
    end.

Declare Scope js_scope.
Delimit Scope js_scope with js.
Notation "'let*' x ':=' m 'in' k" := (bind m (λ x, k))
  (at level 10, x name, m at level 100, k at level 200) : js_scope.
Notation "'do' m 'then' k" := (bind m (λ _, k))
  (at level 10, m at level 100, k at level 200) : js_scope.
Local Open Scope js_scope.

(** [for (const x of xs) { await? body(x) }] and [xs.forEach(body)],
    over an array the body does not resize. *)
Fixpoint forEach {A} (xs : list A) (body : A → M unit) : M unit :=
  match xs with
  | [] => ret tt
  | x :: xs' => do body x then forEach xs' body
  end.

(** [xs.some(test)]: stops at the first element that passes. *)
Fixpoint some {A} (xs : list A) (test : A → M bool) : M bool :=
  match xs with
  | [] => ret false
  | x :: xs' =>
      let* passed := test x in
      if passed then ret true else some xs' test
  end.

(** ** Constants and collaborators outside the file *)

(** Modelled from the spec: [CUSTOM_API_CALL_NAME] and [CUSTOM_API_CALL_KEY]
    come from [@/constants], which is not among the sources; the spec calls
    the injected entry the "Custom API Call" option.  No property below
    depends on the two strings chosen. *)
Definition CUSTOM_API_CALL_NAME : string := "Custom API Call".
Definition CUSTOM_API_CALL_KEY : string := "__CUSTOM_API_CALL__".

(** [picocolors.red]: colour is presentation, the text is kept. *)
Definition picocolors_red (s : string) : string := s.

Definition LF : string := String (ascii_of_nat 10) EmptyString.
Definition DQUOTE : string := String (ascii_of_nat 34) EmptyString.

(** The error of [path.resolve] and [path.relative] on an argument that is
    not a string. *)
Definition invalidArgType (argument : string) : JSError :=
  TypeError ("The " +:+ DQUOTE +:+ argument +:+ DQUOTE
             +:+ " argument must be of type string. Received undefined").

(** What the class takes from its surroundings: build-time flags, settings,
    the file system seen through [fast-glob], the loader classes of
    [n8n-core] and the tool conversion of [n8n-workflow]. *)
Record Host := {
  inTest : bool;
  inE2ETests : bool;
  CLI_DIR : string;
  nodesDownloadDir : string;
  customExtensionDir : string;
  (** [process.env[CUSTOM_EXTENSION_ENV]] *)
  env_CUSTOM_EXTENSION : option string;
  (** [process.cwd()] *)
  cwd : string;
  (** [glob(pattern, { cwd, onlyDirectories: true, deep })] *)
  glob : string → string → nat → list string;
  (** [new constructor(dir, excludeNodes, includeNodes)] *)
  new_loader :
    LoaderClass → string → option (list string) → list string →
    Completion DirectoryLoader;
  (** [loader.loadAll()]: the loader with its collections filled *)
  loadAll : DirectoryLoader → Completion DirectoryLoader;
  (** [NodeHelpers.convertNodeToAiTool({ description }).description] *)
  convertNodeToAiTool : INodeTypeDescription → INodeTypeDescription
}.

(** [structuredClone(x)]: a deep copy; values here carry no identity. *)
Definition structuredClone {A} (x : A) : A := x.

(** ** The surroundings of hot reload *)

(** [fsPromises.access(dir)], which throws when there is no such directory,
    and [fsPromises.realpath(dir)]. *)
Record FileSystem := {
  access : string → bool;
  realpath : string → string
}.




(** One [watch(toWatch, { cwd: realModulePath })] and the loader its
    callback holds.  The callback holds the loader object itself; here the
    loader is found under its package name, where [runDirectoryLoader] has
    registered it. *)
Record Watcher := {
  watched : DirectoryLoader;
  realModulePath : string;
  toWatch : list string
}.

(** [debounce(func, wait)] belongs to lodash, not to the repository.
    Modelled from its documentation: the call of [func] is delayed until
    [wait] milliseconds have elapsed since the last time the debounced
    function was invoked.  [calls] are the times of the invocations in
    milliseconds, in ascending order; the result is the times at which
    [func] runs. *)
Fixpoint debounce (wait : N) (calls : list N) : list N :=
  match calls with
  | [] => []
  | t :: later =>
      match later with
      | [] => [(t + wait)%N]
      | next :: _ =>
          if (next <? t + wait)%N then debounce wait later
          else (t + wait)%N :: debounce wait later
      end
  end.

(** ** The class [LoadNodesAndCredentials] *)

Section LoadNodesAndCredentials.

Context (host : Host).

Definition addPostProcessor (fn : PostProcessor) : M unit :=
  modify (set_postProcessors (λ pps, pps ++ [fn])).

(** [type in this.known.nodes] *)
Definition isKnownNode (type : string) : M bool :=
  gets (λ this,
    bool_decide (is_Some (known_nodes (registry this) !! type)) || inherited type).

(** *** Registering loaders *)

Definition runDirectoryLoader (constructor : LoaderClass) (dir : string)
  : M DirectoryLoader :=
  let* excluded := gets excludeNodes in
  let* included := gets includeNodes in
  let* loader := lift (new_loader host constructor dir excluded included) in
  let* registered := gets loaders in
  if js_in (packageName loader) registered then
    throw (ApplicationError (picocolors_red
      ("nodes package " +:+ packageName loader +:+ " is already loaded." +:+ LF
       +:+ " Please delete this second copy at path " +:+ dir)))
  else
    let* loader := lift (loadAll host loader) in
    do modify (set_loaders (js_set (packageName loader) loader)) then
    ret loader.

(** The body of the loop of [loadNodesFromNodeModules]: an error of the
    loader is logged and reported, not rethrown. *)
Definition loadInstalledPackage (nodeModulesDir packagePath : string) : M unit :=
  try_catch
    (do runDirectoryLoader LazyPackageDirectoryLoader
          (path.join [nodeModulesDir; packagePath]) then ret tt)
    (λ error,
       do modify (log (LogError (error_message error))) then
       modify (report error)).

(** [packageName] is an optional argument; the empty string is as good as
    none ([packageName ? … : …]). *)
Definition loadNodesFromNodeModules (nodeModulesDir : string)
  (packageName : option string) : M unit :=
  let installedPackagePaths :=
    match packageName with
    | Some name =>
        if String.eqb name EmptyString then
          glob host "n8n-nodes-*" nodeModulesDir 1
          ++ glob host "@*/n8n-nodes-*" nodeModulesDir 2
        else glob host name nodeModulesDir 1
    | None =>
        glob host "n8n-nodes-*" nodeModulesDir 1
        ++ glob host "@*/n8n-nodes-*" nodeModulesDir 2
    end in
  forEach installedPackagePaths (loadInstalledPackage nodeModulesDir).

Definition getCustomDirectories : list string :=
  customExtensionDir host ::
  match env_CUSTOM_EXTENSION host with
  | Some folders => js_split ";"%char folders
  | None => []
  end.

Definition loadNodesFromCustomDirectories : M unit :=
  forEach getCustomDirectories (λ directory,
    do runDirectoryLoader CustomDirectoryLoader directory then ret tt).

Definition loadPackage (packageName : string) : M DirectoryLoader :=
  let finalNodeUnpackedPath :=
    path.join [nodesDownloadDir host; "node_modules"; packageName] in
  runDirectoryLoader PackageDirectoryLoader finalNodeUnpackedPath.

(** [reset()] empties the collections of a loader that is dropped right
    after.  On an inherited member, which has no [reset], the call is a
    [TypeError]. *)
Definition unloadPackage (packageName : string) : M unit :=
  let* registered := gets loaders in
  if js_in packageName registered then
    match own_property packageName registered with
    | Some loader =>
        modify (set_loaders (js_delete packageName))
    | None =>
        throw (TypeError "this.loaders[packageName].reset is not a function")
    end
  else ret tt.

(** *** Icons *)

(** [loader] is truthy for a registered loader and for an inherited member.
    The latter has no [directory]: [path.resolve] rejects the [undefined]
    unless the remainder of the URL is absolute, and then [path.relative]
    rejects it. *)
Definition resolveIcon (packageName url : string) : M (option string) :=
  let* registered := gets loaders in
  let pathPrefix := "/icons/" +:+ packageName +:+ "/" in
  match own_property packageName registered with
  | Some loader =>
      let filePath :=
        path.resolve (cwd host)
          [directory loader; js_substring (String.length pathPrefix) url] in
      if negb (js_includes ".."
                 (path.relative (cwd host) (directory loader) filePath))
      then ret (Some filePath)
      else ret None
  | None =>
      if inherited packageName then
        if path.isAbsolute (js_substring (String.length pathPrefix) url)
        then throw (invalidArgType "from")
        else throw (invalidArgType "paths[0]")
      else ret None
  end.

(** *** Custom API call options *)

Definition logger_warn (message : string) : M unit :=
  modify (log (LogWarn message)).

Definition proxyAuthParents : list string :=
  ["oAuth2Api"; "googleOAuth2Api"; "oAuth1Api"].

(** The callback of [description.credentials.some(…)]. *)
Definition mayProxy (description : INodeTypeDescription)
  (credential : INodeCredentialDescription) : M bool :=
  let name := credential_name credential in
  let* credentialTypes := gets (λ this, types_credentials (registry this)) in
  match find (λ t, String.eqb (credtype_name t) name) credentialTypes with
  | None =>
      do logger_warn
           ("Failed to load Custom API options for the node " +:+ DQUOTE
            +:+ node_name description +:+ DQUOTE
            +:+ ": Unknown credential name " +:+ DQUOTE +:+ name
            +:+ DQUOTE) then
      ret false
  | Some credType =>
      match credtype_authenticate credType with
      | Some _ => ret true
      | None =>
          ret match credtype_extends credType with
              | Some parents =>
                  existsb (array_includes proxyAuthParents) parents
              | None => false
              end
      end
  end.

(** Whether any of the node's credential types may be used to make a
    request from a node other than itself. *)
Definition supportsProxyAuth (description : INodeTypeDescription) : M bool :=
  match node_credentials description with
  | None => ret false
  | Some credentials => some credentials (mayProxy description)
  end.

Definition isLatestVersion (node : INodeTypeDescription) : bool :=
  match node_defaultVersion node with
  | None => true
  | Some defaultVersion =>
      match node_version node with
      | VersionNumber version => QArith_base.Qeq_bool defaultVersion version
      | VersionArray _ => false
      end
  end.

Definition customApiCallOption : INodePropertyOptions :=
  {| option_name := CUSTOM_API_CALL_NAME; option_value := CUSTOM_API_CALL_KEY |}.

(** What reading [.name] of [undefined] throws. *)
Definition undefinedNameError : JSError :=
  TypeError "Cannot read properties of undefined (reading 'name')".

(** The condition of the [if] on a property.  [p.options[p.options.length - 1]]
    is [undefined] for an empty array, and reading [.name] of it throws. *)
Definition lacksCustomApiCall (p : INodeProperties) : Completion bool :=
  if array_includes ["resource"; "operation"] (property_name p) then
    match property_options p with
    | Some options =>
        match last options with
        | Some lastOption =>
            Normal (negb (String.eqb (option_name lastOption) CUSTOM_API_CALL_NAME))
        | None => Throw undefinedNameError
        end
    | None => Normal false
    end
  else Normal false.

(** [p.options.push({ name: CUSTOM_API_CALL_NAME, value: CUSTOM_API_CALL_KEY })] *)
Definition pushCustomApiCall (p : INodeProperties) : INodeProperties :=
  {| property_name := property_name p;
     property_options :=
       (λ options, options ++ [customApiCallOption]) <$> property_options p |}.

(** [node.properties.forEach(…)]: the properties as the loop leaves them;
    when the condition throws, those already visited keep their new option. *)
Fixpoint injectProperties (ps : list INodeProperties)
  : Completion unit * list INodeProperties :=
  match ps with
  | [] => (Normal tt, [])
  | p :: ps' =>
      match lacksCustomApiCall p with
      | Throw e => (Throw e, p :: ps')
      | Normal lacking =>
          let p' := if lacking then pushCustomApiCall p else p in
          let '(c, ps'') := injectProperties ps' in
          (c, p' :: ps'')
      end
  end.

Definition set_properties (ps : list INodeProperties)
  (node : INodeTypeDescription) : INodeTypeDescription :=
  {| node_name := node_name node; node_version := node_version node;
     node_defaultVersion := node_defaultVersion node;
     node_usableAsTool := node_usableAsTool node;
     node_properties := ps; node_credentials := node_credentials node |}.

(** The body of [this.types.nodes.forEach(…)] for one node: how the call
    completes, and the node as it leaves it. *)
Definition injectNode (node : INodeTypeDescription) (this : This)
  : Completion unit * INodeTypeDescription * This :=
  if isLatestVersion node then
    match supportsProxyAuth node this with
    | (Normal true, this') =>
        let '(c, ps) := injectProperties (node_properties node) in
        (c, set_properties ps node, this')
    | (Normal false, this') => (Normal tt, node, this')
    | (Throw e, this') => (Throw e, node, this')
    end
  else (Normal tt, node, this).

Fixpoint injectNodes (nodes : list INodeTypeDescription) (this : This)
  : Completion unit * list INodeTypeDescription * This :=
  match nodes with
  | [] => (Normal tt, [], this)
  | node :: rest =>
      match injectNode node this with
      | (Throw e, node', this') => (Throw e, node' :: rest, this')
      | (Normal _, node', this') =>
          let '(c, rest', this'') := injectNodes rest this' in
          (c, node' :: rest', this'')
      end
  end.

(** Inject a [Custom API Call] option into [resource] and [operation]
    parameters in a latest-version node that supports proxy auth.  The nodes
    are changed in place: what the loop did before a throw stays done.
    [push] works on the options array itself: in JavaScript an array that
    several parameters or several descriptions hold gets the option once
    and shows it in all of them, also in descriptions the loop passes over.
    The embedding gives each description its own copy, so that it is exact
    for the descriptions the loop works on and silent on what reaches the
    others through sharing. *)
Definition injectCustomApiCallOptions : M unit :=
  λ this,
    let '(c, nodes, this') := injectNodes (types_nodes (registry this)) this in
    (c, set_registry (set_types_nodes (λ _, nodes)) this').

(** *** AI tools *)

(** [this.known.nodes[name]], [undefined] for a missing entry. *)
Definition known_node (name : string) (r : Registry) : option LoadingDetails :=
  default None (known_nodes r !! name).

(** [credential?.supportedNodes?.includes(name)] *)
Definition supports (name : string) (credential : CredentialLoadingDetails) : bool :=
  match supportedNodes credential with
  | Some nodes => array_includes nodes name
  | None => false
  end.

(** [credential?.supportedNodes?.push(name)] *)
Definition pushSupportedNode (name : string) (credential : CredentialLoadingDetails)
  : CredentialLoadingDetails :=
  {| cred_className := cred_className credential;
     cred_sourcePath := cred_sourcePath credential;
     supportedNodes := (λ nodes, nodes ++ [name]) <$> supportedNodes credential;
     cred_extends := cred_extends credential |}.

(** The body of the loop of [createAiTools] for one usable node. *)
Definition createAiTool (usableNode : INodeTypeDescription) : M unit :=
  let description := structuredClone usableNode in
  let wrapped := convertNodeToAiTool host description in
  do modify (set_registry (set_types_nodes (λ nodes, nodes ++ [wrapped]))) then
  do modify (set_registry (λ r,
       set_known_nodes
         (insert (node_name wrapped)
                 (structuredClone (known_node (node_name usableNode) r))) r)) then
  let* credentials := gets (λ this, known_credentials (registry this)) in
  let credentialNames :=
    map fst (filter (λ entry, supports (node_name usableNode) (snd entry) = true)
                    (map_to_list credentials)) in
  forEach credentialNames (λ name,
    modify (set_registry (set_known_credentials
      (alter (pushSupportedNode (node_name wrapped)) name)))).

(** This creates all AI Agent tools by duplicating the node descriptions
    for all nodes that are marked as [usableAsTool]. *)
Definition createAiTools : M unit :=
  let* nodes := gets (λ this, types_nodes (registry this)) in
  let usableNodes :=
    filter (λ nodetype, node_usableAsTool nodetype = Some true) nodes in
  forEach usableNodes createAiTool.

(** *** Rebuilding the registry *)

(** [for (const key in source) target[key] = value(source[key])].  Every
    key is assigned as an own property.  JavaScript treats one key apart:
    an assignment to [__proto__] replaces the prototype of [target] and
    adds no property.  The embedding has no prototypes to replace: it is
    exact for every other key. *)
Definition for_in_assign {A B} (value : A → B)
  (source : gmap string A) (target : gmap string B) : gmap string B :=
  map_fold (λ key a acc, <[key := value a]> acc) target source.

Definition qualifyNode (loader : DirectoryLoader) (details : LoadingDetails)
  : option LoadingDetails :=
  Some {| className := className details;
          sourcePath := path.join [directory loader; sourcePath details] |}.

Definition qualifyCredential (loader : DirectoryLoader)
  (details : CredentialLoadingDetails) : CredentialLoadingDetails :=
  {| cred_className := cred_className details;
     cred_sourcePath := path.join [directory loader; cred_sourcePath details];
     supportedNodes :=
       if instanceof_PackageDirectoryLoader (loader_class loader) then
         map (λ nodeName, packageName loader +:+ "." +:+ nodeName)
           <$> supportedNodes details
       else None;
     cred_extends := cred_extends details |}.

(** The body of the loop over the loaders.  [concat] copies references: the
    descriptions in the aggregate list are the ones the loader holds, and an
    option injected below shows in both.  The embedding follows the
    aggregate list. *)
Definition mergeLoader (loader : DirectoryLoader) : M unit :=
  do modify (set_registry (set_types_nodes
       (λ nodes, nodes ++ loader_types_nodes loader))) then
  do modify (set_registry (set_types_credentials
       (λ credentials, credentials ++ loader_types_credentials loader))) then
  do modify (set_registry (set_loaded_nodes
       (for_in_assign id (nodeTypes loader)))) then
  do modify (set_registry (set_loaded_credentials
       (for_in_assign id (credentialTypes loader)))) then
  do modify (set_registry (set_known_nodes
       (for_in_assign (qualifyNode loader) (loader_known_nodes loader)))) then
  modify (set_registry (set_known_credentials
       (for_in_assign (qualifyCredential loader)
          (loader_known_credentials loader)))).

(** [this.known = { nodes: {}, credentials: {} }] *)
Definition clearKnown : M unit :=
  modify (set_registry (λ r,
    set_known_credentials (λ _, ∅) (set_known_nodes (λ _, ∅) r))).

(** [this.loaded = { nodes: {}, credentials: {} }] *)
Definition clearLoaded : M unit :=
  modify (set_registry (λ r,
    set_loaded_credentials (λ _, ∅) (set_loaded_nodes (λ _, ∅) r))).

(** [this.types = { nodes: [], credentials: [] }] *)
Definition clearTypes : M unit :=
  modify (set_registry (λ r,
    set_types_credentials (λ _, []) (set_types_nodes (λ _, []) r))).

(** [await postProcessor()]: the callback runs on the registry of the
    moment; its completion is that of the statement. *)
Definition await_postProcessor (postProcessor : PostProcessor) : M unit :=
  λ this, (postProcessor (registry this), this).

Definition postProcessLoaders : M unit :=
  do clearKnown then
  do clearLoaded then
  do clearTypes then
  let* registered := gets loaders in
  do forEach (Object_values registered) mergeLoader then
  do createAiTools then
  do injectCustomApiCallOptions then
  let* hooks := gets postProcessors in
  forEach hooks await_postProcessor.

(** The statements of [postProcessLoaders] one by one, each with whether it
    awaits; [run_statements] keeps every state the instance passes through. *)
Record Statement := {
  awaits : bool;
  run : M unit
}.

Definition postProcessLoaders_statements (this : This) : list Statement :=
  [ {| awaits := false; run := clearKnown |};
    {| awaits := false; run := clearLoaded |};
    {| awaits := false; run := clearTypes |} ]
  ++ map (λ loader, {| awaits := false; run := mergeLoader loader |})
       (Object_values (loaders this))
  ++ [ {| awaits := false; run := createAiTools |};
       {| awaits := false; run := injectCustomApiCallOptions |} ]
  ++ map (λ hook, {| awaits := true; run := await_postProcessor hook |})
       (postProcessors this).

(** The states after each statement, up to and including the one left by a
    statement that throws. *)
Fixpoint run_statements (statements : list Statement) (this : This) : list This :=
  match statements with
  | [] => []
  | s :: rest =>
      match run s this with
      | (Normal _, this') => this' :: run_statements rest this'
      | (Throw _, this') => [this']
      end
  end.

(** *** Start-up

    [init] first points [NODE_PATH] at the module paths of the process; that
    plays no part in what follows. *)

Definition init : M unit :=
  if inTest host then throw (ApplicationError "Not available in tests")
  else
    do (if inE2ETests host then ret tt
        else modify (λ this,
               set_excludeNodes
                 (Some (default [] (excludeNodes this) ++ ["n8n-nodes-base.e2eTest"]))
                 this)) then
    let basePathsToScan :=
      [ path.join [CLI_DIR host; ".."];
        path.join [CLI_DIR host; "node_modules"] ] in
    do forEach basePathsToScan (λ nodeModulesDir,
         do loadNodesFromNodeModules nodeModulesDir (Some "n8n-nodes-base") then
         loadNodesFromNodeModules nodeModulesDir (Some "@n8n/n8n-nodes-langchain")) then
    do loadNodesFromNodeModules
         (path.join [nodesDownloadDir host; "node_modules"]) None then
    do loadNodesFromCustomDirectories then
    postProcessLoaders.

(** *** Hot reload *)

(** The watchers [setupHotReload] installs: one for every registered loader
    whose directory exists. *)
Definition setupHotReload (fs : FileSystem) (this : This) : list Watcher :=
  omap (λ loader,
          if access fs (directory loader) then
            Some {| watched := loader;
                    realModulePath :=
                      path.join [realpath fs (directory loader);
                                 String path.sep EmptyString];
                    toWatch :=
                      if isLazyLoaded loader
                      then ["**/nodes.json"; "**/credentials.json"]
                      else ["**/*.js"; "**/*.json"] |}
          else None)
       (Object_values (loaders this)).



End LoadNodesAndCredentials.

(** ** Notions used to state the properties *)

(** The two derivation passes in the order [postProcessLoaders] runs them. *)
Definition derivationPass (host : Host) : M unit :=
  do createAiTools host then injectCustomApiCallOptions.

(** The part of [postProcessLoaders] before the derivation passes. *)
Definition mergePhase : M unit :=
  do clearKnown then
  do clearLoaded then
  do clearTypes then
  let* registered := gets loaders in
  forEach (Object_values registered) mergeLoader.

(** The error of registering a package name twice. *)
Definition duplicatePackage (name dir : string) : JSError :=
  ApplicationError (picocolors_red
    ("nodes package " +:+ name +:+ " is already loaded." +:+ LF
     +:+ " Please delete this second copy at path " +:+ dir)).

(** A credential name that resolves, in the aggregate list, to a type with
    [authenticate] or with one of the proxy parents in its own [extends]. *)
Definition proxyCapable (credentialTypes : list ICredentialType) (name : string)
  : bool :=
  match find (λ t, String.eqb (credtype_name t) name) credentialTypes with
  | None => false
  | Some credType =>
      match credtype_authenticate credType with
      | Some _ => true
      | None =>
          match credtype_extends credType with
          | Some parents => existsb (array_includes proxyAuthParents) parents
          | None => false
          end
      end
  end.

Definition directProxyAuth (credentialTypes : list ICredentialType)
  (description : INodeTypeDescription) : bool :=
  match node_credentials description with
  | None => false
  | Some credentials =>
      existsb (λ c, proxyCapable credentialTypes (credential_name c)) credentials
  end.

Definition unknownCredentialWarning (description : INodeTypeDescription)
  (name : string) : LogEntry :=
  LogWarn ("Failed to load Custom API options for the node " +:+ DQUOTE
           +:+ node_name description +:+ DQUOTE
           +:+ ": Unknown credential name " +:+ DQUOTE +:+ name +:+ DQUOTE).

(** The warnings of one call: one for every unresolved credential name met
    before the first proxy-capable credential. *)
Fixpoint unknownCredentialWarnings (credentialTypes : list ICredentialType)
  (description : INodeTypeDescription)
  (credentials : list INodeCredentialDescription) : list LogEntry :=
  match credentials with
  | [] => []
  | c :: rest =>
      if proxyCapable credentialTypes (credential_name c) then []
      else
        match find (λ t, String.eqb (credtype_name t) (credential_name c))
                credentialTypes with
        | None =>
            unknownCredentialWarning description (credential_name c)
            :: unknownCredentialWarnings credentialTypes description rest
        | Some _ => unknownCredentialWarnings credentialTypes description rest
        end
  end.

(** The reading of the specification: the [extends] chain of a credential is
    followed through the aggregate list until a proxy parent is met.  The
    chain has no cycle, so the length of the list bounds the walk. *)
Fixpoint extendsProxyParent (fuel : nat) (credentialTypes : list ICredentialType)
  (name : string) : bool :=
  match fuel with
  | O => false
  | S fuel' =>
      match find (λ t, String.eqb (credtype_name t) name) credentialTypes with
      | None => false
      | Some credType =>
          match credtype_extends credType with
          | Some parents =>
              existsb (λ parent,
                         array_includes proxyAuthParents parent
                         || extendsProxyParent fuel' credentialTypes parent)
                      parents
          | None => false
          end
      end
  end.

Definition transitiveProxyAuth (credentialTypes : list ICredentialType)
  (description : INodeTypeDescription) : bool :=
  match node_credentials description with
  | None => false
  | Some credentials =>
      existsb (λ c,
        match find (λ t, String.eqb (credtype_name t) (credential_name c))
                credentialTypes with
        | None => false
        | Some credType =>
            match credtype_authenticate credType with
            | Some _ => true
            | None =>
                extendsProxyParent (length credentialTypes) credentialTypes
                  (credential_name c)
            end
        end) credentials
  end.

(** An options array whose last entry carries the custom call name. *)
Definition endsWithCustomApiCall (options : list INodePropertyOptions) : bool :=
  match last options with
  | Some lastOption => String.eqb (option_name lastOption) CUSTOM_API_CALL_NAME
  | None => false
  end.

(** A parameter the injection looks at: named [resource] or [operation] and
    carrying an options array. *)
Definition injectionTarget (p : INodeProperties) : option (list INodePropertyOptions) :=
  if array_includes ["resource"; "operation"] (property_name p)
  then property_options p else None.

(** The parameter after injection, as the specification words it: one
    synthetic option more unless the last one already is synthetic. *)
Definition withCustomApiCall (p : INodeProperties) : INodeProperties :=
  match injectionTarget p with
  | Some options =>
      if endsWithCustomApiCall options then p else pushCustomApiCall p
  | None => p
  end.

Definition injectedNode (credentialTypes : list ICredentialType)
  (node : INodeTypeDescription) : INodeTypeDescription :=
  if isLatestVersion node && directProxyAuth credentialTypes node
  then set_properties (map withCustomApiCall (node_properties node)) node
  else node.


(** A node on which the injection faults. *)
Definition hasEmptyTarget (node : INodeTypeDescription) : Prop :=
  ∃ p, p ∈ node_properties node ∧ injectionTarget p = Some [].

(** A node on which the loop of the injection throws. *)
Definition faulting (credentialTypes : list ICredentialType)
  (node : INodeTypeDescription) : Prop :=
  isLatestVersion node = true ∧ directProxyAuth credentialTypes node = true ∧
  hasEmptyTarget node.

(** The aggregates of the merge, loader after loader: a later loader's entry
    replaces an earlier one of the same name. *)
Definition mergedKnownNodes (ls : list DirectoryLoader)
  : gmap string (option LoadingDetails) :=
  foldl (λ agg loader, (qualifyNode loader <$> loader_known_nodes loader) ∪ agg)
        ∅ ls.

Definition mergedKnownCredentials (ls : list DirectoryLoader)
  : gmap string CredentialLoadingDetails :=
  foldl (λ agg loader,
           (qualifyCredential loader <$> loader_known_credentials loader) ∪ agg)
        ∅ ls.

Definition mergedLoadedNodes (ls : list DirectoryLoader) : gmap string LoadedClass :=
  foldl (λ agg loader, nodeTypes loader ∪ agg) ∅ ls.

Definition mergedLoadedCredentials (ls : list DirectoryLoader)
  : gmap string LoadedClass :=
  foldl (λ agg loader, credentialTypes loader ∪ agg) ∅ ls.

Definition mergedRegistry (ls : list DirectoryLoader) : Registry :=
  {| known_nodes := mergedKnownNodes ls;
     known_credentials := mergedKnownCredentials ls;
     loaded_nodes := mergedLoadedNodes ls;
     loaded_credentials := mergedLoadedCredentials ls;
     types_nodes := concat (map loader_types_nodes ls);
     types_credentials := concat (map loader_types_credentials ls) |}.

(** Every type a loader holds materialised is one it knows. *)
Definition loader_consistent (loader : DirectoryLoader) : Prop :=
  (∀ name, is_Some (nodeTypes loader !! name) →
           is_Some (loader_known_nodes loader !! name)) ∧
  (∀ name, is_Some (credentialTypes loader !! name) →
           is_Some (loader_known_credentials loader !! name)).

Definition known_loaded_consistent (r : Registry) : Prop :=
  (∀ name, is_Some (loaded_nodes r !! name) → is_Some (known_nodes r !! name)) ∧
  (∀ name, is_Some (loaded_credentials r !! name) →
           is_Some (known_credentials r !! name)).

(** The statements run in sequence. *)
Fixpoint exec (statements : list Statement) : M unit :=
  match statements with
  | [] => ret tt
  | s :: rest => do run s then exec rest
  end.

(** Construct-then-swap, as the specification has it: whatever state the
    rebuild passes through, the registry readers reach through [this] is
    the one before the rebuild or the one after it. *)
Definition construct_then_swap (host : Host) (this : This) : Prop :=
  ∀ mid, mid ∈ run_statements (postProcessLoaders_statements host this) this →
    registry mid = registry this ∨
    registry mid = registry (snd (postProcessLoaders host this)).

(** A path segment that [normalizeString] keeps as it is. *)
Definition plain_segment (seg : string) : Prop :=
  seg ≠ EmptyString ∧ seg ≠ "." ∧ seg ≠ ".." ∧
  js_includes "/" seg = false.

(** The absolute, normalised path with the given segments. *)
Definition absolute_path (segs : list string) : string :=
  String path.sep (path.unsplit segs).

(** [below dir p]: [p] is [dir] or lies under it, segment by segment. *)
Definition below (dir p : string) : Prop :=
  ∃ rest, path.segments p = path.segments dir ++ rest ∧
          Forall plain_segment rest.

(** The segments of a loader's directory as [path.resolve] gives it: made
    absolute from the working directory and normalised. *)
Definition resolvedDirectory (host : Host) (loader : DirectoryLoader)
  : list string :=
  path.segments (path.resolve (cwd host) [directory loader]).




(** The URL of the traversal probe for a package. *)
Definition traversalProbe (packageName : string) : string :=
  "/icons/" +:+ packageName +:+ "/../../etc/passwd".

(** Several log entries, oldest first. *)
Definition log_all (entries : list LogEntry) (this : This) : This :=
  foldl (λ this' entry, log entry this') this entries.

(** The registry after the body of [createAiTools] has run for one node. *)
Definition aiToolAdded (host : Host) (usableNode : INodeTypeDescription)
  (r : Registry) : Registry :=
  let wrapped := convertNodeToAiTool host usableNode in
  {| known_nodes :=
       <[node_name wrapped := known_node (node_name usableNode) r]> (known_nodes r);
     known_credentials :=
       foldl (λ credentials name,
                alter (pushSupportedNode (node_name wrapped)) name credentials)
         (known_credentials r)
         (map fst (filter (λ entry, supports (node_name usableNode) (snd entry) = true)
                          (map_to_list (known_credentials r))));
     loaded_nodes := loaded_nodes r;
     loaded_credentials := loaded_credentials r;
     types_nodes := types_nodes r ++ [wrapped];
     types_credentials := types_credentials r |}.

Definition usableAsTool (nodes : list INodeTypeDescription)
  : list INodeTypeDescription :=
  filter (λ nodetype, node_usableAsTool nodetype = Some true) nodes.

(** The registry after [createAiTools]. *)
Definition aiToolsAdded (host : Host) (r : Registry) : Registry :=
  foldl (λ r' usableNode, aiToolAdded host usableNode r') r
        (usableAsTool (types_nodes r)).

(** The registry after the loop body of [postProcessLoaders] has run for
    one loader. *)
Definition loaderMerged (loader : DirectoryLoader) (r : Registry) : Registry :=
  {| known_nodes :=
       for_in_assign (qualifyNode loader) (loader_known_nodes loader) (known_nodes r);
     known_credentials :=
       for_in_assign (qualifyCredential loader) (loader_known_credentials loader)
         (known_credentials r);
     loaded_nodes := for_in_assign id (nodeTypes loader) (loaded_nodes r);
     loaded_credentials :=
       for_in_assign id (credentialTypes loader) (loaded_credentials r);
     types_nodes := types_nodes r ++ loader_types_nodes loader;
     types_credentials := types_credentials r ++ loader_types_credentials loader |}.

(** Where the traversal probe lands: two levels above the directory (or at
    the root, when the directory is less than two levels deep). *)
Definition two_levels_up (segs : list string) : list string :=
  match rev segs with
  | _ :: _ :: above => rev above
  | _ => []
  end.

(** ** Instances for the examples *)

(** A freshly constructed instance: the field initialisers of the class. *)
Definition new_LoadNodesAndCredentials (exclude : option (list string))
  (include : list string) : This :=
  {| registry := empty_registry; loaders := [];
     excludeNodes := exclude; includeNodes := include;
     postProcessors := []; logger := []; reported := [] |}.

(** A loader that has found nothing yet. *)
Definition bare_loader (class : LoaderClass) (name dir : string) : DirectoryLoader :=
  {| loader_class := class; packageName := name; directory := dir;
     isLazyLoaded :=
       match class with LazyPackageDirectoryLoader => true | _ => false end;
     loader_known_nodes := ∅; loader_known_credentials := ∅;
     loader_types_nodes := []; loader_types_credentials := [];
     nodeTypes := ∅; credentialTypes := ∅ |}.

(** Modelled from the spec: [NodeHelpers.convertNodeToAiTool] is not among
    the sources; the spec describes it as a fixed, pure conversion that
    renames and retags the description as a tool variant.  The general
    properties below hold for any conversion; this one serves the examples. *)
Definition toolVariant (description : INodeTypeDescription) : INodeTypeDescription :=
  {| node_name := node_name description +:+ "Tool";
     node_version := node_version description;
     node_defaultVersion := node_defaultVersion description;
     node_usableAsTool := None;
     node_properties := node_properties description;
     node_credentials := node_credentials description |}.

Definition basename (dir : string) : string :=
  default EmptyString (last (path.split dir)).

(** An installation in which [n8n-nodes-base] is present both next to the
    [n8n] package and in its own [node_modules] folder. *)
Definition demo_host : Host :=
  {| inTest := false; inE2ETests := false;
     CLI_DIR := "/usr/lib/node_modules/n8n";
     nodesDownloadDir := "/home/node/.n8n/nodes";
     customExtensionDir := "/home/node/.n8n/custom";
     env_CUSTOM_EXTENSION := None;
     cwd := "/home/node";
     glob := λ pattern dir _,
       if String.eqb pattern "n8n-nodes-base"
          && (String.eqb dir "/usr/lib/node_modules"
              || String.eqb dir "/usr/lib/node_modules/n8n/node_modules")
       then ["n8n-nodes-base"] else [];
     new_loader := λ class dir _ _,
       Normal (bare_loader class
                 match class with
                 | CustomDirectoryLoader => "CUSTOM"
                 | _ => basename dir
                 end dir);
     loadAll := Normal;
     convertNodeToAiTool := toolVariant |}.

(** An instance whose only loader is the custom directory [/etc]. *)
Definition custom_in_etc : This :=
  set_loaders
    (λ _, [("CUSTOM", bare_loader CustomDirectoryLoader "CUSTOM" "/etc")])
    (new_LoadNodesAndCredentials None []).

(** An instance with [n8n-nodes-base] registered from the global folder. *)
Definition base_installed : This :=
  set_loaders
    (λ _, [("n8n-nodes-base",
            bare_loader LazyPackageDirectoryLoader "n8n-nodes-base"
              "/usr/lib/node_modules/n8n-nodes-base")])
    (new_LoadNodesAndCredentials None []).

(** Credential types in which a proxy parent is reached in two steps. *)
Definition microsoft_credentials : list ICredentialType :=
  [ {| credtype_name := "microsoftOutlookOAuth2Api";
       credtype_extends := Some ["microsoftOAuth2Api"];
       credtype_authenticate := None |};
    {| credtype_name := "microsoftOAuth2Api";
       credtype_extends := Some ["oAuth2Api"];
       credtype_authenticate := None |};
    {| credtype_name := "oAuth2Api";
       credtype_extends := None;
       credtype_authenticate := None |};
    {| credtype_name := "gmailOAuth2";
       credtype_extends := Some ["googleOAuth2Api"];
       credtype_authenticate := None |} ].

Definition one_option (name : string) : INodePropertyOptions :=
  {| option_name := name; option_value := name |}.

Definition outlook_node : INodeTypeDescription :=
  {| node_name := "n8n-nodes-base.microsoftOutlook";
     node_version := VersionNumber (QArith_base.Qmake 2 1);
     node_defaultVersion := Some (QArith_base.Qmake 2 1);
     node_usableAsTool := None;
     node_properties :=
       [ {| property_name := "resource";
            property_options := Some [one_option "message"] |} ];
     node_credentials :=
       Some [ {| credential_name := "microsoftOutlookOAuth2Api" |} ] |}.

Definition gmail_node : INodeTypeDescription :=
  {| node_name := "n8n-nodes-base.gmail";
     node_version := VersionNumber (QArith_base.Qmake 2 1);
     node_defaultVersion := None;
     node_usableAsTool := Some true;
     node_properties :=
       [ {| property_name := "resource";
            property_options := Some [one_option "message"; one_option "label"] |};
         {| property_name := "limit"; property_options := None |} ];
     node_credentials :=
       Some [ {| credential_name := "googleApi" |};
              {| credential_name := "gmailOAuth2" |} ] |}.

(** A node whose [operation] parameter has an options array with nothing
    in it, after a parameter the injection does extend. *)
Definition empty_options_node : INodeTypeDescription :=
  {| node_name := "n8n-nodes-base.empty";
     node_version := VersionNumber (QArith_base.Qmake 1 1);
     node_defaultVersion := None;
     node_usableAsTool := None;
     node_properties :=
       [ {| property_name := "resource";
            property_options := Some [one_option "message"] |};
         {| property_name := "operation"; property_options := Some [] |} ];
     node_credentials := Some [ {| credential_name := "gmailOAuth2" |} ] |}.

Definition with_types (nodes : list INodeTypeDescription)
  (credentials : list ICredentialType) : This :=
  set_registry
    (λ r, set_types_credentials (λ _, credentials) (set_types_nodes (λ _, nodes) r))
    (new_LoadNodesAndCredentials None []).

(** An instance holding the Gmail node, flagged usable as a tool, and a
    credential that lists it among its supported nodes. *)
Definition gmail_instance : This :=
  set_registry
    (λ _, {| known_nodes :=
               {[ "n8n-nodes-base.gmail" :=
                    Some {| className := "Gmail";
                            sourcePath := "/pkg/dist/nodes/Gmail/Gmail.node.js" |} ]};
             known_credentials :=
               {[ "gmailOAuth2" :=
                    {| cred_className := "GmailOAuth2Api";
                       cred_sourcePath := "/pkg/dist/credentials/GmailOAuth2Api.credentials.js";
                       supportedNodes := Some ["n8n-nodes-base.gmail"];
                       cred_extends := Some ["googleOAuth2Api"] |} ]};
             loaded_nodes := ∅; loaded_credentials := ∅;
             types_nodes := [gmail_node];
             types_credentials := microsoft_credentials |})
    (new_LoadNodesAndCredentials None []).

(** A custom directory declaring the node [foo] and the credential
    [barApi], and an installed package declaring [baz] and [bazApi]. *)
Definition foo_node : INodeTypeDescription :=
  {| node_name := "foo";
     node_version := VersionNumber (QArith_base.Qmake 1 1);
     node_defaultVersion := None;
     node_usableAsTool := Some true;
     node_properties :=
       [ {| property_name := "operation";
            property_options := Some [one_option "get"] |} ];
     node_credentials := Some [ {| credential_name := "barApi" |} ] |}.

Definition custom_loader : DirectoryLoader :=
  {| loader_class := CustomDirectoryLoader; packageName := "CUSTOM";
     directory := "/home/node/.n8n/custom"; isLazyLoaded := false;
     loader_known_nodes :=
       {[ "foo" := {| className := "Foo"; sourcePath := "Foo.node.js" |} ]};
     loader_known_credentials :=
       {[ "barApi" :=
            {| cred_className := "BarApi"; cred_sourcePath := "BarApi.credentials.js";
               supportedNodes := Some ["foo"];
               cred_extends := Some ["oAuth2Api"] |} ]};
     loader_types_nodes := [foo_node];
     loader_types_credentials :=
       [ {| credtype_name := "barApi"; credtype_extends := Some ["oAuth2Api"];
            credtype_authenticate := None |} ];
     nodeTypes :=
       {[ "foo" := {| loaded_sourcePath := "Foo.node.js"; loaded_type := "Foo" |} ]};
     credentialTypes := ∅ |}.

Definition beta_loader : DirectoryLoader :=
  {| loader_class := LazyPackageDirectoryLoader; packageName := "n8n-nodes-beta";
     directory := "/home/node/.n8n/nodes/node_modules/n8n-nodes-beta";
     isLazyLoaded := true;
     loader_known_nodes :=
       {[ "baz" := {| className := "Baz"; sourcePath := "dist/nodes/Baz.node.js" |} ]};
     loader_known_credentials :=
       {[ "bazApi" :=
            {| cred_className := "BazApi";
               cred_sourcePath := "dist/credentials/BazApi.credentials.js";
               supportedNodes := Some ["baz"];
               cred_extends := None |} ]};
     loader_types_nodes := [];
     loader_types_credentials :=
       [ {| credtype_name := "bazApi"; credtype_extends := None;
            credtype_authenticate := Some AuthenticateGeneric |} ];
     nodeTypes := ∅; credentialTypes := ∅ |}.

Definition two_packages : This :=
  set_loaders (λ _, [("CUSTOM", custom_loader); ("n8n-nodes-beta", beta_loader)])
    (new_LoadNodesAndCredentials None []).

(** The two packages after a first rebuild. *)
Definition rebuilt : This := snd (postProcessLoaders demo_host two_packages).

(** ** Notions used to state the further properties *)

(** Every loader is filed under its own package name, and no name twice. *)
Definition loaders_keyed (registered : JSObject DirectoryLoader) : Prop :=
  NoDup (Object_keys registered) ∧
  Forall (λ entry, packageName (snd entry) = fst entry) registered.

(** [loadAll] fills the collections of the loader it is called on: the
    loader keeps its package name. *)
Definition loadAll_keeps_name (host : Host) : Prop :=
  ∀ loader loaded, loadAll host loader = Normal loaded →
    packageName loaded = packageName loader.

(** The post processors awaited one after the other on a registry: the
    error of the first that throws, if any. *)
Fixpoint awaitAll (hooks : list PostProcessor) (r : Registry) : Completion unit :=
  match hooks with
  | [] => Normal tt
  | hook :: rest =>
      match hook r with
      | Normal _ => awaitAll rest r
      | Throw e => Throw e
      end
  end.

(** A method that keeps a property of the instance, however it completes. *)
Definition preserves {A} (Q : This → Prop) (m : M A) : Prop :=
  ∀ this, Q this → Q (snd (m this)).

(** The log entry of an error caught by a scan. *)
Definition logged (e : JSError) : LogEntry := LogError (error_message e).

(** The folders a scan of [nodeModulesDir] finds. *)
Definition installedPackagePaths (host : Host) (nodeModulesDir : string)
  (packageName : option string) : list string :=
  match packageName with
  | Some name =>
      if String.eqb name EmptyString then
        glob host "n8n-nodes-*" nodeModulesDir 1
        ++ glob host "@*/n8n-nodes-*" nodeModulesDir 2
      else glob host name nodeModulesDir 1
  | None =>
      glob host "n8n-nodes-*" nodeModulesDir 1
      ++ glob host "@*/n8n-nodes-*" nodeModulesDir 2
  end.

(** The errors [runDirectoryLoader] throws when it is run on the folders
    one after the other, and the instance these runs leave. *)
Fixpoint registrations (host : Host) (nodeModulesDir : string)
  (packagePaths : list string) (this : This) : list JSError * This :=
  match packagePaths with
  | [] => ([], this)
  | packagePath :: rest =>
      match runDirectoryLoader host LazyPackageDirectoryLoader
              (path.join [nodeModulesDir; packagePath]) this with
      | (Normal _, this') => registrations host nodeModulesDir rest this'
      | (Throw e, this') =>
          let '(errors, final) := registrations host nodeModulesDir rest this' in
          (e :: errors, final)
      end
  end.

(** The name of the tool variant of a description. *)
Definition toolName (host : Host) (node : INodeTypeDescription) : string :=
  node_name (convertNodeToAiTool host node).

(** A known credential whose list of supported nodes got the names [added]
    at its end and is otherwise as it was. *)
Definition supportedNodes_grown (allowed : list string)
  (before after : CredentialLoadingDetails) : Prop :=
  ∃ added,
    Forall (λ name, name ∈ allowed) added ∧
    after = {| cred_className := cred_className before;
               cred_sourcePath := cred_sourcePath before;
               supportedNodes := (λ nodes, nodes ++ added) <$> supportedNodes before;
               cred_extends := cred_extends before |}.

Definition credentials_grown (allowed : list string)
  (before after : gmap string CredentialLoadingDetails) : Prop :=
  ∀ name,
    match before !! name with
    | Some credential =>
        ∃ credential', after !! name = Some credential'
                       ∧ supportedNodes_grown allowed credential credential'
    | None => after !! name = None
    end.

(** A parameter as the injection may leave it: the same, or with the custom
    call option after the options it had. *)
Definition options_grown (before after : INodeProperties) : Prop :=
  property_name after = property_name before ∧
  (property_options after = property_options before
   ∨ ∃ options, property_options before = Some options
                ∧ property_options after = Some (options ++ [customApiCallOption])).

Definition description_grown (before after : INodeTypeDescription) : Prop :=
  node_name after = node_name before
  ∧ node_version after = node_version before
  ∧ node_defaultVersion after = node_defaultVersion before
  ∧ node_usableAsTool after = node_usableAsTool before
  ∧ node_credentials after = node_credentials before
  ∧ Forall2 options_grown (node_properties before) (node_properties after).

(** An installation with two more folders of custom extensions. *)
Definition host_with_extensions : Host :=
  {| inTest := false; inE2ETests := false;
     CLI_DIR := "/usr/lib/node_modules/n8n";
     nodesDownloadDir := "/home/node/.n8n/nodes";
     customExtensionDir := "/home/node/.n8n/custom";
     env_CUSTOM_EXTENSION := Some "/opt/extensions;/srv/nodes";
     cwd := "/home/node";
     glob := λ _ _ _, [];
     new_loader := λ class dir _ _, Normal (bare_loader class (basename dir) dir);
     loadAll := Normal;
     convertNodeToAiTool := toolVariant |}.

(** [pieces.join(sep)] *)
Definition js_join (sep : string) (pieces : list string) : string :=
  String.concat sep pieces.

(** ** The front-end service ([services/frontend.service.ts])

    The service registers [generateTypes] with [addPostProcessor]; what
    [generateTypes] does with the aggregate descriptions is below. *)

(** [stream.write(chunk)] on the stream of a file: the chunks written,
    oldest first. *)
Definition stream_write (chunk : string) (stream : list string) : list string :=
  stream ++ [chunk].

(** What the file holds once the stream has ended. *)
Definition stream_content (stream : list string) : string :=
  foldr String.append EmptyString stream.

(** The callback of [data.forEach((entry, index) => …)] in
    [writeStaticJSON]; [stringify] is [JSON.stringify] on an entry. *)
Definition writeEntry {A} (stringify : A → string) (data : list A)
  (index : nat) (entry : A) (stream : list string) : list string :=
  let stream := stream_write (stringify entry) stream in
  let stream :=
    if bool_decide (index ≠ (length data - 1)%nat)
    then stream_write "," stream else stream in
  stream_write LF stream.

(** [array.forEach((entry, index) => …)] from the given index on. *)
Fixpoint forEach_indexed {A St} (body : nat → A → St → St) (index : nat)
  (entries : list A) (s : St) : St :=
  match entries with
  | [] => s
  | entry :: rest => forEach_indexed body (S index) rest (body index entry s)
  end.

(** [writeStaticJSON(name, data)]: the stream of [types/<name>.json] from
    its creation to [stream.end()]. *)
Definition writeStaticJSON {A} (stringify : A → string) (data : list A)
  : list string :=
  let stream := stream_write ("[" +:+ LF) [] in
  let stream := forEach_indexed (writeEntry stringify data) 0 data stream in
  stream_write ("]" +:+ LF) stream.

(** [o[key]] on a plain object: an own property, a member inherited from
    [Object.prototype], or [undefined]. *)
Inductive Member (V : Type) :=
  | OwnProperty (v : V)
  | InheritedMember
  | Undefined.
Arguments OwnProperty {V} v.
Arguments InheritedMember {V}.
Arguments Undefined {V}.

Definition js_get {V} (key : string) (o : JSObject V) : Member V :=
  match own_property key o with
  | Some v => OwnProperty v
  | None => if inherited key then InheritedMember else Undefined
  end.

(** [Object.keys(x)] where [x] is an object: the members of
    [Object.prototype] are functions, or objects without enumerable keys. *)
Definition Member_keys {V} (x : Member (JSObject V)) : list string :=
  match x with
  | OwnProperty o => Object_keys o
  | InheritedMember | Undefined => []
  end.

(** lodash [uniq]: the first occurrence of every value, in order. *)
Fixpoint uniq_from (seen xs : list string) : list string :=
  match xs with
  | [] => []
  | x :: xs' =>
      if array_includes seen x then uniq_from seen xs'
      else x :: uniq_from (x :: seen) xs'
  end.

Definition uniq (xs : list string) : list string := uniq_from [] xs.

(** The array [overwrittenProperties] collects for one credential.
    [getParentTypes] belongs to [CredentialTypes] and [credentialsOverwrites]
    is what [CredentialsOverwrites.getAll()] returns; a value of it is the
    data overwritten for one credential type. *)
Definition overwrittenProperties {V} (getParentTypes : string → list string)
  (credentialsOverwrites : JSObject (JSObject V)) (credential : ICredentialType)
  : list string :=
  let fromParents :=
    flat_map
      (λ overwrite,
         match overwrite with
         | Undefined => []
         | truthy => Member_keys truthy
         end)
      (map (λ name, js_get name credentialsOverwrites)
           (rev (getParentTypes (credtype_name credential)))) in
  fromParents ++
  (if js_in (credtype_name credential) credentialsOverwrites
   then Member_keys (js_get (credtype_name credential) credentialsOverwrites)
   else []).

(** [overwriteCredentialsProperties]: for every credential of
    [types.credentials], in order, the value assigned to its
    [__overwrittenProperties]; [None] where the assignment is skipped and
    the field stays as it was. *)
Definition overwriteCredentialsProperties {V} (getParentTypes : string → list string)
  (credentialsOverwrites : JSObject (JSObject V))
  (credentials : list ICredentialType) : list (option (list string)) :=
  map (λ credential,
         let overwrittenProperties :=
           overwrittenProperties getParentTypes credentialsOverwrites credential in
         if (length overwrittenProperties =? 0)%nat then None
         else Some (uniq overwrittenProperties))
      credentials.

(** The types a credential takes overwrites from: itself and its parents. *)
Definition overwriteOwners (getParentTypes : string → list string)
  (credential : ICredentialType) : list string :=
  credtype_name credential :: getParentTypes (credtype_name credential).

(** A property overwritten for one of the owners. *)
Definition overwrittenFor {V} (credentialsOverwrites : JSObject (JSObject V))
  (owners : list string) (key : string) : Prop :=
  ∃ owner overwrite,
    owner ∈ owners ∧ own_property owner credentialsOverwrites = Some overwrite
    ∧ key ∈ Object_keys overwrite.

(** The parents of the Outlook credential, nearest first, and an overwrite
    of the OAuth2 client for all credentials that extend [oAuth2Api]. *)
Definition demo_getParentTypes (name : string) : list string :=
  if String.eqb name "microsoftOutlookOAuth2Api"
  then ["microsoftOAuth2Api"; "oAuth2Api"]
  else if String.eqb name "microsoftOAuth2Api" then ["oAuth2Api"]
  else [].

Definition demo_overwrites : JSObject (JSObject string) :=
  [ ("oAuth2Api", [("clientId", "id"); ("clientSecret", "secret")]);
    ("microsoftOutlookOAuth2Api", [("clientId", "outlook")]) ].

(** A development installation: both packages rebuilt and watched, two
    modules of the custom directory and one of another place in the module
    cache. *)
Definition demo_fs : FileSystem :=
  {| access := λ dir, negb (String.eqb dir "/home/node/.n8n/nodes/node_modules/n8n-nodes-beta");
     realpath := λ dir, dir |}.


Definition custom_watcher : Watcher :=
  {| watched := custom_loader;
     realModulePath := "/home/node/.n8n/custom/";
     toWatch := ["**/*.js"; "**/*.json"] |}.



(** * Properties *)

(** ** Sequencing *)

Lemma bind_run {X Y} (m : M X) (k : X → M Y) (this : This) :
  bind m k this
  = match m this with
    | (Normal x, this') => k x this'
    | (Throw e, this') => (Throw e, this')
    end.
Proof. reflexivity. Qed.

(** ** Strings and paths *)

Section StringFacts.

Lemma js_substring_app (a b : string) :
  js_substring (String.length a) (a +:+ b) = b.
Proof. induction a as [|c a IH]; simpl; [reflexivity | exact IH]. Qed.

Lemma js_includes_prefix (sub s : string) :
  String.prefix sub s = true → js_includes sub s = true.
Proof. intros H. destruct s; simpl in *; rewrite H; reflexivity. Qed.

Lemma js_split_nonempty (c : ascii) (s : string) : js_split c s ≠ [].
Proof.
  destruct s as [|d s]; simpl; [discriminate|].
  destruct (Ascii.eqb d c); [discriminate|].
  destruct (js_split c s); discriminate.
Qed.

Lemma js_split_app (c : ascii) (a b : string) :
  js_split c (a +:+ String c b) = js_split c a ++ js_split c b.
Proof.
  induction a as [|d a IH]; simpl.
  - rewrite Ascii.eqb_refl. reflexivity.
  - destruct (Ascii.eqb d c); [rewrite IH; reflexivity|].
    rewrite IH. destruct (js_split c a) eqn:E; [|reflexivity].
    exfalso. exact (js_split_nonempty _ _ E).
Qed.

Lemma prefix_slash (d : ascii) (s : string) :
  String.prefix "/" (String d s) = Ascii.eqb d path.sep.
Proof.
  change (String.prefix "/" (String d s))
    with (if ascii_dec "/"%char d then String.prefix EmptyString s else false).
  destruct (ascii_dec "/" d) as [<-|Hne].
  - destruct s; reflexivity.
  - symmetry. apply Ascii.eqb_neq. intros ->. apply Hne. reflexivity.
Qed.

Lemma js_includes_slash_cons (d : ascii) (s : string) :
  js_includes "/" (String d s) = Ascii.eqb d path.sep || js_includes "/" s.
Proof.
  change (js_includes "/" (String d s))
    with (String.prefix "/" (String d s) || js_includes "/" s).
  rewrite prefix_slash. reflexivity.
Qed.

Lemma no_slash_cons (d : ascii) (s : string) :
  js_includes "/" (String d s) = false →
  Ascii.eqb d path.sep = false ∧ js_includes "/" s = false.
Proof. rewrite js_includes_slash_cons. apply orb_false_iff. Qed.

Lemma js_split_no_slash (s : string) :
  js_includes "/" s = false → path.split s = [s].
Proof.
  unfold path.split. induction s as [|d s IH]; intros H; [reflexivity|].
  apply no_slash_cons in H as [Hd Hs]. simpl. rewrite Hd, (IH Hs). reflexivity.
Qed.

Lemma js_split_pieces (s : string) :
  Forall (λ piece, js_includes "/" piece = false) (path.split s).
Proof.
  unfold path.split. induction s as [|d s IH]; simpl.
  - repeat constructor.
  - destruct (Ascii.eqb_spec d path.sep) as [->|Hd].
    + constructor; [reflexivity | exact IH].
    + destruct (js_split path.sep s) as [|piece pieces] eqn:E;
        [exfalso; exact (js_split_nonempty _ _ E)|].
      inversion IH as [|? ? Hp Hps]; subst. constructor; [|exact Hps].
      rewrite js_includes_slash_cons, Hp.
      apply Ascii.eqb_neq in Hd. rewrite Hd. reflexivity.
Qed.

End StringFacts.

Section PathFacts.

Lemma plain_segment_no_slash (segs : list string) :
  Forall plain_segment segs →
  Forall (λ seg, js_includes "/" seg = false) segs.
Proof.
  intros Hall. eapply Forall_impl; [exact Hall|].
  intros seg (_ & _ & _ & H). exact H.
Qed.

Lemma split_unsplit (segs : list string) :
  segs ≠ [] →
  Forall (λ seg, js_includes "/" seg = false) segs →
  path.split (path.unsplit segs) = segs.
Proof.
  induction segs as [|a [|b rest] IH]; intros Hne Hall; [congruence| |].
  - inversion Hall; subst. simpl. apply js_split_no_slash. assumption.
  - inversion Hall as [|? ? Ha Hrest]; subst.
    change (path.unsplit (a :: b :: rest))
      with (a +:+ String path.sep (path.unsplit (b :: rest))).
    unfold path.split in *. rewrite js_split_app.
    rewrite (IH ltac:(discriminate) Hrest).
    fold (path.split a). rewrite (js_split_no_slash a Ha). reflexivity.
Qed.

Lemma split_absolute_path (segs : list string) :
  Forall plain_segment segs →
  path.split (absolute_path segs)
  = EmptyString :: match segs with [] => [EmptyString] | _ => segs end.
Proof.
  intros Hall. unfold absolute_path, path.split. simpl js_split. f_equal.
  destruct segs as [|a rest]; [reflexivity|].
  apply split_unsplit; [discriminate|]. apply plain_segment_no_slash, Hall.
Qed.

Lemma segments_plain (segs : list string) :
  Forall plain_segment segs → filter (λ seg, seg ≠ EmptyString) segs = segs.
Proof.
  induction 1 as [|seg segs (Hne & _) _ IH]; [reflexivity|].
  rewrite filter_cons_True by exact Hne. rewrite IH. reflexivity.
Qed.

Lemma segments_absolute_path (segs : list string) :
  Forall plain_segment segs → path.segments (absolute_path segs) = segs.
Proof.
  intros Hall. unfold path.segments. rewrite split_absolute_path by exact Hall.
  rewrite filter_cons_False by (intros H; apply H; reflexivity).
  destruct segs as [|a rest]; [reflexivity|]. apply segments_plain, Hall.
Qed.

Lemma normalize_segments_plain (b : bool) (seg : string) (segs res : list string) :
  plain_segment seg →
  path.normalize_segments b (seg :: segs) res
  = path.normalize_segments b segs (seg :: res).
Proof.
  intros (H1 & H2 & H3 & _). simpl.
  apply String.eqb_neq in H1, H2, H3. rewrite H1, H2, H3. reflexivity.
Qed.

Lemma normalize_segments_plain_app (b : bool) (xs ys res : list string) :
  Forall plain_segment xs →
  path.normalize_segments b (xs ++ ys) res
  = path.normalize_segments b ys (rev xs ++ res).
Proof.
  intros Hall. revert res. induction Hall as [|x xs Hx _ IH]; intros res.
  - reflexivity.
  - rewrite <- app_comm_cons, normalize_segments_plain by exact Hx.
    rewrite IH. simpl. rewrite <- app_assoc. reflexivity.
Qed.

Lemma normalize_split_absolute (segs tail : list string) :
  Forall plain_segment segs →
  path.normalize_segments false (path.split (absolute_path segs) ++ tail) []
  = path.normalize_segments false tail (rev segs).
Proof.
  intros Hall. rewrite split_absolute_path by exact Hall.
  destruct segs as [|a rest]; [reflexivity|].
  rewrite <- app_comm_cons.
  change (path.normalize_segments false (EmptyString :: ((a :: rest) ++ tail)) [])
    with (path.normalize_segments false ((a :: rest) ++ tail) []).
  rewrite normalize_segments_plain_app by exact Hall.
  rewrite app_nil_r. reflexivity.
Qed.

Lemma absolute_path_not_empty (segs : list string) :
  String.eqb (absolute_path segs) EmptyString = false.
Proof. reflexivity. Qed.

Lemma isAbsolute_absolute_path (segs : list string) :
  path.isAbsolute (absolute_path segs) = true.
Proof. reflexivity. Qed.

(** Resolving an absolute path in front of a relative remainder. *)
Lemma resolve_under_absolute (cwd : string) (segs : list string) (rest : string) :
  Forall plain_segment segs →
  rest ≠ EmptyString → path.isAbsolute rest = false →
  path.resolve cwd [absolute_path segs; rest]
  = absolute_path
      (path.normalize_segments false
         (path.split rest ++ [EmptyString]) (rev segs)).
Proof.
  intros Hall Hne Hrel. unfold path.resolve. simpl rev.
  unfold path.resolve_loop.
  apply String.eqb_neq in Hne. rewrite Hne, Hrel.
  rewrite absolute_path_not_empty, isAbsolute_absolute_path.
  unfold path.normalizeString, absolute_path at 2. f_equal. f_equal.
  unfold path.split at 1. rewrite js_split_app. fold (path.split (absolute_path segs)).
  rewrite normalize_split_absolute by exact Hall.
  rewrite js_split_app. reflexivity.
Qed.

Lemma resolve_absolute_path (cwd : string) (segs : list string) :
  Forall plain_segment segs →
  path.resolve cwd [absolute_path segs] = absolute_path segs.
Proof.
  intros Hall. unfold path.resolve. simpl rev. unfold path.resolve_loop.
  rewrite absolute_path_not_empty, isAbsolute_absolute_path.
  unfold path.normalizeString, absolute_path at 2. f_equal. f_equal.
  unfold path.split at 1. rewrite js_split_app. fold (path.split (absolute_path segs)).
  rewrite normalize_split_absolute by exact Hall.
  simpl. apply rev_involutive.
Qed.

End PathFacts.

Section RelativeFacts.

Lemma strip_common_split (xs ys up down : list string) :
  path.strip_common xs ys = (up, down) →
  ∃ common, xs = common ++ up ∧ ys = common ++ down.
Proof.
  revert ys. induction xs as [|x xs IH]; intros ys H.
  - simpl in H. inversion H; subst. exists []. split; reflexivity.
  - destruct ys as [|y ys]; simpl in H.
    + inversion H; subst. exists []. split; reflexivity.
    + destruct (String.eqb_spec x y) as [->|Hxy].
      * destruct (IH _ H) as (common & -> & ->). exists (y :: common).
        split; reflexivity.
      * inversion H; subst. exists []. split; reflexivity.
Qed.

Lemma strip_common_app (common xs ys : list string) :
  path.strip_common (common ++ xs) (common ++ ys) = path.strip_common xs ys.
Proof.
  induction common as [|c common IH]; [reflexivity|].
  simpl. rewrite String.eqb_refl. exact IH.
Qed.

Lemma includes_dotdot_up (up down : list string) :
  up ≠ [] →
  js_includes ".." (path.unsplit (map (λ _, "..") up ++ down)) = true.
Proof.
  destruct up as [|u up]; [congruence|]. intros _.
  apply js_includes_prefix. simpl map. rewrite <- app_comm_cons.
  destruct (map (λ _ : string, "..") up ++ down); reflexivity.
Qed.

Lemma absolute_path_inj (xs ys : list string) :
  Forall plain_segment xs → Forall plain_segment ys →
  absolute_path xs = absolute_path ys → xs = ys.
Proof.
  intros Hx Hy H. rewrite <- (segments_absolute_path xs Hx).
  rewrite <- (segments_absolute_path ys Hy). rewrite H. reflexivity.
Qed.

Lemma relative_absolute (cwd : string) (xs ys : list string) :
  Forall plain_segment xs → Forall plain_segment ys →
  path.relative cwd (absolute_path xs) (absolute_path ys)
  = if decide (xs = ys) then EmptyString
    else let '(up, down) := path.strip_common xs ys in
         path.unsplit (map (λ _, "..") up ++ down).
Proof.
  intros Hx Hy. unfold path.relative.
  destruct (String.eqb_spec (absolute_path xs) (absolute_path ys)) as [Heq|Hne].
  - apply absolute_path_inj in Heq; [|assumption..].
    rewrite decide_True by exact Heq. reflexivity.
  - rewrite !resolve_absolute_path by assumption.
    apply String.eqb_neq in Hne. rewrite Hne.
    rewrite !segments_absolute_path by assumption.
    rewrite decide_False; [reflexivity|].
    intros ->. apply String.eqb_neq in Hne. apply Hne. reflexivity.
Qed.

(** A relative form without [".."] means the target has the directory's
    segments in front. *)
Lemma relative_without_dotdot (cwd : string) (xs ys : list string) :
  Forall plain_segment xs → Forall plain_segment ys →
  js_includes ".." (path.relative cwd (absolute_path xs) (absolute_path ys)) = false →
  ∃ down, ys = xs ++ down.
Proof.
  intros Hx Hy. rewrite relative_absolute by assumption.
  destruct (decide (xs = ys)) as [->|Hne].
  - intros _. exists []. rewrite app_nil_r. reflexivity.
  - destruct (path.strip_common xs ys) as [up down] eqn:E.
    destruct up as [|u up].
    + intros _. apply strip_common_split in E as (common & -> & ->).
      rewrite app_nil_r. exists down. reflexivity.
    + rewrite includes_dotdot_up by discriminate. discriminate.
Qed.

Lemma normalize_segments_keeps_plain (segs res : list string) :
  Forall (λ seg, js_includes "/" seg = false) segs →
  Forall plain_segment res →
  Forall plain_segment (path.normalize_segments false segs res).
Proof.
  intros Hsegs. revert res.
  induction Hsegs as [|seg segs Hseg _ IH]; intros res Hres.
  - simpl. apply Forall_rev. exact Hres.
  - simpl.
    destruct (String.eqb_spec seg EmptyString) as [|H1]; [apply IH, Hres|].
    destruct (String.eqb_spec seg ".") as [|H2]; [apply IH, Hres|]. simpl.
    destruct (String.eqb_spec seg "..") as [|H3].
    + destruct res as [|top res']; [apply IH; constructor|].
      inversion Hres as [|? ? Htop Hres']; subst.
      destruct (String.eqb_spec top "..") as [->|_].
      * destruct Htop as (_ & _ & Hdd & _). contradiction Hdd. reflexivity.
      * apply IH, Hres'.
    + apply IH. constructor; [|exact Hres]. repeat split; assumption.
Qed.

(** Whatever the remainder of the URL, the resolved path is absolute and
    normalised. *)
Lemma resolve_normalised (cwd : string) (segs : list string) (rest : string) :
  Forall plain_segment segs →
  ∃ resolved, Forall plain_segment resolved ∧
    path.resolve cwd [absolute_path segs; rest] = absolute_path resolved.
Proof.
  intros Hall. destruct (String.eqb_spec rest EmptyString) as [->|Hne].
  - exists segs. split; [exact Hall|]. apply (resolve_absolute_path cwd segs Hall).
  - destruct (path.isAbsolute rest) eqn:Habs.
    + eexists. split; [|unfold path.resolve; simpl rev; unfold path.resolve_loop;
        apply String.eqb_neq in Hne; rewrite Hne, Habs; reflexivity].
      apply normalize_segments_keeps_plain; [apply js_split_pieces | constructor].
    + eexists. split; [|apply resolve_under_absolute; assumption].
      apply normalize_segments_keeps_plain.
      * apply Forall_app. split; [apply js_split_pieces|].
        constructor; [reflexivity | constructor].
      * apply Forall_rev, Hall.
Qed.

End RelativeFacts.

(** ** Directories as they are configured

    A loader's directory may be relative, or written with a trailing
    separator or with ["."] and [".."] in it; [path.resolve] and
    [path.relative] go through its resolved form. *)

Section DirectoryFacts.

Lemma normalize_segments_app (b : bool) (xs ys res : list string) :
  path.normalize_segments b (xs ++ ys) res
  = path.normalize_segments b ys (rev (path.normalize_segments b xs res)).
Proof.
  revert res. induction xs as [|x xs IH]; intros res.
  - simpl. rewrite rev_involutive. reflexivity.
  - simpl. destruct (String.eqb x EmptyString || String.eqb x "."); [apply IH|].
    destruct (String.eqb x ".."); [|apply IH].
    destruct res as [|top res']; [apply IH|].
    destruct (String.eqb top ".."); apply IH.
Qed.

(** The loop of [path.resolve] on a directory in front of [tail]. *)
Lemma resolve_loop_directory (csegs : list string) (dir : string) :
  Forall plain_segment csegs →
  ∃ dsegs, Forall plain_segment dsegs ∧
    ∀ tail, ∃ resolvedPath,
      path.resolve_loop [dir] (absolute_path csegs) tail = (resolvedPath, true)
      ∧ path.normalize_segments false (path.split resolvedPath) []
        = path.normalize_segments false (path.split tail) (rev dsegs).
Proof.
  intros Hc. unfold path.resolve_loop.
  destruct (String.eqb_spec dir EmptyString) as [->|Hne].
  - exists csegs. split; [exact Hc|]. intros tail. eexists.
    rewrite absolute_path_not_empty, isAbsolute_absolute_path.
    split; [reflexivity|].
    unfold path.split at 1. rewrite js_split_app.
    fold (path.split (absolute_path csegs)). fold (path.split tail).
    apply normalize_split_absolute, Hc.
  - destruct (path.isAbsolute dir) eqn:Habs.
    + exists (path.normalize_segments false (path.split dir) []).
      split; [apply normalize_segments_keeps_plain;
              [apply js_split_pieces | constructor]|].
      intros tail. eexists. split; [reflexivity|].
      unfold path.split at 1. rewrite js_split_app.
      fold (path.split dir). fold (path.split tail).
      rewrite normalize_segments_app. reflexivity.
    + exists (path.normalize_segments false (path.split dir) (rev csegs)).
      split; [apply normalize_segments_keeps_plain;
              [apply js_split_pieces | apply Forall_rev, Hc]|].
      intros tail. eexists.
      rewrite absolute_path_not_empty, isAbsolute_absolute_path.
      split; [reflexivity|].
      unfold path.split at 1. rewrite !js_split_app.
      fold (path.split (absolute_path csegs)). fold (path.split dir).
      fold (path.split tail).
      rewrite normalize_split_absolute by exact Hc.
      rewrite normalize_segments_app. reflexivity.
Qed.

(** From an absolute, normalised working directory every directory
    resolves to an absolute, normalised path, and resolving below the
    directory is resolving below that path. *)
Lemma resolve_directory (csegs : list string) (dir : string) :
  Forall plain_segment csegs →
  ∃ dsegs, Forall plain_segment dsegs
    ∧ path.resolve (absolute_path csegs) [dir] = absolute_path dsegs
    ∧ ∀ rest, path.resolve (absolute_path csegs) [dir; rest]
              = path.resolve (absolute_path csegs) [absolute_path dsegs; rest].
Proof.
  intros Hc. destruct (resolve_loop_directory csegs dir Hc) as (dsegs & Hd & Hloop).
  exists dsegs. split; [exact Hd|].
  assert (Hone : path.resolve (absolute_path csegs) [dir] = absolute_path dsegs).
  { unfold path.resolve. simpl rev.
    destruct (Hloop EmptyString) as (resolvedPath & -> & Hnorm).
    unfold path.normalizeString, absolute_path. cbn [negb]. rewrite Hnorm.
    simpl. rewrite rev_involutive. reflexivity. }
  split; [exact Hone|]. intros rest.
  destruct (String.eqb_spec rest EmptyString) as [->|Hne].
  - transitivity (path.resolve (absolute_path csegs) [dir]); [reflexivity|].
    rewrite Hone. symmetry.
    transitivity (path.resolve (absolute_path csegs) [absolute_path dsegs]);
      [reflexivity|].
    apply resolve_absolute_path, Hd.
  - destruct (path.isAbsolute rest) eqn:Habs.
    + unfold path.resolve. simpl rev. unfold path.resolve_loop.
      apply String.eqb_neq in Hne. rewrite Hne, Habs. reflexivity.
    + rewrite resolve_under_absolute by assumption.
      unfold path.resolve. simpl rev.
      change (path.resolve_loop [rest; dir] (absolute_path csegs) EmptyString)
        with (if String.eqb rest EmptyString
              then path.resolve_loop [dir] (absolute_path csegs) EmptyString
              else if path.isAbsolute rest
                   then (rest +:+ String path.sep EmptyString, true)
                   else path.resolve_loop [dir] (absolute_path csegs)
                          (rest +:+ String path.sep EmptyString)).
      apply String.eqb_neq in Hne. rewrite Hne, Habs.
      destruct (Hloop (rest +:+ String path.sep EmptyString))
        as (resolvedPath & -> & Hnorm).
      unfold path.normalizeString, absolute_path. cbn [negb]. rewrite Hnorm.
      unfold path.split at 1. rewrite js_split_app. reflexivity.
Qed.

(** The relative form is taken from the resolved directory. *)
Lemma relative_directory (cwd dir : string) (dsegs tsegs : list string) :
  Forall plain_segment dsegs → Forall plain_segment tsegs →
  path.resolve cwd [dir] = absolute_path dsegs →
  path.relative cwd dir (absolute_path tsegs)
  = path.relative cwd (absolute_path dsegs) (absolute_path tsegs).
Proof.
  intros Hd Ht Hres. unfold path.relative.
  destruct (String.eqb_spec dir (absolute_path tsegs)) as [->|Hne].
  - rewrite (resolve_absolute_path cwd tsegs Ht) in Hres. rewrite <- Hres.
    rewrite String.eqb_refl. reflexivity.
  - rewrite Hres, !resolve_absolute_path by assumption.
    destruct (String.eqb (absolute_path dsegs) (absolute_path tsegs));
      reflexivity.
Qed.

End DirectoryFacts.

(** ** Icons *)

Section Icons.

Context (host : Host).

Lemma string_app_assoc (a b c : string) : (a +:+ b) +:+ c = a +:+ (b +:+ c).
Proof.
  induction a as [|x a IH]; [reflexivity|].
  change (String x ((a +:+ b) +:+ c) = String x (a +:+ (b +:+ c))).
  rewrite IH. reflexivity.
Qed.

Lemma resolveIcon_registered (this : This) (name url : string)
  (loader : DirectoryLoader) :
  own_property name (loaders this) = Some loader →
  resolveIcon host name url this
  = (Normal
       (let filePath :=
          path.resolve (cwd host)
            [directory loader;
             js_substring (String.length ("/icons/" +:+ name +:+ "/")) url] in
        if js_includes ".." (path.relative (cwd host) (directory loader) filePath)
        then None else Some filePath),
     this).
Proof.
  intros Hown. unfold resolveIcon, bind, gets. rewrite Hown. cbv zeta.
  destruct (js_includes _ _); reflexivity.
Qed.

Lemma probe_remainder (name : string) :
  js_substring (String.length ("/icons/" +:+ name +:+ "/")) (traversalProbe name)
  = "../../etc/passwd".
Proof.
  unfold traversalProbe.
  replace ("/icons/" +:+ name +:+ "/../../etc/passwd")
    with (("/icons/" +:+ name +:+ "/") +:+ "../../etc/passwd").
  - apply js_substring_app.
  - rewrite !string_app_assoc. reflexivity.
Qed.

Lemma probe_resolved (segs : list string) :
  Forall plain_segment segs →
  path.resolve (cwd host) [absolute_path segs; "../../etc/passwd"]
  = absolute_path (two_levels_up segs ++ ["etc"; "passwd"]).
Proof.
  intros Hall. rewrite resolve_under_absolute by (assumption || discriminate || reflexivity).
  f_equal. unfold two_levels_up.
  apply List.Forall_rev in Hall.
  destruct (rev segs) as [|b [|a above]].
  - reflexivity.
  - inversion Hall as [|? ? (_ & _ & Hb & _) _]; subst.
    apply String.eqb_neq in Hb. simpl. rewrite Hb. reflexivity.
  - inversion Hall as [|? ? (_ & _ & Hb & _) Hall']; subst.
    inversion Hall' as [|? ? (_ & _ & Ha & _) _]; subst.
    apply String.eqb_neq in Ha, Hb. simpl. rewrite Ha, Hb. simpl.
    rewrite <- !app_assoc. reflexivity.
Qed.

Lemma two_levels_up_plain (segs : list string) :
  Forall plain_segment segs → Forall plain_segment (two_levels_up segs).
Proof.
  intros Hall. unfold two_levels_up. apply List.Forall_rev in Hall.
  destruct (rev segs) as [|b [|a above]]; [constructor..|].
  inversion Hall as [|? ? _ Hall']; subst. inversion Hall'; subst.
  apply List.Forall_rev. assumption.
Qed.

Lemma etc_passwd_plain : Forall plain_segment ["etc"; "passwd"].
Proof.
  repeat constructor; try discriminate; reflexivity.
Qed.

(** The directory is a prefix of the probe's target only in three cases. *)
Lemma probe_inside (segs down : list string) :
  two_levels_up segs ++ ["etc"; "passwd"] = segs ++ down →
  segs = [] ∨ segs = ["etc"] ∨ ∃ above, segs = above ++ ["etc"; "passwd"].
Proof.
  unfold two_levels_up.
  assert (Hsegs : segs = rev (rev segs)) by (symmetry; apply rev_involutive).
  revert Hsegs. generalize (rev segs) as r. intros r ->.
  destruct r as [|b [|a above]]; simpl.
  - intros _. left. reflexivity.
  - intros H. injection H as <- _. right. left. reflexivity.
  - rewrite <- !app_assoc. intros H. apply app_inv_head in H.
    simpl in H. injection H as <- <- _. right. right.
    exists (rev above). reflexivity.
Qed.

End Icons.

Section IconClaims.

Context (host : Host).

(** C7 (amended).  [resolveIcon] returns no result, and raises no error,
    when the package has no loader and its name is not one of the members
    every object inherits, and when the relative form of the resolved path
    with respect to the loader's directory contains [".."].  With a working
    directory that is absolute and normalised, whatever the loader's
    directory is written like: a result, when there is one, is the
    directory in its resolved form or a path below it; the probe
    ["/icons/<pkg>/../../etc/passwd"] gets no result when the resolved
    directory is neither ["/"] nor ["/etc"] nor ends in ["/etc/passwd"];
    and in each of these three cases the probe gets the path two levels
    above the directory followed by ["etc/passwd"], which is inside the
    directory. *)
Theorem resolveIcon_traversal_safe (this : This) (name url : string) :
  (own_property name (loaders this) = None → inherited name = false →
   resolveIcon host name url this = (Normal None, this))
  ∧ (∀ loader,
       own_property name (loaders this) = Some loader →
       js_includes ".."
         (path.relative (cwd host) (directory loader)
            (path.resolve (cwd host)
               [directory loader;
                js_substring (String.length ("/icons/" +:+ name +:+ "/")) url]))
       = true →
       resolveIcon host name url this = (Normal None, this))
  ∧ (∀ loader cwdSegs,
       own_property name (loaders this) = Some loader →
       cwd host = absolute_path cwdSegs → Forall plain_segment cwdSegs →
       (∀ filePath,
          resolveIcon host name url this = (Normal (Some filePath), this) →
          below (path.resolve (cwd host) [directory loader]) filePath)
       ∧ (resolvedDirectory host loader ≠ [] →
          resolvedDirectory host loader ≠ ["etc"] →
          (∀ above, resolvedDirectory host loader ≠ above ++ ["etc"; "passwd"]) →
          resolveIcon host name (traversalProbe name) this = (Normal None, this))
       ∧ (resolvedDirectory host loader = []
          ∨ resolvedDirectory host loader = ["etc"]
          ∨ (∃ above, resolvedDirectory host loader = above ++ ["etc"; "passwd"]) →
          resolveIcon host name (traversalProbe name) this
          = (Normal
               (Some (absolute_path
                        (two_levels_up (resolvedDirectory host loader)
                         ++ ["etc"; "passwd"]))),
             this))).
Proof.
  split; [|split].
  - intros Hown Hinh. unfold resolveIcon, bind, gets. rewrite Hown, Hinh.
    reflexivity.
  - intros loader Hown Hdots.
    rewrite (resolveIcon_registered host this name url loader Hown).
    cbv zeta. rewrite Hdots. reflexivity.
  - intros loader cwdSegs Hown Hcwd Hc. unfold resolvedDirectory.
    rewrite !(resolveIcon_registered host this name _ loader Hown).
    cbv zeta. rewrite probe_remainder, Hcwd.
    destruct (resolve_directory cwdSegs (directory loader) Hc)
      as (segs & Hplain & Hone & Hthrough).
    rewrite !Hthrough, Hone, segments_absolute_path by exact Hplain.
    assert (Htarget : Forall plain_segment (two_levels_up segs ++ ["etc"; "passwd"])).
    { apply Forall_app. split; [apply two_levels_up_plain, Hplain|].
      apply etc_passwd_plain. }
    rewrite <- Hcwd, probe_resolved by exact Hplain.
    rewrite (relative_directory (cwd host) (directory loader) segs
               (two_levels_up segs ++ ["etc"; "passwd"]) Hplain Htarget)
      by (rewrite Hcwd; exact Hone).
    split; [|split].
    + destruct (resolve_normalised (cwd host) segs
                  (js_substring (String.length ("/icons/" +:+ name +:+ "/")) url)
                  Hplain) as (resolved & Hres & ->).
      rewrite (relative_directory (cwd host) (directory loader) segs resolved
                 Hplain Hres) by (rewrite Hcwd; exact Hone).
      intros filePath.
      destruct (js_includes _ _) eqn:Hdots; [discriminate|].
      intros H. injection H as <-.
      apply relative_without_dotdot in Hdots as [down ->]; [|assumption..].
      exists down. rewrite !segments_absolute_path by assumption.
      split; [reflexivity|]. apply Forall_app in Hres as [_ Hdown]. exact Hdown.
    + intros Hroot Hetc Hpasswd.
      destruct (js_includes _ _) eqn:Hdots; [reflexivity|].
      apply relative_without_dotdot in Hdots as [down Hdown]; [|assumption..].
      apply probe_inside in Hdown as [H|[H|[above H]]]; [congruence..|].
      contradiction (Hpasswd above).
    + intros Hcases. rewrite relative_absolute by assumption.
      destruct Hcases as [->|[->|[above ->]]].
      * reflexivity.
      * reflexivity.
      * replace (two_levels_up (above ++ ["etc"; "passwd"])) with above.
        -- rewrite decide_True by reflexivity. reflexivity.
        -- unfold two_levels_up. rewrite rev_app_distr. simpl.
           symmetry. apply rev_involutive.
Qed.

End IconClaims.

Lemma home_directory_plain : Forall plain_segment ["home"; "node"].
Proof. repeat constructor; try discriminate; reflexivity. Defined.

Lemma resolveIcon_traversal_safe_witness :
  resolveIcon demo_host "n8n-nodes-base" (traversalProbe "n8n-nodes-base")
    base_installed
  = (Normal None, base_installed).
Proof.
  apply (proj1 (proj2 (proj2 (proj2
           (resolveIcon_traversal_safe demo_host base_installed
              "n8n-nodes-base" EmptyString))
           (bare_loader LazyPackageDirectoryLoader "n8n-nodes-base"
              "/usr/lib/node_modules/n8n-nodes-base")
           ["home"; "node"] eq_refl eq_refl home_directory_plain))).
  - vm_compute. discriminate.
  - vm_compute. discriminate.
  - intros above H. apply (f_equal (@rev string)) in H.
    rewrite rev_app_distr in H. vm_compute in H. discriminate.
Defined.

(** C7, counterexample.  For the custom directory [/etc] the probe resolves
    to [/etc/passwd], which lies inside the directory and is returned. *)
Lemma resolveIcon_probe_returns_for_etc :
  resolveIcon demo_host "CUSTOM" (traversalProbe "CUSTOM") custom_in_etc
  = (Normal (Some "/etc/passwd"), custom_in_etc).
Proof. reflexivity. Qed.

(** The directory need not be written in its resolved form: with a
    trailing separator, or relative to the working directory, the custom
    directory [/etc] gives the probe the same file. *)
Example resolveIcon_probe_directory_forms :
  map (λ dir,
         fst (resolveIcon demo_host "CUSTOM" (traversalProbe "CUSTOM")
                (set_loaders
                   (λ _, [("CUSTOM", bare_loader CustomDirectoryLoader "CUSTOM" dir)])
                   (new_LoadNodesAndCredentials None []))))
      ["/etc/"; "../../etc"; "/usr/../etc/."]
  = [Normal (Some "/etc/passwd"); Normal (Some "/etc/passwd");
     Normal (Some "/etc/passwd")].
Proof. reflexivity. Qed.

(** The prefix is cut off by its length, whatever the URL starts with: the
    probe written for a package of another name loses its first
    characters and names a file in the directory. *)
Example resolveIcon_probe_of_other_package :
  resolveIcon demo_host "n8n-nodes-base" (traversalProbe "pkg") base_installed
  = (Normal (Some "/usr/lib/node_modules/n8n-nodes-base/asswd"), base_installed).
Proof. reflexivity. Qed.

(** A package name that [{}] inherits is truthy without being a loader:
    the call throws instead of returning no result. *)
Example resolveIcon_inherited_member :
  fst (resolveIcon demo_host "constructor" "/icons/constructor/x.svg"
         (new_LoadNodesAndCredentials None []))
  = Throw (invalidArgType "paths[0]").
Proof. reflexivity. Qed.

(** Confinement is read off the relative path: a sibling directory whose
    name merely starts like the loader's is refused, although the resolved
    path has the directory as a string prefix. *)
Example resolveIcon_refuses_sibling :
  let this :=
    set_loaders (λ _, [("pkg", bare_loader PackageDirectoryLoader "pkg" "/opt/pkg")])
      (new_LoadNodesAndCredentials None []) in
  path.resolve "/home/node" ["/opt/pkg"; "../pkg-evil/icon.svg"] = "/opt/pkg-evil/icon.svg"
  ∧ String.prefix "/opt/pkg" "/opt/pkg-evil/icon.svg" = true
  ∧ resolveIcon demo_host "pkg" "/icons/pkg/../pkg-evil/icon.svg" this
    = (Normal None, this).
Proof. repeat split. Qed.

(** ** Custom API call options *)

Section Injection.

(** Logging touches nothing but the log. *)
Ltac by_log_induction entries :=
  let this := fresh "this" in
  let IH := fresh "IH" in
  intros this; revert this;
  induction entries as [|? entries IH]; intros this;
  [reflexivity | simpl; rewrite IH; reflexivity].

Lemma registry_log_all (entries : list LogEntry) :
  ∀ this, registry (log_all entries this) = registry this.
Proof. by_log_induction entries. Qed.

Lemma loaders_log_all (entries : list LogEntry) :
  ∀ this, loaders (log_all entries this) = loaders this.
Proof. by_log_induction entries. Qed.

Lemma postProcessors_log_all (entries : list LogEntry) :
  ∀ this, postProcessors (log_all entries this) = postProcessors this.
Proof. by_log_induction entries. Qed.

Lemma log_all_app (entries1 entries2 : list LogEntry) (this : This) :
  log_all (entries1 ++ entries2) this = log_all entries2 (log_all entries1 this).
Proof. unfold log_all. apply foldl_app. Qed.

Lemma set_registry_log_all (f : Registry → Registry) (entries : list LogEntry) :
  ∀ this,
    set_registry f (log_all entries this) = log_all entries (set_registry f this).
Proof. by_log_induction entries. Qed.

Lemma mayProxy_run (description : INodeTypeDescription)
  (credential : INodeCredentialDescription) (this : This) :
  let credentialTypes := types_credentials (registry this) in
  mayProxy description credential this
  = (Normal (proxyCapable credentialTypes (credential_name credential)),
     log_all (unknownCredentialWarnings credentialTypes description [credential])
       this).
Proof.
  unfold mayProxy, bind, gets, logger_warn, modify, ret. simpl.
  unfold proxyCapable.
  destruct (find _ _) as [credType|]; [|reflexivity].
  destruct (credtype_authenticate credType); [reflexivity|].
  destruct (credtype_extends credType) as [parents|];
    [destruct (existsb _ parents)|]; reflexivity.
Qed.

Lemma some_mayProxy (description : INodeTypeDescription)
  (credentials : list INodeCredentialDescription) (this : This) :
  let credentialTypes := types_credentials (registry this) in
  some credentials (mayProxy description) this
  = (Normal (existsb (λ c, proxyCapable credentialTypes (credential_name c))
               credentials),
     log_all (unknownCredentialWarnings credentialTypes description credentials)
       this).
Proof.
  revert this. induction credentials as [|c rest IH]; intros this; [reflexivity|].
  cbv zeta. simpl some. unfold bind at 1. rewrite mayProxy_run. cbv zeta.
  simpl existsb. simpl unknownCredentialWarnings.
  destruct (proxyCapable _ (credential_name c)) eqn:Hc; [reflexivity|].
  rewrite IH. cbv zeta. rewrite registry_log_all. simpl orb.
  destruct (find _ _); [reflexivity|].
  change (?w :: ?ws) with ([w] ++ ws). rewrite log_all_app. reflexivity.
Qed.

Lemma supportsProxyAuth_run (description : INodeTypeDescription) (this : This) :
  let credentialTypes := types_credentials (registry this) in
  supportsProxyAuth description this
  = (Normal (directProxyAuth credentialTypes description),
     log_all (unknownCredentialWarnings credentialTypes description
                (default [] (node_credentials description))) this).
Proof.
  unfold supportsProxyAuth, directProxyAuth.
  destruct (node_credentials description) as [credentials|]; [|reflexivity].
  apply some_mayProxy.
Qed.

End Injection.

Section InjectionLoop.

Lemma lacksCustomApiCall_target (p : INodeProperties) :
  lacksCustomApiCall p
  = match injectionTarget p with
    | Some [] => Throw undefinedNameError
    | Some options => Normal (negb (endsWithCustomApiCall options))
    | None => Normal false
    end.
Proof.
  unfold lacksCustomApiCall, injectionTarget, endsWithCustomApiCall.
  destruct (array_includes ["resource"; "operation"] (property_name p));
    [|reflexivity].
  destruct (property_options p) as [[|o options]|]; [reflexivity| |reflexivity].
  destruct (last (o :: options)) eqn:Hlast; [reflexivity|].
  apply last_None in Hlast. discriminate.
Qed.

Lemma endsWithCustomApiCall_push (options : list INodePropertyOptions) :
  endsWithCustomApiCall (options ++ [customApiCallOption]) = true.
Proof.
  unfold endsWithCustomApiCall. rewrite last_snoc. apply String.eqb_refl.
Qed.

Lemma injectionTarget_push (p : INodeProperties)
  (options : list INodePropertyOptions) :
  injectionTarget p = Some options →
  injectionTarget (pushCustomApiCall p) = Some (options ++ [customApiCallOption]).
Proof.
  unfold injectionTarget.
  change (property_name (pushCustomApiCall p)) with (property_name p).
  change (property_options (pushCustomApiCall p))
    with ((λ options, options ++ [customApiCallOption]) <$> property_options p).
  destruct (array_includes ["resource"; "operation"] (property_name p));
    [|discriminate]. intros ->. reflexivity.
Qed.

(** After the injection a target ends with the custom call option. *)
Lemma withCustomApiCall_target (p : INodeProperties) :
  match injectionTarget (withCustomApiCall p) with
  | Some options => endsWithCustomApiCall options = true
  | None => injectionTarget p = None
  end.
Proof.
  unfold withCustomApiCall.
  destruct (injectionTarget p) as [options|] eqn:Htarget.
  - destruct (endsWithCustomApiCall options) eqn:Hends.
    + rewrite Htarget. exact Hends.
    + rewrite (injectionTarget_push p options Htarget).
      apply endsWithCustomApiCall_push.
  - rewrite Htarget. reflexivity.
Qed.

Lemma withCustomApiCall_idem (p : INodeProperties) :
  withCustomApiCall (withCustomApiCall p) = withCustomApiCall p.
Proof.
  pose proof (withCustomApiCall_target p) as H.
  unfold withCustomApiCall at 1.
  destruct (injectionTarget (withCustomApiCall p)); [rewrite H|]; reflexivity.
Qed.

Lemma withCustomApiCall_not_empty (p : INodeProperties) :
  injectionTarget (withCustomApiCall p) ≠ Some [].
Proof.
  pose proof (withCustomApiCall_target p) as H. intros Hempty.
  rewrite Hempty in H. discriminate.
Qed.

Lemma injectProperties_cases (ps : list INodeProperties) :
  (Forall (λ p, injectionTarget p ≠ Some []) ps ∧
   injectProperties ps = (Normal tt, map withCustomApiCall ps))
  ∨ (Exists (λ p, injectionTarget p = Some []) ps ∧
     ∃ ps', injectProperties ps = (Throw undefinedNameError, ps')).
Proof.
  induction ps as [|p ps IH].
  - left. split; [constructor | reflexivity].
  - simpl. rewrite lacksCustomApiCall_target. unfold withCustomApiCall.
    destruct (injectionTarget p) as [[|o options]|] eqn:Htarget.
    + right. split; [left; exact Htarget | eauto].
    + destruct IH as [[Hall ->]|[Hex (ps' & ->)]].
      * left. split; [constructor; [congruence | exact Hall]|].
        destruct (endsWithCustomApiCall (o :: options)); reflexivity.
      * right. split; [right; exact Hex | eauto].
    + destruct IH as [[Hall ->]|[Hex (ps' & ->)]].
      * left. split; [constructor; [congruence | exact Hall] | reflexivity].
      * right. split; [right; exact Hex | eauto].
Qed.

Lemma injectNode_run (node : INodeTypeDescription) (this : This) :
  let credentialTypes := types_credentials (registry this) in
  injectNode node this
  = (if isLatestVersion node && directProxyAuth credentialTypes node
     then let '(c, ps) := injectProperties (node_properties node) in
          (c, set_properties ps node)
     else (Normal tt, node),
     log_all (if isLatestVersion node
              then unknownCredentialWarnings credentialTypes node
                     (default [] (node_credentials node))
              else []) this).
Proof.
  cbv zeta. unfold injectNode.
  destruct (isLatestVersion node); [|reflexivity].
  rewrite supportsProxyAuth_run. cbv zeta.
  destruct (directProxyAuth _ node); [|reflexivity].
  simpl andb. destruct (injectProperties _). reflexivity.
Qed.

Lemma injectNodes_cases (nodes : list INodeTypeDescription) (this : This) :
  let credentialTypes := types_credentials (registry this) in
  (∃ warnings, snd (injectNodes nodes this) = log_all warnings this) ∧
  ((Forall (λ node, ¬ faulting credentialTypes node) nodes ∧
    fst (injectNodes nodes this)
    = (Normal tt, map (injectedNode credentialTypes) nodes))
   ∨ (Exists (faulting credentialTypes) nodes ∧
      ∃ nodes', fst (injectNodes nodes this) = (Throw undefinedNameError, nodes'))).
Proof.
  cbv zeta. revert this. induction nodes as [|node nodes IH]; intros this.
  - split; [exists []; reflexivity|]. left. split; [constructor | reflexivity].
  - simpl injectNodes. rewrite injectNode_run. cbv zeta.
    set (warnings := if isLatestVersion node then _ else []).
    specialize (IH (log_all warnings this)). rewrite registry_log_all in IH.
    destruct IH as [[warnings' Hstate] IH].
    destruct (isLatestVersion node && directProxyAuth _ node) eqn:Hproc.
    + apply andb_prop in Hproc as [Hlatest Hproxy].
      destruct (injectProperties_cases (node_properties node))
        as [[Hall Heq]|[Hex (ps' & Heq)]]; rewrite Heq.
      * destruct (injectNodes nodes (log_all warnings this))
          as [[c nodes'] this'] eqn:Hrest.
        cbn [fst snd] in Hstate, IH |- *. split.
        { exists (warnings ++ warnings'). rewrite log_all_app. exact Hstate. }
        destruct IH as [[Hnone Heq']|[Hsome (nodes'' & Heq')]].
        -- left. injection Heq' as -> ->. split.
           ++ constructor; [|exact Hnone]. intros (_ & _ & p & Hin & Hp).
              rewrite Forall_forall in Hall. exact (Hall p Hin Hp).
           ++ cbn [map]. f_equal. f_equal. unfold injectedNode.
              rewrite Hlatest, Hproxy. reflexivity.
        -- right. injection Heq' as -> ->. split; [right; exact Hsome | eauto].
      * cbn [fst snd]. split; [exists warnings; reflexivity|].
        right. split; [|eauto].
        left. split; [exact Hlatest|]. split; [exact Hproxy|].
        apply Exists_exists in Hex. exact Hex.
    + destruct (injectNodes nodes (log_all warnings this))
        as [[c nodes'] this'] eqn:Hrest.
      cbn [fst snd] in Hstate, IH |- *. split.
      { exists (warnings ++ warnings'). rewrite log_all_app. exact Hstate. }
      destruct IH as [[Hnone Heq']|[Hsome (nodes'' & Heq')]].
      * left. injection Heq' as -> ->. split.
        -- constructor; [|exact Hnone]. intros (Hlatest & Hproxy & _).
           rewrite Hlatest, Hproxy in Hproc. discriminate.
        -- cbn [map]. f_equal. f_equal. unfold injectedNode.
           rewrite Hproc. reflexivity.
      * right. injection Heq' as -> ->. split; [right; exact Hsome | eauto].
Qed.

End InjectionLoop.

Section InjectionClaims.

Lemma injectCustomApiCallOptions_run (this : This) :
  injectCustomApiCallOptions this
  = (fst (fst (injectNodes (types_nodes (registry this)) this)),
     set_registry
       (set_types_nodes
          (λ _, snd (fst (injectNodes (types_nodes (registry this)) this))))
       (snd (injectNodes (types_nodes (registry this)) this))).
Proof.
  unfold injectCustomApiCallOptions.
  destruct (injectNodes _ this) as [[c nodes] this']. reflexivity.
Qed.

Lemma injectionTarget_empty (p : INodeProperties) :
  injectionTarget p = Some [] ↔
  array_includes ["resource"; "operation"] (property_name p) = true ∧
  property_options p = Some [].
Proof.
  unfold injectionTarget.
  destruct (array_includes ["resource"; "operation"] (property_name p)).
  - split; [intros H; split; [reflexivity | exact H] | intros [_ H]; exact H].
  - split; [discriminate | intros [H _]; discriminate].
Qed.

Lemma array_includes_elem_of (names : list string) (x : string) :
  array_includes names x = true ↔ x ∈ names.
Proof.
  unfold array_includes. rewrite existsb_exists. split.
  - intros (y & Hin & Heq). apply String.eqb_eq in Heq as ->.
    apply list_elem_of_In. exact Hin.
  - intros Hin. exists x. split; [apply list_elem_of_In, Hin | apply String.eqb_refl].
Qed.

Lemma directProxyAuth_true (credentialTypes : list ICredentialType)
  (description : INodeTypeDescription) :
  directProxyAuth credentialTypes description = true ↔
  ∃ credentials credential credType,
    node_credentials description = Some credentials ∧
    credential ∈ credentials ∧
    find (λ t, String.eqb (credtype_name t) (credential_name credential))
      credentialTypes = Some credType ∧
    (is_Some (credtype_authenticate credType) ∨
     ∃ parents parent,
       credtype_extends credType = Some parents ∧
       parent ∈ parents ∧ parent ∈ proxyAuthParents).
Proof.
  unfold directProxyAuth. destruct (node_credentials description) as [credentials|].
  - rewrite existsb_exists. split.
    + intros (credential & Hin & Hcap). unfold proxyCapable in Hcap.
      destruct (find _ credentialTypes) as [credType|] eqn:Hfind; [|discriminate].
      exists credentials, credential, credType.
      split; [reflexivity|]. split; [apply list_elem_of_In, Hin|].
      split; [exact Hfind|].
      destruct (credtype_authenticate credType) as [a|]; [left; eauto|]. right.
      destruct (credtype_extends credType) as [parents|]; [|discriminate].
      apply existsb_exists in Hcap as (parent & Hparent & Hallowed).
      exists parents, parent. split; [reflexivity|].
      split; [apply list_elem_of_In, Hparent|].
      apply array_includes_elem_of, Hallowed.
    + intros (credentials' & credential & credType & Hcreds & Hin & Hfind & Hcap).
      injection Hcreds as <-. exists credential.
      split; [apply list_elem_of_In, Hin|]. unfold proxyCapable. rewrite Hfind.
      destruct Hcap as [[a ->]|(parents & parent & -> & Hparent & Hallowed)];
        [reflexivity|].
      destruct (credtype_authenticate credType); [reflexivity|].
      apply existsb_exists. exists parent.
      split; [apply list_elem_of_In, Hparent|].
      apply array_includes_elem_of, Hallowed.
  - split; [discriminate|]. intros (? & ? & ? & H & _). discriminate.
Qed.

(** C1 (amended).  [supportsProxyAuth] never throws; it answers true exactly
    when one of the node's credential names resolves, in the aggregate
    credential list, to a type that has [authenticate] or lists one of
    [oAuth2Api], [googleOAuth2Api], [oAuth1Api] in its own [extends]; parents
    are not looked up.  It logs one warning for every credential name it
    cannot resolve before it meets a proxy-capable one, and a node for
    which it answers false is left as it is by the injection. *)
Theorem supportsProxyAuth_direct (description : INodeTypeDescription)
  (this : This) :
  let credentialTypes := types_credentials (registry this) in
  supportsProxyAuth description this
  = (Normal (directProxyAuth credentialTypes description),
     log_all (unknownCredentialWarnings credentialTypes description
                (default [] (node_credentials description))) this)
  ∧ (directProxyAuth credentialTypes description = true ↔
     ∃ credentials credential credType,
       node_credentials description = Some credentials ∧
       credential ∈ credentials ∧
       find (λ t, String.eqb (credtype_name t) (credential_name credential))
         credentialTypes = Some credType ∧
       (is_Some (credtype_authenticate credType) ∨
        ∃ parents parent,
          credtype_extends credType = Some parents ∧
          parent ∈ parents ∧ parent ∈ proxyAuthParents))
  ∧ (directProxyAuth credentialTypes description = false →
     fst (injectNode description this) = (Normal tt, description)).
Proof.
  cbv zeta. split; [apply supportsProxyAuth_run|].
  split; [apply directProxyAuth_true|].
  intros Hno. rewrite injectNode_run. cbv zeta. rewrite Hno, andb_false_r.
  reflexivity.
Qed.

(** C10.  The injection throws exactly when some latest-version node that
    supports proxy auth has a parameter named [resource] or [operation]
    whose options array is empty: the last element read is [undefined], and
    the error is the [TypeError] of reading its [name]. *)
Theorem injection_faults_on_empty_options (this : This) :
  (∃ e, fst (injectCustomApiCallOptions this) = Throw e) ↔
  ∃ node p,
    node ∈ types_nodes (registry this) ∧
    isLatestVersion node = true ∧
    fst (supportsProxyAuth node this) = Normal true ∧
    p ∈ node_properties node ∧
    array_includes ["resource"; "operation"] (property_name p) = true ∧
    property_options p = Some [].
Proof.
  rewrite injectCustomApiCallOptions_run. cbn [fst].
  destruct (injectNodes_cases (types_nodes (registry this)) this)
    as [_ [[Hnone Heq]|[Hsome (nodes' & Heq)]]]; rewrite Heq; cbn [fst].
  - split; [intros [e He]; discriminate|].
    intros (node & p & Hin & Hlatest & Hproxy & Hp & Hname & Hempty).
    exfalso. rewrite Forall_forall in Hnone. apply (Hnone node Hin).
    rewrite supportsProxyAuth_run in Hproxy. cbn [fst] in Hproxy.
    injection Hproxy as Hproxy.
    split; [exact Hlatest|]. split; [exact Hproxy|]. exists p.
    split; [exact Hp|]. apply injectionTarget_empty. split; assumption.
  - split; [|intros _; eauto]. intros _.
    apply Exists_exists in Hsome
      as (node & Hin & Hlatest & Hproxy & p & Hp & Hempty).
    apply injectionTarget_empty in Hempty as [Hname Hempty].
    exists node, p. rewrite supportsProxyAuth_run. cbn [fst]. rewrite Hproxy.
    repeat split; assumption.
Qed.

(** The error is the one of reading [name] on [undefined], and what the
    loop did before it stays: the [resource] parameter of the faulting node
    has its new option, the [operation] parameter stopped the loop. *)
Example injection_fault_is_TypeError :
  let this := with_types [gmail_node; empty_options_node] microsoft_credentials in
  fst (injectCustomApiCallOptions this) = Throw undefinedNameError
  ∧ types_nodes (registry (snd (injectCustomApiCallOptions this)))
    = [ injectedNode microsoft_credentials gmail_node;
        set_properties
          [ {| property_name := "resource";
               property_options :=
                 Some [one_option "message"; customApiCallOption] |};
            {| property_name := "operation"; property_options := Some [] |} ]
          empty_options_node ].
Proof. split; reflexivity. Qed.

Lemma injectCustomApiCallOptions_normal (this this' : This) :
  injectCustomApiCallOptions this = (Normal tt, this') →
  registry this'
  = set_types_nodes (map (injectedNode (types_credentials (registry this))))
      (registry this).
Proof.
  intros Hrun. rewrite injectCustomApiCallOptions_run in Hrun.
  destruct (injectNodes_cases (types_nodes (registry this)) this)
    as [[warnings Hstate] [[Hnone Heq]|[Hsome (nodes' & Heq)]]];
    rewrite Heq, Hstate in Hrun; cbn [fst snd] in Hrun; [|discriminate].
  injection Hrun as <-. cbn [registry set_registry].
  rewrite registry_log_all. reflexivity.
Qed.



(** The injection finds nothing to add when run on its own result. *)
Lemma injectedNode_idem (credentialTypes : list ICredentialType)
  (node : INodeTypeDescription) :
  injectedNode credentialTypes (injectedNode credentialTypes node)
  = injectedNode credentialTypes node.
Proof.
  unfold injectedNode at 2.
  destruct (isLatestVersion node && directProxyAuth credentialTypes node) eqn:Hproc.
  - unfold injectedNode.
    change (isLatestVersion (set_properties ?ps node)) with (isLatestVersion node).
    change (directProxyAuth credentialTypes (set_properties ?ps node))
      with (directProxyAuth credentialTypes node).
    rewrite Hproc. cbn [node_properties set_properties].
    rewrite <- list_fmap_compose. unfold set_properties. f_equal.
    apply list_fmap_ext. intros _ p _. apply withCustomApiCall_idem.
  - unfold injectedNode. rewrite Hproc. reflexivity.
Qed.

Lemma injectedNode_not_faulting (credentialTypes : list ICredentialType)
  (node : INodeTypeDescription) :
  ¬ faulting credentialTypes (injectedNode credentialTypes node).
Proof.
  intros (Hlatest & Hproxy & p & Hp & Hempty). unfold injectedNode in *.
  destruct (isLatestVersion node && directProxyAuth credentialTypes node) eqn:Hproc.
  - cbn [node_properties set_properties] in Hp.
    apply list_elem_of_fmap in Hp as (p0 & -> & _).
    exact (withCustomApiCall_not_empty p0 Hempty).
  - rewrite Hlatest, Hproxy in Hproc. discriminate.
Qed.

Lemma injectCustomApiCallOptions_idem (this this1 : This) :
  injectCustomApiCallOptions this = (Normal tt, this1) →
  ∃ this2, injectCustomApiCallOptions this1 = (Normal tt, this2) ∧
           registry this2 = registry this1.
Proof.
  intros Hrun.
  pose proof (injectCustomApiCallOptions_normal this this1 Hrun) as Hreg.
  rewrite injectCustomApiCallOptions_run.
  destruct (injectNodes_cases (types_nodes (registry this1)) this1)
    as [[warnings Hstate] [[Hnone Heq]|[Hsome (nodes' & Heq)]]].
  - rewrite Heq, Hstate. cbn [fst snd]. eexists. split; [reflexivity|].
    cbn [registry set_registry]. rewrite registry_log_all, Hreg.
    cbn [types_nodes types_credentials set_types_nodes].
    unfold set_types_nodes. cbn. f_equal.
    rewrite <- list_fmap_compose. apply list_fmap_ext.
    intros _ node _. apply injectedNode_idem.
  - exfalso. apply Exists_exists in Hsome as (node & Hin & Hfault).
    rewrite Hreg in Hin, Hfault.
    cbn [types_nodes types_credentials set_types_nodes] in Hin, Hfault.
    apply list_elem_of_fmap in Hin as (node0 & -> & _).
    exact (injectedNode_not_faulting _ _ Hfault).
Qed.

End InjectionClaims.

Lemma supportsProxyAuth_direct_witness :
  supportsProxyAuth gmail_node (with_types [gmail_node] microsoft_credentials)
  = (Normal true,
     log (unknownCredentialWarning gmail_node "googleApi")
       (with_types [gmail_node] microsoft_credentials)).
Proof.
  exact (proj1 (supportsProxyAuth_direct gmail_node
                  (with_types [gmail_node] microsoft_credentials))).
Defined.

(** C1, counterexample.  The Outlook credential reaches [oAuth2Api] through
    [microsoftOAuth2Api]: followed through the aggregate list the chain ends
    in a proxy parent, yet [supportsProxyAuth] answers false, logs nothing,
    and the injection leaves the node without the option. *)
Lemma supportsProxyAuth_not_transitive :
  let this := with_types [outlook_node] microsoft_credentials in
  transitiveProxyAuth microsoft_credentials outlook_node = true
  ∧ supportsProxyAuth outlook_node this = (Normal false, this)
  ∧ injectCustomApiCallOptions this = (Normal tt, this).
Proof. repeat split. Qed.



Example injection_on_gmail :
  node_properties (injectedNode microsoft_credentials gmail_node)
  = [ {| property_name := "resource";
         property_options :=
           Some [one_option "message"; one_option "label"; customApiCallOption] |};
      {| property_name := "limit"; property_options := None |} ].
Proof. reflexivity. Qed.

(** ** AI tools *)

Section AiTools.

Context (host : Host).

Lemma set_registry_id (this : This) : set_registry (λ r, r) this = this.
Proof. destruct this. reflexivity. Qed.

(** A loop whose body only rewrites the registry. *)
Lemma forEach_set_registry {A} (xs : list A) (body : A → M unit)
  (F : A → Registry → Registry) (this : This) :
  (∀ x this', body x this' = (Normal tt, set_registry (F x) this')) →
  forEach xs body this
  = (Normal tt, set_registry (λ r, foldl (λ r' x, F x r') r xs) this).
Proof.
  intros Hbody. revert this. induction xs as [|x xs IH]; intros this.
  - simpl. rewrite set_registry_id. reflexivity.
  - simpl forEach. unfold bind. rewrite Hbody, IH. reflexivity.
Qed.

Lemma foldl_set_known_credentials {A}
  (g : A → gmap string CredentialLoadingDetails → gmap string CredentialLoadingDetails)
  (xs : list A) (r : Registry) :
  foldl (λ r' x, set_known_credentials (g x) r') r xs
  = set_known_credentials (λ m, foldl (λ m' x, g x m') m xs) r.
Proof.
  revert r. induction xs as [|x xs IH]; intros r.
  - destruct r. reflexivity.
  - simpl. rewrite IH. reflexivity.
Qed.

Lemma createAiTool_run (usableNode : INodeTypeDescription) (this : This) :
  createAiTool host usableNode this
  = (Normal tt, set_registry (aiToolAdded host usableNode) this).
Proof.
  unfold createAiTool, bind, modify, gets, structuredClone.
  rewrite (forEach_set_registry _ _
             (λ name, set_known_credentials
                        (alter (pushSupportedNode
                                  (node_name (convertNodeToAiTool host usableNode)))
                               name)))
    by reflexivity.
  f_equal. unfold set_registry. cbn [registry loaders excludeNodes includeNodes
    postProcessors logger reported]. f_equal.
  rewrite foldl_set_known_credentials. reflexivity.
Qed.

Lemma createAiTools_run (this : This) :
  createAiTools host this = (Normal tt, set_registry (aiToolsAdded host) this).
Proof.
  unfold createAiTools, bind, gets.
  rewrite (forEach_set_registry _ _ (aiToolAdded host))
    by (intros; apply createAiTool_run).
  reflexivity.
Qed.

Lemma aiTools_fold (usable : list INodeTypeDescription) (r : Registry) :
  let r' := foldl (λ r' usableNode, aiToolAdded host usableNode r') r usable in
  types_nodes r' = types_nodes r ++ map (convertNodeToAiTool host) usable
  ∧ types_credentials r' = types_credentials r
  ∧ loaded_nodes r' = loaded_nodes r
  ∧ loaded_credentials r' = loaded_credentials r
  ∧ (∀ name, is_Some (known_nodes r !! name) → is_Some (known_nodes r' !! name))
  ∧ (∀ name, is_Some (known_credentials r !! name) →
             is_Some (known_credentials r' !! name)).
Proof.
  cbv zeta. revert r. induction usable as [|u usable IH]; intros r.
  - simpl. rewrite app_nil_r. repeat split; auto.
  - simpl foldl. destruct (IH (aiToolAdded host u r)) as (H1 & H2 & H3 & H4 & H5 & H6).
    rewrite H1, H2, H3, H4. cbn [types_nodes types_credentials loaded_nodes
      loaded_credentials aiToolAdded map]. rewrite <- app_assoc.
    repeat split; try reflexivity.
    + intros name Hname. apply H5. cbn [known_nodes aiToolAdded].
      apply lookup_insert_is_Some'. right. exact Hname.
    + intros name Hname. apply H6. cbn [known_credentials aiToolAdded].
      generalize (map fst (filter (λ entry, supports (node_name u) entry.2 = true)
                             (map_to_list (known_credentials r)))).
      intros names. revert Hname. generalize (known_credentials r).
      induction names as [|n names IHn]; intros m Hm; [exact Hm|].
      simpl. apply IHn. apply lookup_alter_is_Some. exact Hm.
Qed.

Lemma aiToolsAdded_types_nodes (r : Registry) :
  types_nodes (aiToolsAdded host r)
  = types_nodes r
    ++ map (convertNodeToAiTool host) (usableAsTool (types_nodes r)).
Proof. apply (aiTools_fold (usableAsTool (types_nodes r)) r). Qed.

Lemma aiToolsAdded_types_credentials (r : Registry) :
  types_credentials (aiToolsAdded host r) = types_credentials r.
Proof. apply (aiTools_fold (usableAsTool (types_nodes r)) r). Qed.

Lemma usableAsTool_injected (credentialTypes : list ICredentialType)
  (nodes : list INodeTypeDescription) :
  usableAsTool (map (injectedNode credentialTypes) nodes)
  = map (injectedNode credentialTypes) (usableAsTool nodes).
Proof.
  unfold usableAsTool. induction nodes as [|node nodes IH]; [reflexivity|].
  cbn [map].
  assert (Hflag : node_usableAsTool (injectedNode credentialTypes node)
                  = node_usableAsTool node).
  { unfold injectedNode. destruct (_ && _); reflexivity. }
  destruct (decide (node_usableAsTool node = Some true)) as [Hyes|Hno].
  - rewrite !filter_cons_True by congruence. cbn [map]. rewrite IH. reflexivity.
  - rewrite !filter_cons_False by congruence. exact IH.
Qed.

Lemma derivationPass_run (this this1 : This) :
  derivationPass host this = (Normal tt, this1) →
  let credentialTypes := types_credentials (registry this) in
  types_credentials (registry this1) = credentialTypes ∧
  types_nodes (registry this1)
  = map (injectedNode credentialTypes)
      (types_nodes (registry this)
       ++ map (convertNodeToAiTool host) (usableAsTool (types_nodes (registry this)))).
Proof.
  unfold derivationPass, bind. rewrite createAiTools_run. intros Hinject.
  apply injectCustomApiCallOptions_normal in Hinject as Hreg. cbv zeta in *.
  rewrite Hreg. cbn [registry set_registry types_nodes types_credentials
    set_types_nodes]. rewrite aiToolsAdded_types_credentials.
  split; [reflexivity|]. rewrite aiToolsAdded_types_nodes. reflexivity.
Qed.

(** A second pass keeps what the first produced and appends again. *)
Lemma derivationPass_second (this this1 this2 : This) :
  derivationPass host this = (Normal tt, this1) →
  derivationPass host this1 = (Normal tt, this2) →
  ∃ again,
    types_nodes (registry this2) = types_nodes (registry this1) ++ again
    ∧ length again = length (usableAsTool (types_nodes (registry this1)))
    ∧ (length (usableAsTool (types_nodes (registry this))) ≤ length again)%nat.
Proof.
  intros Hfirst Hsecond.
  apply derivationPass_run in Hfirst as [Hcreds Hnodes].
  apply derivationPass_run in Hsecond as [_ Hnodes2]. cbv zeta in *.
  rewrite Hcreds in Hnodes2.
  set (credentialTypes := types_credentials (registry this)) in *.
  exists (map (injectedNode credentialTypes)
            (map (convertNodeToAiTool host)
               (usableAsTool (types_nodes (registry this1))))).
  split; [|split].
  - rewrite Hnodes2, map_app. f_equal. rewrite Hnodes at 1 2.
    rewrite <- list_fmap_compose. apply list_fmap_ext.
    intros _ node _. apply injectedNode_idem.
  - rewrite !length_map. reflexivity.
  - rewrite !length_map, Hnodes, usableAsTool_injected, length_map.
    unfold usableAsTool at 2. rewrite filter_app, length_app.
    fold (usableAsTool (types_nodes (registry this))). lia.
Qed.

(** C2 (amended).  Injection is idempotent: run on its own result it
    completes and changes nothing in the registry.  Tool derivation is not:
    every run of [createAiTools] appends one converted copy of each node
    flagged [usableAsTool], whether or not such a copy is there already.  So
    a second derivation pass leaves the descriptions of the first as they
    are, with no second custom call option, and appends one more entry for
    every flagged description, at least as many as the first pass did. *)
Theorem derivationPass_twice :
  (∀ this this1,
     injectCustomApiCallOptions this = (Normal tt, this1) →
     ∃ this2, injectCustomApiCallOptions this1 = (Normal tt, this2) ∧
              registry this2 = registry this1)
  ∧ (∀ this,
       ∃ this1, createAiTools host this = (Normal tt, this1) ∧
         types_nodes (registry this1)
         = types_nodes (registry this)
           ++ map (convertNodeToAiTool host)
                (usableAsTool (types_nodes (registry this))))
  ∧ (∀ this this1 this2,
       derivationPass host this = (Normal tt, this1) →
       derivationPass host this1 = (Normal tt, this2) →
       ∃ again,
         types_nodes (registry this2) = types_nodes (registry this1) ++ again
         ∧ length again = length (usableAsTool (types_nodes (registry this1)))
         ∧ (length (usableAsTool (types_nodes (registry this))) ≤ length again)%nat).
Proof.
  split; [exact injectCustomApiCallOptions_idem|]. split.
  - intros this. eexists. split; [apply createAiTools_run|].
    cbn [registry set_registry]. apply aiToolsAdded_types_nodes.
  - exact derivationPass_second.
Qed.

End AiTools.

(** C2, counterexample.  A second derivation pass over the Gmail instance
    appends the tool variant again and lists it again among the nodes the
    credential supports; whatever the conversion, the second pass does not
    give back the registry of the first. *)
Lemma derivationPass_not_idempotent :
  let once := snd (derivationPass demo_host gmail_instance) in
  let twice := snd (derivationPass demo_host once) in
  fst (derivationPass demo_host gmail_instance) = Normal tt
  ∧ fst (derivationPass demo_host once) = Normal tt
  ∧ map node_name (types_nodes (registry once))
    = ["n8n-nodes-base.gmail"; "n8n-nodes-base.gmailTool"]
  ∧ map node_name (types_nodes (registry twice))
    = ["n8n-nodes-base.gmail"; "n8n-nodes-base.gmailTool";
       "n8n-nodes-base.gmailTool"]
  ∧ supportedNodes <$> known_credentials (registry once) !! "gmailOAuth2"
    = Some (Some ["n8n-nodes-base.gmail"; "n8n-nodes-base.gmailTool"])
  ∧ supportedNodes <$> known_credentials (registry twice) !! "gmailOAuth2"
    = Some (Some ["n8n-nodes-base.gmail"; "n8n-nodes-base.gmailTool";
                  "n8n-nodes-base.gmailTool"])
  ∧ registry twice ≠ registry once
  ∧ (∀ host this1 this2,
       derivationPass host gmail_instance = (Normal tt, this1) →
       derivationPass host this1 = (Normal tt, this2) →
       registry this2 ≠ registry this1).
Proof.
  cbv zeta. do 6 (split; [vm_compute; reflexivity|]). split.
  - intros H. apply (f_equal (λ r, length (types_nodes r))) in H.
    vm_compute in H. discriminate.
  - intros host this1 this2 Hfirst Hsecond Heq.
    destruct (derivationPass_second host _ _ _ Hfirst Hsecond)
      as (again & Hnodes & _ & Hlen).
    rewrite Heq in Hnodes. apply (f_equal length) in Hnodes.
    rewrite length_app in Hnodes.
    change (length (usableAsTool (types_nodes (registry gmail_instance))))
      with 1%nat in Hlen.
    lia.
Qed.

(** ** Registering loaders *)

Section LoaderRegistry.

Context (host : Host).

Lemma own_property_js_in {V} (key : string) (o : JSObject V) (v : V) :
  own_property key o = Some v → js_in key o = true.
Proof. unfold js_in. intros ->. reflexivity. Qed.

Lemma runDirectoryLoader_duplicate (this : This) (constructor : LoaderClass)
  (dir : string) (loader : DirectoryLoader) :
  new_loader host constructor dir (excludeNodes this) (includeNodes this)
  = Normal loader →
  js_in (packageName loader) (loaders this) = true →
  runDirectoryLoader host constructor dir this
  = (Throw (duplicatePackage (packageName loader) dir), this).
Proof.
  intros Hnew Hin. unfold runDirectoryLoader, bind, gets, lift, throw.
  rewrite Hnew, Hin. reflexivity.
Qed.

Lemma loadInstalledPackage_completes (nodeModulesDir packagePath : string)
  (this : This) :
  fst (loadInstalledPackage host nodeModulesDir packagePath this) = Normal tt.
Proof.
  unfold loadInstalledPackage, try_catch, bind.
  destruct (runDirectoryLoader host _ _ this) as [[loader|e] this']; reflexivity.
Qed.

Lemma forEach_completes {A} (xs : list A) (body : A → M unit) (this : This) :
  (∀ x this', fst (body x this') = Normal tt) →
  fst (forEach xs body this) = Normal tt.
Proof.
  intros Hbody. revert this. induction xs as [|x xs IH]; intros this; [reflexivity|].
  simpl. unfold bind. specialize (Hbody x this).
  destruct (body x this) as [[[]|e] this']; [apply IH | discriminate].
Qed.

(** A scan of a [node_modules] folder never throws. *)
Lemma loadNodesFromNodeModules_completes (nodeModulesDir : string)
  (name : option string) (this : This) :
  fst (loadNodesFromNodeModules host nodeModulesDir name this) = Normal tt.
Proof.
  unfold loadNodesFromNodeModules. apply forEach_completes.
  intros. apply loadInstalledPackage_completes.
Qed.

(** C3 (amended).  Registering a loader for a package name that already has
    one fails with the duplicate-package error and changes nothing: the
    name keeps the loader it had.  The error propagates out of
    [runDirectoryLoader], hence out of [loadPackage] and of the loading of
    custom directories; in a scan of a [node_modules] folder it is caught,
    logged and reported, and the scan, which never throws, goes on. *)
Theorem duplicate_package_rejected (this : This) (constructor : LoaderClass)
  (dir : string) (loader prior : DirectoryLoader) :
  new_loader host constructor dir (excludeNodes this) (includeNodes this)
  = Normal loader →
  own_property (packageName loader) (loaders this) = Some prior →
  runDirectoryLoader host constructor dir this
  = (Throw (duplicatePackage (packageName loader) dir), this)
  ∧ (∀ name, constructor = PackageDirectoryLoader →
       dir = path.join [nodesDownloadDir host; "node_modules"; name] →
       loadPackage host name this
       = (Throw (duplicatePackage (packageName loader) dir), this))
  ∧ (constructor = CustomDirectoryLoader → dir = customExtensionDir host →
     loadNodesFromCustomDirectories host this
     = (Throw (duplicatePackage (packageName loader) dir), this))
  ∧ (∀ nodeModulesDir packagePath,
       constructor = LazyPackageDirectoryLoader →
       dir = path.join [nodeModulesDir; packagePath] →
       ∃ this',
         loadInstalledPackage host nodeModulesDir packagePath this
         = (Normal tt, this')
         ∧ loaders this' = loaders this
         ∧ registry this' = registry this
         ∧ logger this'
           = logger this
             ++ [LogError (error_message (duplicatePackage (packageName loader) dir))]
         ∧ reported this'
           = reported this ++ [duplicatePackage (packageName loader) dir])
  ∧ (∀ nodeModulesDir name this',
       fst (loadNodesFromNodeModules host nodeModulesDir name this') = Normal tt).
Proof.
  intros Hnew Hown.
  pose proof (runDirectoryLoader_duplicate this constructor dir loader Hnew
                (own_property_js_in _ _ _ Hown)) as Hrun.
  split; [exact Hrun|]. split; [|split; [|split]].
  - intros name -> ->. exact Hrun.
  - intros -> ->. unfold loadNodesFromCustomDirectories, getCustomDirectories.
    cbn [forEach]. rewrite bind_run, bind_run, Hrun. reflexivity.
  - intros nodeModulesDir packagePath -> ->. eexists.
    unfold loadInstalledPackage, try_catch, bind at 1. rewrite Hrun.
    split; [reflexivity|]. repeat split.
  - intros. apply loadNodesFromNodeModules_completes.
Qed.

End LoaderRegistry.

Lemma duplicate_package_rejected_witness :
  runDirectoryLoader demo_host LazyPackageDirectoryLoader
    "/usr/lib/node_modules/n8n/node_modules/n8n-nodes-base" base_installed
  = (Throw (duplicatePackage "n8n-nodes-base"
              "/usr/lib/node_modules/n8n/node_modules/n8n-nodes-base"),
     base_installed).
Proof.
  exact (proj1 (duplicate_package_rejected demo_host base_installed
                  LazyPackageDirectoryLoader
                  "/usr/lib/node_modules/n8n/node_modules/n8n-nodes-base"
                  (bare_loader LazyPackageDirectoryLoader "n8n-nodes-base"
                     "/usr/lib/node_modules/n8n/node_modules/n8n-nodes-base")
                  (bare_loader LazyPackageDirectoryLoader "n8n-nodes-base"
                     "/usr/lib/node_modules/n8n-nodes-base")
                  eq_refl eq_refl)).
Defined.

(** C3, counterexample.  With [n8n-nodes-base] present under both base
    paths, [init] meets the second copy, logs and reports the duplicate, and
    completes: the first loader stays, the custom directory is loaded and
    the registry is rebuilt. *)
Lemma init_survives_duplicate :
  let this := snd (init demo_host (new_LoadNodesAndCredentials None [])) in
  fst (init demo_host (new_LoadNodesAndCredentials None [])) = Normal tt
  ∧ logger this
    = [LogError (error_message
         (duplicatePackage "n8n-nodes-base"
            "/usr/lib/node_modules/n8n/node_modules/n8n-nodes-base"))]
  ∧ reported this
    = [duplicatePackage "n8n-nodes-base"
         "/usr/lib/node_modules/n8n/node_modules/n8n-nodes-base"]
  ∧ map (λ entry, (fst entry, directory (snd entry))) (loaders this)
    = [("n8n-nodes-base", "/usr/lib/node_modules/n8n-nodes-base");
       ("CUSTOM", "/home/node/.n8n/custom")].
Proof. cbv zeta. repeat split; vm_compute; reflexivity. Qed.

(** ** Rebuilding the registry *)

Section Merge.

Lemma for_in_assign_union {A B} (value : A → B) (source : gmap string A)
  (target : gmap string B) :
  for_in_assign value source target = (value <$> source) ∪ target.
Proof.
  unfold for_in_assign.
  apply (map_fold_weak_ind
           (λ result (m : gmap string A), result = (value <$> m) ∪ target)).
  - rewrite fmap_empty, (left_id_L ∅ (∪)). reflexivity.
  - intros key a m result _ ->. rewrite fmap_insert, insert_union_l. reflexivity.
Qed.

Lemma mergeLoader_run (loader : DirectoryLoader) (this : This) :
  mergeLoader loader this = (Normal tt, set_registry (loaderMerged loader) this).
Proof. reflexivity. Qed.

(** Folding the loop body over the loaders, field by field. *)
Lemma loadersMerged (ls : list DirectoryLoader) (r : Registry) :
  foldl (λ r' loader, loaderMerged loader r') r ls
  = {| known_nodes :=
         foldl (λ agg loader,
                  (qualifyNode loader <$> loader_known_nodes loader) ∪ agg)
           (known_nodes r) ls;
       known_credentials :=
         foldl (λ agg loader,
                  (qualifyCredential loader <$> loader_known_credentials loader) ∪ agg)
           (known_credentials r) ls;
       loaded_nodes := foldl (λ agg loader, nodeTypes loader ∪ agg) (loaded_nodes r) ls;
       loaded_credentials :=
         foldl (λ agg loader, credentialTypes loader ∪ agg) (loaded_credentials r) ls;
       types_nodes := types_nodes r ++ concat (map loader_types_nodes ls);
       types_credentials :=
         types_credentials r ++ concat (map loader_types_credentials ls) |}.
Proof.
  revert r. induction ls as [|loader ls IH]; intros r.
  - destruct r. simpl. rewrite !app_nil_r. reflexivity.
  - simpl foldl. rewrite IH.
    cbn [known_nodes known_credentials loaded_nodes loaded_credentials
         types_nodes types_credentials loaderMerged map concat].
    rewrite !for_in_assign_union, !map_fmap_id, <- !app_assoc. reflexivity.
Qed.

Lemma mergePhase_run (this : This) :
  mergePhase this
  = (Normal tt,
     set_registry (λ _, mergedRegistry (Object_values (loaders this))) this).
Proof.
  unfold mergePhase, clearKnown, clearLoaded, clearTypes, bind, modify, gets.
  rewrite (forEach_set_registry _ _ loaderMerged) by (intros; apply mergeLoader_run).
  f_equal. unfold set_registry. cbn [registry loaders excludeNodes includeNodes
    postProcessors logger reported]. f_equal.
  rewrite loadersMerged. reflexivity.
Qed.

Context {B : Type} (entries : DirectoryLoader → gmap string B).



Lemma merged_lookup_is_Some (ls : list DirectoryLoader) (agg : gmap string B)
  (key : string) :
  is_Some (foldl (λ agg' loader, entries loader ∪ agg') agg ls !! key) ↔
  is_Some (agg !! key) ∨ ∃ loader, loader ∈ ls ∧ is_Some (entries loader !! key).
Proof.
  revert agg. induction ls as [|loader ls IH]; intros agg.
  - simpl. split; [auto|]. intros [H|(l & Hl & _)]; [exact H|].
    apply elem_of_nil in Hl. contradiction.
  - simpl. rewrite IH, lookup_union_is_Some. split.
    + intros [[H|H]|(l & Hl & H)].
      * right. exists loader. split; [left | exact H].
      * left. exact H.
      * right. exists l. split; [right; exact Hl | exact H].
    + intros [H|(l & Hl & H)]; [left; right; exact H|].
      apply elem_of_cons in Hl as [->|Hl].
      * left. left. exact H.
      * right. exists l. split; assumption.
Qed.

End Merge.

Section Rebuild.

Context (host : Host).

Lemma forEach_await (hooks : list PostProcessor) (this : This) :
  snd (forEach hooks await_postProcessor this) = this.
Proof.
  induction hooks as [|hook hooks IH]; [reflexivity|].
  simpl. unfold bind, await_postProcessor at 1.
  destruct (hook (registry this)) as [[]|e]; [exact IH | reflexivity].
Qed.

(** The rebuild is the merge followed by the two derivation passes and the
    post processors. *)
Lemma postProcessLoaders_after_merge (this : This) :
  postProcessLoaders host this
  = (do mergePhase then
     do createAiTools host then
     do injectCustomApiCallOptions then
     let* hooks := gets postProcessors in
     forEach hooks await_postProcessor) this.
Proof. reflexivity. Qed.

(** The state the injection starts from. *)
Lemma postProcessLoaders_run (this : This) :
  let derived :=
    set_registry
      (λ _, aiToolsAdded host (mergedRegistry (Object_values (loaders this))))
      this in
  postProcessLoaders host this
  = match injectCustomApiCallOptions derived with
    | (Normal _, this') => forEach (postProcessors this') await_postProcessor this'
    | (Throw e, this') => (Throw e, this')
    end.
Proof.
  cbv zeta. rewrite postProcessLoaders_after_merge. unfold bind at 1.
  rewrite mergePhase_run. unfold bind at 1. rewrite createAiTools_run.
  unfold bind at 1, gets. destruct this. reflexivity.
Qed.

Lemma injectNode_deterministic (node : INodeTypeDescription) (this1 this2 : This) :
  types_credentials (registry this1) = types_credentials (registry this2) →
  fst (injectNode node this1) = fst (injectNode node this2)
  ∧ types_credentials (registry (snd (injectNode node this1)))
    = types_credentials (registry (snd (injectNode node this2))).
Proof.
  intros Hcreds. rewrite !injectNode_run. cbv zeta. cbn [fst snd].
  rewrite !registry_log_all, Hcreds. split; reflexivity.
Qed.

Lemma injectNodes_deterministic (nodes : list INodeTypeDescription)
  (this1 this2 : This) :
  types_credentials (registry this1) = types_credentials (registry this2) →
  fst (injectNodes nodes this1) = fst (injectNodes nodes this2).
Proof.
  revert this1 this2. induction nodes as [|node nodes IH]; intros this1 this2 Hcreds;
    [reflexivity|].
  simpl. destruct (injectNode_deterministic node this1 this2 Hcreds) as [Hfst Hsnd].
  destruct (injectNode node this1) as [[c1 node1] this1'].
  destruct (injectNode node this2) as [[c2 node2] this2'].
  cbn [fst snd] in Hfst, Hsnd. injection Hfst as <- <-.
  destruct c1; [|reflexivity].
  specialize (IH this1' this2' Hsnd).
  destruct (injectNodes nodes this1') as [[c1' rest1] ?].
  destruct (injectNodes nodes this2') as [[c2' rest2] ?].
  cbn [fst] in IH |- *. injection IH as <- <-. reflexivity.
Qed.

(** The registry a rebuild leaves, whether it completes or throws. *)
Lemma postProcessLoaders_registry (this : This) :
  let derived := aiToolsAdded host (mergedRegistry (Object_values (loaders this))) in
  registry (snd (postProcessLoaders host this))
  = set_types_nodes
      (λ _, snd (fst (injectNodes (types_nodes derived)
                        (set_registry (λ _, derived)
                           (new_LoadNodesAndCredentials None [])))))
      derived.
Proof.
  cbv zeta. rewrite postProcessLoaders_run. cbv zeta.
  rewrite injectCustomApiCallOptions_run.
  set (derived := aiToolsAdded host (mergedRegistry (Object_values (loaders this)))).
  set (this1 := set_registry (λ _, derived) this).
  change (registry this1) with derived.
  destruct (injectNodes_cases (types_nodes derived) this1) as [[warnings Hstate] _].
  rewrite Hstate.
  rewrite (injectNodes_deterministic (types_nodes derived) this1
             (set_registry (λ _, derived) (new_LoadNodesAndCredentials None [])))
    by reflexivity.
  destruct (fst (fst (injectNodes _ _))) as [[]|e].
  - rewrite forEach_await. cbn [registry set_registry].
    rewrite registry_log_all. reflexivity.
  - cbn [snd registry set_registry]. rewrite registry_log_all. reflexivity.
Qed.

Lemma postProcessLoaders_loaders (this : This) :
  loaders (snd (postProcessLoaders host this)) = loaders this.
Proof.
  rewrite postProcessLoaders_run. cbv zeta. rewrite injectCustomApiCallOptions_run.
  destruct (injectNodes_cases
              (types_nodes (registry (set_registry
                 (λ _, aiToolsAdded host (mergedRegistry (Object_values (loaders this))))
                 this)))
              (set_registry
                 (λ _, aiToolsAdded host (mergedRegistry (Object_values (loaders this))))
                 this)) as [[warnings Hstate] _].
  rewrite Hstate.
  destruct (fst (fst (injectNodes _ _))) as [[]|e].
  - rewrite forEach_await. cbn [loaders set_registry].
    rewrite loaders_log_all. reflexivity.
  - cbn [snd loaders set_registry]. rewrite loaders_log_all. reflexivity.
Qed.

End Rebuild.

Section RebuildClaims.

Context (host : Host).


Lemma merged_consistent (ls : list DirectoryLoader) :
  (∀ loader, loader ∈ ls → loader_consistent loader) →
  known_loaded_consistent (mergedRegistry ls).
Proof.
  intros Hls. split; intros name Hloaded;
    cbn [loaded_nodes loaded_credentials known_nodes known_credentials
         mergedRegistry] in *.
  - apply (merged_lookup_is_Some nodeTypes) in Hloaded as [H|(l & Hl & H)].
    + rewrite lookup_empty in H. destruct H; discriminate.
    + apply (merged_lookup_is_Some (λ l, qualifyNode l <$> loader_known_nodes l)).
      right. exists l. split; [exact Hl|]. rewrite lookup_fmap.
      apply fmap_is_Some. apply (Hls l Hl). exact H.
  - apply (merged_lookup_is_Some credentialTypes) in Hloaded as [H|(l & Hl & H)].
    + rewrite lookup_empty in H. destruct H; discriminate.
    + apply (merged_lookup_is_Some
               (λ l, qualifyCredential l <$> loader_known_credentials l)).
      right. exists l. split; [exact Hl|]. rewrite lookup_fmap.
      apply fmap_is_Some. apply (Hls l Hl). exact H.
Qed.

(** C4.  After a rebuild, completed or not, every type name with an entry
    in the loaded nodes (credentials) has an entry in the known nodes
    (credentials), in the sense of [name in this.known.nodes], given that
    every loader knows the types it holds materialised. *)
Theorem loaded_types_are_known (this : This) :
  (∀ loader, loader ∈ Object_values (loaders this) → loader_consistent loader) →
  known_loaded_consistent (registry (snd (postProcessLoaders host this))).
Proof.
  intros Hls. rewrite postProcessLoaders_registry. cbv zeta.
  destruct (merged_consistent _ Hls) as [Hnodes Hcreds].
  destruct (aiTools_fold host
              (usableAsTool (types_nodes (mergedRegistry (Object_values (loaders this)))))
              (mergedRegistry (Object_values (loaders this))))
    as (_ & _ & Hln & Hlc & Hkn & Hkc).
  cbv zeta in *. fold (aiToolsAdded host (mergedRegistry (Object_values (loaders this)))) in *.
  split; intros name Hloaded;
    cbn [loaded_nodes loaded_credentials known_nodes known_credentials
         set_types_nodes] in *.
  - rewrite Hln in Hloaded. apply Hkn, Hnodes, Hloaded.
  - rewrite Hlc in Hloaded. apply Hkc, Hcreds, Hloaded.
Qed.

End RebuildClaims.


Example merge_of_two_packages :
  let r := mergedRegistry (Object_values (loaders two_packages)) in
  known_nodes r !! "foo"
  = Some (Some {| className := "Foo";
                  sourcePath := "/home/node/.n8n/custom/Foo.node.js" |})
  ∧ (supportedNodes <$> known_credentials r !! "barApi") = Some None
  ∧ (supportedNodes <$> known_credentials r !! "bazApi")
    = Some (Some ["n8n-nodes-beta.baz"])
  ∧ (cred_sourcePath <$> known_credentials r !! "bazApi")
    = Some "/home/node/.n8n/nodes/node_modules/n8n-nodes-beta/dist/credentials/BazApi.credentials.js".
Proof. cbv zeta. repeat split; vm_compute; reflexivity. Qed.

Lemma two_packages_consistent (loader : DirectoryLoader) :
  loader ∈ Object_values (loaders two_packages) → loader_consistent loader.
Proof.
  intros Hin.
  change (Object_values (loaders two_packages))
    with [custom_loader; beta_loader] in Hin.
  apply elem_of_cons in Hin as [->|Hin];
    [|apply elem_of_cons in Hin as [->|Hin]; [|apply elem_of_nil in Hin; contradiction]].
  - split; intros name H; cbn [nodeTypes credentialTypes loader_known_nodes
      loader_known_credentials custom_loader] in *.
    + apply lookup_singleton_is_Some in H as <-.
      rewrite lookup_singleton_eq. eauto.
    + rewrite lookup_empty in H. destruct H; discriminate.
  - split; intros name H; cbn [nodeTypes credentialTypes beta_loader] in H;
      rewrite lookup_empty in H; destruct H; discriminate.
Defined.

Lemma loaded_types_are_known_witness :
  known_loaded_consistent (registry (snd (postProcessLoaders demo_host two_packages))).
Proof.
  apply (loaded_types_are_known demo_host two_packages).
  exact two_packages_consistent.
Defined.

(** The converse fails: the lazily loaded package knows [baz] without
    holding it materialised. *)
Example known_without_loaded :
  is_Some (known_nodes (registry rebuilt) !! "baz")
  ∧ loaded_nodes (registry rebuilt) !! "baz" = None.
Proof. split; [eexists|]; vm_compute; reflexivity. Qed.

(** ** The rebuild statement by statement *)

Section Trace.

Context (host : Host).

Lemma exec_app (A B : list Statement) (this : This) :
  exec (A ++ B) this = (do exec A then exec B) this.
Proof.
  revert this. induction A as [|s A IH]; intros this; [reflexivity|].
  simpl. unfold bind. destruct (run s this) as [[[]|e] this'];
    [|reflexivity].
  rewrite IH. reflexivity.
Qed.

Lemma exec_map {X} (mk : X → Statement) (xs : list X) (this : This) :
  exec (map mk xs) this = forEach xs (λ x, run (mk x)) this.
Proof.
  revert this. induction xs as [|x xs IH]; intros this; [reflexivity|].
  simpl. unfold bind. destruct (run (mk x) this) as [[[]|e] this'];
    [apply IH | reflexivity].
Qed.

(** The statement list is the method. *)
Lemma postProcessLoaders_exec (this : This) :
  postProcessLoaders host this = exec (postProcessLoaders_statements host this) this.
Proof.
  rewrite postProcessLoaders_run. cbv zeta.
  unfold postProcessLoaders_statements.
  change (exec ?l this) with
    (exec (map (λ loader, {| awaits := false; run := mergeLoader loader |})
              (Object_values (loaders this))
            ++ [ {| awaits := false; run := createAiTools host |};
                 {| awaits := false; run := injectCustomApiCallOptions |} ]
            ++ map (λ hook, {| awaits := true; run := await_postProcessor hook |})
                 (postProcessors this))
       (set_registry (λ _, empty_registry) this)).
  rewrite exec_app, bind_run, exec_map.
  rewrite (forEach_set_registry _ _ loaderMerged) by (intros; apply mergeLoader_run).
  change ([?a; ?b] ++ ?l) with (a :: b :: l). cbn [exec run].
  rewrite bind_run, createAiTools_run, bind_run.
  replace (set_registry (aiToolsAdded host)
             (set_registry (λ r, foldl (λ r' x, loaderMerged x r') r
                                   (Object_values (loaders this)))
                (set_registry (λ _, empty_registry) this)))
    with (set_registry
            (λ _, aiToolsAdded host (mergedRegistry (Object_values (loaders this))))
            this).
  2: { unfold set_registry. cbn [registry loaders excludeNodes includeNodes
         postProcessors logger reported]. rewrite loadersMerged. reflexivity. }
  rewrite injectCustomApiCallOptions_run.
  match goal with
  | |- context [injectNodes ?nodes ?t] =>
      destruct (injectNodes_cases nodes t) as [[warnings Hstate] _];
      rewrite Hstate; destruct (fst (fst (injectNodes nodes t))) as [[]|e]
  end; [|reflexivity].
  rewrite exec_map. cbn [run postProcessors set_registry].
  rewrite postProcessors_log_all. reflexivity.
Qed.

Lemma run_statements_nonempty (statements : list Statement) (this : This) :
  statements ≠ [] → run_statements statements this ≠ [].
Proof.
  destruct statements as [|s rest]; [congruence|]. intros _. simpl.
  destruct (run s this) as [[[]|e] this']; discriminate.
Qed.

Lemma run_statements_last (statements : list Statement) (this : This) :
  statements ≠ [] →
  last (run_statements statements this) = Some (snd (exec statements this)).
Proof.
  revert this. induction statements as [|s rest IH]; intros this Hne; [congruence|].
  simpl. unfold bind. destruct (run s this) as [[[]|e] this']; [|reflexivity].
  destruct rest as [|s' rest']; [reflexivity|].
  pose proof (run_statements_nonempty (s' :: rest') this' ltac:(discriminate)) as Hrun.
  destruct (run_statements (s' :: rest') this') as [|mid trace] eqn:Htrace;
    [congruence|].
  rewrite last_cons_cons, <- Htrace. apply IH. discriminate.
Qed.

(** The statements before the post processors are the merge and the two
    derivation passes. *)
Lemma synchronous_exec (this : This) :
  exec ([ {| awaits := false; run := clearKnown |};
          {| awaits := false; run := clearLoaded |};
          {| awaits := false; run := clearTypes |} ]
        ++ map (λ loader, {| awaits := false; run := mergeLoader loader |})
             (Object_values (loaders this))
        ++ [ {| awaits := false; run := createAiTools host |};
             {| awaits := false; run := injectCustomApiCallOptions |} ]) this
  = (do mergePhase then derivationPass host) this.
Proof.
  rewrite bind_run, mergePhase_run. unfold derivationPass.
  rewrite bind_run, createAiTools_run.
  change (exec ?l this) with
    (exec (map (λ loader, {| awaits := false; run := mergeLoader loader |})
              (Object_values (loaders this))
            ++ [ {| awaits := false; run := createAiTools host |};
                 {| awaits := false; run := injectCustomApiCallOptions |} ])
       (set_registry (λ _, empty_registry) this)).
  rewrite exec_app, bind_run, exec_map.
  rewrite (forEach_set_registry _ _ loaderMerged) by (intros; apply mergeLoader_run).
  cbn [exec run]. rewrite bind_run, createAiTools_run, bind_run.
  replace (set_registry (aiToolsAdded host)
             (set_registry (λ r, foldl (λ r' x, loaderMerged x r') r
                                   (Object_values (loaders this)))
                (set_registry (λ _, empty_registry) this)))
    with (set_registry (aiToolsAdded host)
            (set_registry (λ _, mergedRegistry (Object_values (loaders this))) this)).
  2: { unfold set_registry. cbn [registry loaders excludeNodes includeNodes
         postProcessors logger reported]. rewrite loadersMerged. reflexivity. }
  destruct (injectCustomApiCallOptions _) as [[[]|e] this']; reflexivity.
Qed.

(** C9 (amended).  The rebuild does not build the new containers aside:
    the method is its statements run one after the other on the instance,
    the state after the last of them is the state the rebuild leaves, and
    the state after the first already has, where readers reach it through
    the instance, an empty known index.  The statements that clear, merge
    and derive do not await, and together they are the merge followed by
    the two derivation passes; the only awaits are those of the post
    processors, one statement each in the order of their registration,
    after all the others. *)
Theorem rebuild_in_place (this : This) :
  postProcessLoaders host this
  = exec (postProcessLoaders_statements host this) this
  ∧ last (run_statements (postProcessLoaders_statements host this) this)
    = Some (snd (postProcessLoaders host this))
  ∧ run_statements (postProcessLoaders_statements host this) this !! 0%nat
    = Some (set_registry
              (λ r, set_known_credentials (λ _, ∅) (set_known_nodes (λ _, ∅) r))
              this)
  ∧ ∃ synchronous,
      postProcessLoaders_statements host this
      = synchronous
        ++ map (λ hook, {| awaits := true; run := await_postProcessor hook |})
             (postProcessors this)
      ∧ Forall (λ s, awaits s = false) synchronous
      ∧ exec synchronous this = (do mergePhase then derivationPass host) this.
Proof.
  split; [apply postProcessLoaders_exec|]. split; [|split; [reflexivity|]].
  - rewrite postProcessLoaders_exec. apply run_statements_last. discriminate.
  - exists ([ {| awaits := false; run := clearKnown |};
              {| awaits := false; run := clearLoaded |};
              {| awaits := false; run := clearTypes |} ]
            ++ map (λ loader, {| awaits := false; run := mergeLoader loader |})
                 (Object_values (loaders this))
            ++ [ {| awaits := false; run := createAiTools host |};
                 {| awaits := false; run := injectCustomApiCallOptions |} ]).
    split; [|split].
    + unfold postProcessLoaders_statements. rewrite <- !app_assoc. reflexivity.
    + repeat (apply Forall_app; split); [repeat constructor| |repeat constructor].
      apply Forall_forall. intros s Hs.
      apply list_elem_of_fmap in Hs as (loader & -> & _). reflexivity.
    + apply synchronous_exec.
Qed.

End Trace.

(** C9, counterexample.  Rebuilding the two packages a second time, the
    state after the first statement has an empty known index next to the
    loaded types and descriptions of before: neither the registry before
    the rebuild nor the one after it. *)
Lemma rebuild_is_not_construct_then_swap :
  ¬ construct_then_swap demo_host rebuilt.
Proof.
  intros Hswap.
  destruct (Hswap (set_registry
                     (λ r, set_known_credentials (λ _, ∅) (set_known_nodes (λ _, ∅) r))
                     rebuilt)) as [H|H].
  - apply list_elem_of_lookup. exists 0%nat. reflexivity.
  - apply (f_equal (λ r, known_nodes r !! "foo")) in H. vm_compute in H. discriminate.
  - apply (f_equal (λ r, known_nodes r !! "foo")) in H. vm_compute in H. discriminate.
Qed.

(** A rebuild that throws leaves what it had done: the known index is
    rebuilt, the first node has its option, the faulting node is half done,
    and the post processors have not run. *)
Example faulting_rebuild_is_partial :
  let broken :=
    {| loader_class := CustomDirectoryLoader; packageName := "CUSTOM";
       directory := "/home/node/.n8n/custom"; isLazyLoaded := false;
       loader_known_nodes := loader_known_nodes custom_loader;
       loader_known_credentials := ∅;
       loader_types_nodes := [gmail_node; empty_options_node];
       loader_types_credentials := microsoft_credentials;
       nodeTypes := ∅; credentialTypes := ∅ |} in
  let this :=
    set_loaders (λ _, [("CUSTOM", broken)]) (new_LoadNodesAndCredentials None []) in
  fst (postProcessLoaders demo_host this) = Throw undefinedNameError
  ∧ is_Some (known_nodes (registry (snd (postProcessLoaders demo_host this))) !! "foo")
  ∧ map (λ node, map property_options (node_properties node))
        (types_nodes (registry (snd (postProcessLoaders demo_host this))))
    = [ [Some [one_option "message"; one_option "label"; customApiCallOption]; None];
        [Some [one_option "message"; customApiCallOption]; Some []];
        [Some [one_option "message"; one_option "label"]; None] ].
Proof.
  cbv zeta. split; [vm_compute; reflexivity|].
  split; [eexists; vm_compute; reflexivity | vm_compute; reflexivity].
Qed.

Lemma derivationPass_twice_witness :
  ∃ again,
    types_nodes (registry (snd (derivationPass demo_host
                                  (snd (derivationPass demo_host gmail_instance)))))
    = types_nodes (registry (snd (derivationPass demo_host gmail_instance))) ++ again
    ∧ length again
      = length (usableAsTool
                  (types_nodes (registry (snd (derivationPass demo_host gmail_instance)))))
    ∧ (length (usableAsTool (types_nodes (registry gmail_instance))) ≤ length again)%nat.
Proof.
  apply (proj2 (proj2 (derivationPass_twice demo_host)) gmail_instance
           (snd (derivationPass demo_host gmail_instance))
           (snd (derivationPass demo_host
                   (snd (derivationPass demo_host gmail_instance)))));
    vm_compute; reflexivity.
Defined.

Lemma rebuild_in_place_witness :
  run_statements (postProcessLoaders_statements demo_host rebuilt) rebuilt !! 0%nat
  = Some (set_registry
            (λ r, set_known_credentials (λ _, ∅) (set_known_nodes (λ _, ∅) r))
            rebuilt).
Proof.
  exact (proj1 (proj2 (proj2 (rebuild_in_place demo_host rebuilt)))).
Defined.

Lemma injection_faults_on_empty_options_witness :
  ∃ e, fst (injectCustomApiCallOptions
              (with_types [gmail_node; empty_options_node] microsoft_credentials))
       = Throw e.
Proof.
  apply (proj2 (injection_faults_on_empty_options
                  (with_types [gmail_node; empty_options_node] microsoft_credentials))).
  exists empty_options_node,
    {| property_name := "operation"; property_options := Some [] |}.
  split; [right; left|]. split; [reflexivity|]. split; [reflexivity|].
  split; [right; left|]. split; reflexivity.
Defined.

(** ** The path model on known results of Node.js *)

Example path_resolve_climbs :
  path.resolve "/srv" ["/a/b/c"; "../../etc/passwd"] = "/a/etc/passwd".
Proof. reflexivity. Qed.

Example path_resolve_stops_at_root :
  path.resolve "/srv" ["/etc"; "../../etc/passwd"] = "/etc/passwd".
Proof. reflexivity. Qed.

Example path_resolve_uses_cwd :
  path.resolve "/srv" ["x"; "y/../z"] = "/srv/x/z".
Proof. reflexivity. Qed.

Example path_relative_inside :
  path.relative "/srv" "/etc" "/etc/passwd" = "passwd".
Proof. reflexivity. Qed.

Example path_relative_outside :
  path.relative "/srv" "/a/b/c" "/a/etc/passwd" = "../../etc/passwd".
Proof. reflexivity. Qed.

Example path_relative_sibling :
  path.relative "/srv" "/foo/bar" "/foo/barbaz" = "../barbaz".
Proof. reflexivity. Qed.

Example path_relative_from_root :
  path.relative "/srv" "/" "/etc/passwd" = "etc/passwd".
Proof. reflexivity. Qed.

Example path_join_plain : path.join ["/a/b"; "dist/x.js"] = "/a/b/dist/x.js".
Proof. reflexivity. Qed.

Example path_join_keeps_trailing_separator : path.join ["/a/b/"; "../x/"] = "/a/x/".
Proof. reflexivity. Qed.

Example path_join_above_start : path.join ["a"; "../../x"] = "../x".
Proof. reflexivity. Qed.

(** * Further properties *)

(** ** Plain objects *)

Section PlainObjectFacts.

Context {V : Type}.

Lemma own_property_None (key : string) (o : JSObject V) :
  own_property key o = None ↔ key ∉ Object_keys o.
Proof.
  induction o as [|[k v] o IH]; simpl.
  - split; [intros _ H; inversion H | reflexivity].
  - destruct (String.eqb k key) eqn:E.
    + apply String.eqb_eq in E as ->. split; [discriminate|].
      intros H. exfalso. apply H. left.
    + apply String.eqb_neq in E. rewrite IH, not_elem_of_cons.
      split; [intros H; split; [congruence | exact H] | intros [_ H]; exact H].
Qed.

Lemma own_property_js_replace (key other : string) (v : V) (o : JSObject V) :
  own_property other (js_replace key v o)
  = if String.eqb other key then (λ _, v) <$> own_property key o
    else own_property other o.
Proof.
  induction o as [|[k w] o IH]; simpl.
  - destruct (String.eqb other key); reflexivity.
  - destruct (String.eqb_spec k key) as [->|Hk]; simpl.
    + rewrite (String.eqb_sym key other).
      destruct (String.eqb other key); reflexivity.
    + rewrite IH. destruct (String.eqb_spec other key) as [->|Hother].
      * apply String.eqb_neq in Hk. rewrite Hk. reflexivity.
      * reflexivity.
Qed.

Lemma own_property_js_insert (key other : string) (v : V) (o : JSObject V) :
  own_property key o = None →
  own_property other (js_insert key v o)
  = if String.eqb other key then Some v else own_property other o.
Proof.
  induction o as [|[k w] o IH]; simpl; intros Hown.
  - rewrite (String.eqb_sym key other). reflexivity.
  - destruct (String.eqb_spec k key) as [->|Hk]; [discriminate|].
    destruct (listed_before key k); simpl.
    + rewrite (String.eqb_sym key other).
      destruct (String.eqb_spec other key) as [->|Hother]; [reflexivity|].
      reflexivity.
    + rewrite IH by exact Hown.
      destruct (String.eqb_spec other key) as [->|Hother]; [|reflexivity].
      apply String.eqb_neq in Hk. rewrite Hk. reflexivity.
Qed.

Lemma own_property_js_set (key : string) (v : V) (o : JSObject V) :
  own_property key (js_set key v o) = Some v.
Proof.
  unfold js_set. destruct (own_property key o) as [w|] eqn:Hown.
  - rewrite own_property_js_replace, String.eqb_refl, Hown. reflexivity.
  - rewrite own_property_js_insert, String.eqb_refl by exact Hown. reflexivity.
Qed.

Lemma own_property_js_set_ne (key other : string) (v : V) (o : JSObject V) :
  other ≠ key → own_property other (js_set key v o) = own_property other o.
Proof.
  intros Hne. apply String.eqb_neq in Hne. unfold js_set.
  destruct (own_property key o) as [w|] eqn:Hown.
  - rewrite own_property_js_replace, Hne. reflexivity.
  - rewrite own_property_js_insert, Hne by exact Hown. reflexivity.
Qed.

Lemma js_set_new (key : string) (v : V) (o : JSObject V) :
  own_property key o = None → js_set key v o = js_insert key v o.
Proof. unfold js_set. intros ->. reflexivity. Qed.

(** A name that is no array index goes last. *)
Lemma js_insert_last (key : string) (v : V) (o : JSObject V) :
  array_index key = None → js_insert key v o = o ++ [(key, v)].
Proof.
  intros Hkey. induction o as [|[k w] o IH]; simpl; [reflexivity|].
  unfold listed_before. rewrite Hkey, IH. reflexivity.
Qed.

Lemma js_insert_sublist (key : string) (v : V) (o : JSObject V) :
  sublist o (js_insert key v o).
Proof.
  induction o as [|[k w] o IH]; simpl; [apply sublist_nil_l|].
  destruct (listed_before key k); [apply sublist_cons; reflexivity|].
  apply sublist_skip, IH.
Qed.

Lemma js_insert_Permutation (key : string) (v : V) (o : JSObject V) :
  js_insert key v o ≡ₚ (key, v) :: o.
Proof.
  induction o as [|[k w] o IH]; simpl; [reflexivity|].
  destruct (listed_before key k); [reflexivity|].
  rewrite IH. apply Permutation_swap.
Qed.

Lemma Object_keys_js_replace (key : string) (v : V) (o : JSObject V) :
  Object_keys (js_replace key v o) = Object_keys o.
Proof.
  unfold Object_keys. induction o as [|[k w] o IH]; simpl; [reflexivity|].
  destruct (String.eqb k key); [reflexivity|]. cbn [map fst]. f_equal. exact IH.
Qed.

Lemma Object_keys_js_set_old (key : string) (v : V) (o : JSObject V) :
  is_Some (own_property key o) → Object_keys (js_set key v o) = Object_keys o.
Proof.
  intros [w Hown]. unfold js_set. rewrite Hown. apply Object_keys_js_replace.
Qed.

Lemma js_delete_insert (key : string) (v : V) (o : JSObject V) :
  own_property key o = None → js_delete key (js_insert key v o) = o.
Proof.
  induction o as [|[k w] o IH]; simpl; intros Hown.
  - rewrite String.eqb_refl. reflexivity.
  - destruct (String.eqb_spec k key) as [->|Hk]; [discriminate|].
    destruct (listed_before key k); simpl.
    + rewrite String.eqb_refl. reflexivity.
    + apply String.eqb_neq in Hk. rewrite Hk, IH by exact Hown. reflexivity.
Qed.

Lemma own_property_js_delete_ne (key other : string) (o : JSObject V) :
  other ≠ key → own_property other (js_delete key o) = own_property other o.
Proof.
  intros Hne. induction o as [|[k w] o IH]; simpl; [reflexivity|].
  destruct (String.eqb k key) eqn:E; simpl.
  - apply String.eqb_eq in E as ->. apply String.eqb_neq in Hne.
    rewrite String.eqb_sym, Hne. reflexivity.
  - rewrite IH. reflexivity.
Qed.

Lemma js_delete_sublist (key : string) (o : JSObject V) :
  sublist (js_delete key o) o.
Proof.
  induction o as [|[k w] o IH]; simpl; [constructor|].
  destruct (String.eqb k key); [apply sublist_cons | apply sublist_skip]; auto.
Qed.

Lemma own_property_js_delete (key : string) (o : JSObject V) :
  NoDup (Object_keys o) → own_property key (js_delete key o) = None.
Proof.
  induction o as [|[k w] o IH]; simpl; [reflexivity|].
  intros Hnodup. apply NoDup_cons in Hnodup as [Hk Hnodup].
  destruct (String.eqb k key) eqn:E; simpl.
  - apply String.eqb_eq in E as ->. apply own_property_None. exact Hk.
  - rewrite E. apply IH. exact Hnodup.
Qed.

End PlainObjectFacts.

(** ** Properties kept along a method *)

Section Preservation.

Context (Q : This → Prop).

Lemma preserves_ret {A} (a : A) : preserves Q (ret a).
Proof. intros this H. exact H. Qed.

Lemma preserves_throw {A} (e : JSError) : preserves Q (throw (A := A) e).
Proof. intros this H. exact H. Qed.

Lemma preserves_gets {A} (f : This → A) : preserves Q (gets f).
Proof. intros this H. exact H. Qed.

Lemma preserves_modify (f : This → This) :
  (∀ this, Q this → Q (f this)) → preserves Q (modify f).
Proof. intros Hf this H. apply Hf, H. Qed.

Lemma preserves_bind {A B} (m : M A) (k : A → M B) :
  preserves Q m → (∀ a, preserves Q (k a)) → preserves Q (bind m k).
Proof.
  intros Hm Hk this H. unfold bind. specialize (Hm this H).
  destruct (m this) as [[a|e] this']; [apply Hk, Hm | exact Hm].
Qed.

Lemma preserves_try_catch {A} (body : M A) (handler : JSError → M A) :
  preserves Q body → (∀ e, preserves Q (handler e)) →
  preserves Q (try_catch body handler).
Proof.
  intros Hbody Hhandler this H. unfold try_catch. specialize (Hbody this H).
  destruct (body this) as [[a|e] this']; [exact Hbody | apply Hhandler, Hbody].
Qed.

Lemma preserves_forEach {A} (xs : list A) (body : A → M unit) :
  (∀ x, preserves Q (body x)) → preserves Q (forEach xs body).
Proof.
  intros Hbody. induction xs as [|x xs IH]; [apply preserves_ret|].
  simpl. apply preserves_bind; [apply Hbody | intros _; exact IH].
Qed.

End Preservation.

(** ** The life cycle of a loader *)

Section LoaderLifecycle.

Context (host : Host).

Lemma runDirectoryLoader_cases (constructor : LoaderClass) (dir : string)
  (this : This) :
  match new_loader host constructor dir (excludeNodes this) (includeNodes this) with
  | Throw e => runDirectoryLoader host constructor dir this = (Throw e, this)
  | Normal loader =>
      if js_in (packageName loader) (loaders this) then
        runDirectoryLoader host constructor dir this
        = (Throw (duplicatePackage (packageName loader) dir), this)
      else
        match loadAll host loader with
        | Throw e => runDirectoryLoader host constructor dir this = (Throw e, this)
        | Normal loaded =>
            runDirectoryLoader host constructor dir this
            = (Normal loaded, set_loaders (js_set (packageName loaded) loaded) this)
        end
  end.
Proof.
  unfold runDirectoryLoader, bind, gets, lift, throw, modify, ret.
  destruct (new_loader host _ _ _ _) as [loader|e]; [|reflexivity].
  destruct (js_in (packageName loader) (loaders this)); [reflexivity|].
  destruct (loadAll host loader); reflexivity.
Qed.

Lemma js_in_false {V} (key : string) (o : JSObject V) :
  js_in key o = false → own_property key o = None ∧ inherited key = false.
Proof.
  unfold js_in. destruct (own_property key o); [discriminate|]. intros H. auto.
Qed.

(** What a registration leaves: nothing on failure, one more loader, under
    a name that was free, on success. *)
Lemma runDirectoryLoader_outcome (constructor : LoaderClass) (dir : string)
  (this : This) :
  loadAll_keeps_name host →
  match runDirectoryLoader host constructor dir this with
  | (Throw _, this') => this' = this
  | (Normal loader, this') =>
      own_property (packageName loader) (loaders this) = None
      ∧ inherited (packageName loader) = false
      ∧ this' = set_loaders (js_insert (packageName loader) loader) this
  end.
Proof.
  intros Hkeeps. pose proof (runDirectoryLoader_cases constructor dir this) as H.
  destruct (new_loader host _ _ _ _) as [loader|e]; [|rewrite H; reflexivity].
  destruct (js_in (packageName loader) (loaders this)) eqn:Hin;
    [rewrite H; reflexivity|].
  destruct (loadAll host loader) as [loaded|e] eqn:Hload; rewrite H; [|reflexivity].
  apply js_in_false in Hin as [Hown Hinherited].
  rewrite (Hkeeps _ _ Hload). split; [exact Hown|]. split; [exact Hinherited|].
  unfold set_loaders. rewrite js_set_new by exact Hown. reflexivity.
Qed.

(** X1.  A registration that fails, be it in the constructor of the loader,
    on a package name already taken or in [loadAll], leaves the instance as
    it was.  One that succeeds files the loader under a name that was free:
    the loaders there were keep their entries and their order, the new one
    is listed after them unless its name is an array index, and nothing
    else is touched.  The registry is not rebuilt, and the types of the
    package are not known before the next [postProcessLoaders]. *)
Theorem loadPackage_outcome (name : string) (this : This) :
  loadAll_keeps_name host →
  match loadPackage host name this with
  | (Throw _, this') => this' = this
  | (Normal loader, this') =>
      own_property (packageName loader) (loaders this) = None
      ∧ own_property (packageName loader) (loaders this') = Some loader
      ∧ (∀ other, other ≠ packageName loader →
           own_property other (loaders this') = own_property other (loaders this))
      ∧ sublist (loaders this) (loaders this')
      ∧ loaders this' ≡ₚ (packageName loader, loader) :: loaders this
      ∧ (array_index (packageName loader) = None →
         Object_values (loaders this') = Object_values (loaders this) ++ [loader])
      ∧ registry this' = registry this
      ∧ (∀ type, isKnownNode type this' = (fst (isKnownNode type this), this'))
  end.
Proof.
  intros Hkeeps. unfold loadPackage.
  pose proof (runDirectoryLoader_outcome PackageDirectoryLoader
                (path.join [nodesDownloadDir host; "node_modules"; name])
                this Hkeeps) as H.
  destruct (runDirectoryLoader host _ _ this) as [[loader|e] this']; [|exact H].
  destruct H as (Hown & _ & ->). split; [exact Hown|].
  cbn [loaders set_loaders registry].
  split; [rewrite own_property_js_insert, String.eqb_refl by exact Hown; reflexivity|].
  split.
  { intros other Hne. apply String.eqb_neq in Hne.
    rewrite own_property_js_insert, Hne by exact Hown. reflexivity. }
  split; [apply js_insert_sublist|]. split; [apply js_insert_Permutation|].
  split; [|split; [reflexivity | intros type; reflexivity]].
  intros Hname. rewrite js_insert_last by exact Hname.
  unfold Object_values. rewrite map_app. reflexivity.
Qed.

(** Unloading undoes a registration. *)
Lemma registration_undone (constructor : LoaderClass) (dir : string)
  (this this1 : This) (loader : DirectoryLoader) :
  loadAll_keeps_name host →
  runDirectoryLoader host constructor dir this = (Normal loader, this1) →
  unloadPackage (packageName loader) this1 = (Normal tt, this).
Proof.
  intros Hkeeps Hload.
  pose proof (runDirectoryLoader_outcome constructor dir this Hkeeps) as H.
  rewrite Hload in H. destruct H as (Hown & _ & ->).
  unfold unloadPackage, bind, gets, modify, js_in. cbn [loaders set_loaders].
  rewrite own_property_js_insert, String.eqb_refl by exact Hown.
  f_equal. destruct this. unfold set_loaders.
  cbn [loaders registry excludeNodes includeNodes postProcessors logger reported] in *.
  rewrite js_delete_insert by exact Hown. reflexivity.
Qed.

(** X2.  Loading a package and unloading it under the name its loader
    carries gives back the instance there was before. *)
Theorem load_then_unload (name : string) (this this1 : This)
  (loader : DirectoryLoader) :
  loadAll_keeps_name host →
  loadPackage host name this = (Normal loader, this1) →
  unloadPackage (packageName loader) this1 = (Normal tt, this).
Proof. intros Hkeeps Hload. exact (registration_undone _ _ _ _ _ Hkeeps Hload). Qed.

(** X3.  Unloading a package that has a loader drops that loader and no
    other; the registry is left as it is, so the types of the package stay
    known until the next rebuild.  Unloading a name without a loader does
    nothing, unless the name is a member every object inherits: then the
    call is a [TypeError]. *)
Theorem unloadPackage_outcome (name : string) (this : This) :
  NoDup (Object_keys (loaders this)) →
  match own_property name (loaders this) with
  | Some _ =>
      ∃ this', unloadPackage name this = (Normal tt, this')
        ∧ own_property name (loaders this') = None
        ∧ (∀ other, other ≠ name →
             own_property other (loaders this') = own_property other (loaders this))
        ∧ sublist (loaders this') (loaders this)
        ∧ registry this' = registry this
  | None =>
      unloadPackage name this
      = (if inherited name
         then Throw (TypeError "this.loaders[packageName].reset is not a function")
         else Normal tt, this)
  end.
Proof.
  intros Hnodup. unfold unloadPackage, bind, gets, modify, throw, ret, js_in.
  destruct (own_property name (loaders this)) as [loader|] eqn:Hown.
  - eexists. split; [reflexivity|]. cbn [loaders set_loaders registry].
    split; [apply own_property_js_delete, Hnodup|].
    split; [intros other Hne; apply own_property_js_delete_ne, Hne|].
    split; [apply js_delete_sublist | reflexivity].
  - destruct (inherited name); reflexivity.
Qed.

End LoaderLifecycle.

Lemma demo_host_keeps_name : loadAll_keeps_name demo_host.
Proof. intros loader loaded H. injection H as <-. reflexivity. Defined.

Lemma loadPackage_outcome_witness :
  match loadPackage demo_host "n8n-nodes-beta" base_installed with
  | (Throw _, this') => this' = base_installed
  | (Normal loader, this') =>
      own_property (packageName loader) (loaders base_installed) = None
      ∧ own_property (packageName loader) (loaders this') = Some loader
      ∧ (∀ other, other ≠ packageName loader →
           own_property other (loaders this')
           = own_property other (loaders base_installed))
      ∧ sublist (loaders base_installed) (loaders this')
      ∧ loaders this' ≡ₚ (packageName loader, loader) :: loaders base_installed
      ∧ (array_index (packageName loader) = None →
         Object_values (loaders this')
         = Object_values (loaders base_installed) ++ [loader])
      ∧ registry this' = registry base_installed
      ∧ (∀ type, isKnownNode type this'
                 = (fst (isKnownNode type base_installed), this'))
  end.
Proof.
  exact (loadPackage_outcome demo_host "n8n-nodes-beta" base_installed
           demo_host_keeps_name).
Defined.

Lemma load_then_unload_witness :
  unloadPackage "n8n-nodes-beta"
    (snd (loadPackage demo_host "n8n-nodes-beta" base_installed))
  = (Normal tt, base_installed).
Proof.
  apply (load_then_unload demo_host "n8n-nodes-beta" base_installed _
           (bare_loader PackageDirectoryLoader "n8n-nodes-beta"
              "/home/node/.n8n/nodes/node_modules/n8n-nodes-beta")).
  - exact demo_host_keeps_name.
  - reflexivity.
Defined.

Lemma unloadPackage_outcome_witness :
  ∃ this', unloadPackage "CUSTOM" two_packages = (Normal tt, this')
    ∧ own_property "CUSTOM" (loaders this') = None
    ∧ (∀ other, other ≠ "CUSTOM" →
         own_property other (loaders this') = own_property other (loaders two_packages))
    ∧ sublist (loaders this') (loaders two_packages)
    ∧ registry this' = registry two_packages.
Proof.
  apply (unloadPackage_outcome "CUSTOM" two_packages).
  apply (bool_decide_unpack _). vm_compute. exact I.
Defined.

(** ** What the methods keep of the loaders *)

Section LoadersKept.

Context (host : Host) (P : JSObject DirectoryLoader → Prop).

Hypothesis P_set :
  ∀ registered loader,
    P registered → P (js_set (packageName loader) loader registered).

Lemma runDirectoryLoader_preserves (constructor : LoaderClass) (dir : string) :
  preserves (λ this, P (loaders this)) (runDirectoryLoader host constructor dir).
Proof.
  intros this H. pose proof (runDirectoryLoader_cases host constructor dir this) as Hc.
  destruct (new_loader host _ _ _ _) as [loader|e]; [|rewrite Hc; exact H].
  destruct (js_in (packageName loader) (loaders this)); [rewrite Hc; exact H|].
  destruct (loadAll host loader) as [loaded|e]; rewrite Hc; [|exact H].
  apply P_set, H.
Qed.

Lemma loadNodesFromNodeModules_preserves (nodeModulesDir : string)
  (name : option string) :
  preserves (λ this, P (loaders this))
    (loadNodesFromNodeModules host nodeModulesDir name).
Proof.
  unfold loadNodesFromNodeModules. apply preserves_forEach. intros packagePath.
  unfold loadInstalledPackage. apply preserves_try_catch.
  - apply preserves_bind; [apply runDirectoryLoader_preserves|].
    intros _. apply preserves_ret.
  - intros e. apply preserves_bind; [|intros _]; apply preserves_modify;
      intros this H; exact H.
Qed.

Lemma loadNodesFromCustomDirectories_preserves :
  preserves (λ this, P (loaders this)) (loadNodesFromCustomDirectories host).
Proof.
  unfold loadNodesFromCustomDirectories. apply preserves_forEach. intros dir.
  apply preserves_bind; [apply runDirectoryLoader_preserves|].
  intros _. apply preserves_ret.
Qed.

Lemma postProcessLoaders_preserves :
  preserves (λ this, P (loaders this)) (postProcessLoaders host).
Proof. intros this H. rewrite postProcessLoaders_loaders. exact H. Qed.

Lemma init_preserves : preserves (λ this, P (loaders this)) (init host).
Proof.
  unfold init. destruct (inTest host); [apply preserves_throw|].
  apply preserves_bind.
  { destruct (inE2ETests host); [apply preserves_ret|].
    apply preserves_modify. intros this H. exact H. }
  intros _. apply preserves_bind.
  { apply preserves_forEach. intros nodeModulesDir.
    apply preserves_bind; [|intros _]; apply loadNodesFromNodeModules_preserves. }
  intros _. apply preserves_bind; [apply loadNodesFromNodeModules_preserves|].
  intros _. apply preserves_bind; [apply loadNodesFromCustomDirectories_preserves|].
  intros _. apply postProcessLoaders_preserves.
Qed.

End LoadersKept.

Section LoadersKeyed.

Context (host : Host).

Lemma Forall_js_set {V} (R : string * V → Prop) (key : string) (v : V)
  (o : JSObject V) :
  Forall R o → (∀ k, k = key → R (k, v)) → Forall R (js_set key v o).
Proof.
  intros Ho Hv. unfold js_set. destruct (own_property key o) as [prior|].
  - induction Ho as [|[k w] o Hk Ho IH]; simpl; [constructor|].
    destruct (String.eqb k key) eqn:E.
    + apply String.eqb_eq in E. constructor; [apply Hv, E | exact Ho].
    + constructor; [exact Hk | exact IH].
  - induction Ho as [|[k w] o Hk Ho IH]; simpl.
    + constructor; [apply Hv; reflexivity | constructor].
    + destruct (listed_before key k).
      * constructor; [apply Hv; reflexivity|]. constructor; assumption.
      * constructor; [exact Hk | exact IH].
Qed.

Lemma Forall_js_delete {V} (R : string * V → Prop) (key : string) (o : JSObject V) :
  Forall R o → Forall R (js_delete key o).
Proof.
  intros Ho. induction Ho as [|[k w] o Hk Ho IH]; simpl; [constructor|].
  destruct (String.eqb k key); [exact Ho | constructor; assumption].
Qed.

Lemma loaders_keyed_set (registered : JSObject DirectoryLoader)
  (loader : DirectoryLoader) :
  loaders_keyed registered →
  loaders_keyed (js_set (packageName loader) loader registered).
Proof.
  intros [Hnodup Hkeyed]. split.
  - destruct (own_property (packageName loader) registered) as [prior|] eqn:Hown.
    + rewrite Object_keys_js_set_old by eauto. exact Hnodup.
    + rewrite js_set_new by exact Hown. unfold Object_keys.
      rewrite (js_insert_Permutation (packageName loader) loader registered).
      cbn [map fst]. constructor; [|exact Hnodup].
      apply own_property_None in Hown. exact Hown.
  - apply Forall_js_set; [exact Hkeyed|]. intros k ->. reflexivity.
Qed.

Lemma loaders_keyed_delete (registered : JSObject DirectoryLoader) (name : string) :
  loaders_keyed registered → loaders_keyed (js_delete name registered).
Proof.
  intros [Hnodup Hkeyed]. split.
  - apply (sublist_NoDup _ (Object_keys registered)); [exact Hnodup|].
    unfold Object_keys. apply fmap_sublist, js_delete_sublist.
  - apply Forall_js_delete, Hkeyed.
Qed.

(** X4.  Whatever the public methods do and however they complete, every
    loader stays filed under the package name it carries, and no name is
    filed twice. *)
Theorem loaders_stay_keyed (this : This) :
  loaders_keyed (loaders this) →
  loaders_keyed (loaders (snd (init host this)))
  ∧ (∀ name, loaders_keyed (loaders (snd (loadPackage host name this))))
  ∧ (∀ name, loaders_keyed (loaders (snd (unloadPackage name this))))
  ∧ loaders_keyed (loaders (snd (postProcessLoaders host this)))
  ∧ (∀ nodeModulesDir name,
       loaders_keyed
         (loaders (snd (loadNodesFromNodeModules host nodeModulesDir name this))))
  ∧ loaders_keyed (loaders (snd (loadNodesFromCustomDirectories host this))).
Proof.
  intros H. split; [|split; [|split; [|split; [|split]]]].
  - apply (init_preserves host loaders_keyed loaders_keyed_set this H).
  - intros name.
    apply (runDirectoryLoader_preserves host loaders_keyed loaders_keyed_set
             _ _ this H).
  - intros name. unfold unloadPackage, bind, gets, modify, throw, ret.
    destruct (js_in name (loaders this)); [|exact H].
    destruct (own_property name (loaders this)); [|exact H].
    apply loaders_keyed_delete, H.
  - rewrite postProcessLoaders_loaders. exact H.
  - intros nodeModulesDir name.
    apply (loadNodesFromNodeModules_preserves host loaders_keyed loaders_keyed_set
             _ _ this H).
  - apply (loadNodesFromCustomDirectories_preserves host loaders_keyed
             loaders_keyed_set this H).
Qed.

End LoadersKeyed.

Lemma loaders_stay_keyed_witness :
  loaders_keyed (loaders (snd (init demo_host two_packages))).
Proof.
  apply (loaders_stay_keyed demo_host two_packages). split.
  - apply (bool_decide_unpack _). vm_compute. exact I.
  - repeat constructor.
Defined.

(** ** Scans and start-up *)

Section Scan.

Context (host : Host).

(** A registration looks at the loaders and the two filters only. *)
Lemma runDirectoryLoader_frame (constructor : LoaderClass) (dir : string)
  (entries : list LogEntry) (errors : list JSError) (this : This) :
  let noted s :=
    {| registry := registry s; loaders := loaders s;
       excludeNodes := excludeNodes s; includeNodes := includeNodes s;
       postProcessors := postProcessors s;
       logger := logger s ++ entries; reported := reported s ++ errors |} in
  runDirectoryLoader host constructor dir (noted this)
  = (fst (runDirectoryLoader host constructor dir this),
     noted (snd (runDirectoryLoader host constructor dir this))).
Proof.
  cbv zeta.
  pose proof (runDirectoryLoader_cases host constructor dir this) as H.
  pose proof (runDirectoryLoader_cases host constructor dir
                {| registry := registry this; loaders := loaders this;
                   excludeNodes := excludeNodes this;
                   includeNodes := includeNodes this;
                   postProcessors := postProcessors this;
                   logger := logger this ++ entries;
                   reported := reported this ++ errors |}) as H'.
  cbn [excludeNodes includeNodes loaders] in H'.
  destruct (new_loader host _ _ _ _) as [loader|e]; [|rewrite H, H'; reflexivity].
  destruct (js_in (packageName loader) (loaders this));
    [rewrite H, H'; reflexivity|].
  destruct (loadAll host loader) as [loaded|e]; rewrite H, H'; reflexivity.
Qed.

Lemma scan_registrations (nodeModulesDir : string) (packagePaths : list string)
  (entries : list LogEntry) (errors : list JSError) (this : This) :
  let raised := fst (registrations host nodeModulesDir packagePaths this) in
  let final := snd (registrations host nodeModulesDir packagePaths this) in
  forEach packagePaths (loadInstalledPackage host nodeModulesDir)
    {| registry := registry this; loaders := loaders this;
       excludeNodes := excludeNodes this; includeNodes := includeNodes this;
       postProcessors := postProcessors this;
       logger := logger this ++ entries; reported := reported this ++ errors |}
  = (Normal tt,
     {| registry := registry final; loaders := loaders final;
        excludeNodes := excludeNodes final; includeNodes := includeNodes final;
        postProcessors := postProcessors final;
        logger := logger final ++ entries ++ map logged raised;
        reported := reported final ++ errors ++ raised |}).
Proof.
  cbv zeta. revert entries errors this.
  induction packagePaths as [|packagePath rest IH]; intros entries errors this.
  - cbn. rewrite !app_nil_r. reflexivity.
  - cbn [forEach registrations]. rewrite bind_run.
    unfold loadInstalledPackage at 1, try_catch. rewrite bind_run.
    rewrite (runDirectoryLoader_frame LazyPackageDirectoryLoader
               (path.join [nodeModulesDir; packagePath]) entries errors this).
    destruct (runDirectoryLoader host LazyPackageDirectoryLoader
                (path.join [nodeModulesDir; packagePath]) this)
      as [[loader|e] this1]; cbn [fst snd].
    + cbn [ret]. apply IH.
    + unfold bind, modify, log, report.
      cbn [registry loaders excludeNodes includeNodes postProcessors logger
           reported].
      rewrite <- !app_assoc.
      rewrite (IH (entries ++ [LogError (error_message e)]) (errors ++ [e]) this1).
      destruct (registrations host nodeModulesDir rest this1) as [raised final].
      cbn [fst snd map]. rewrite <- !app_assoc. reflexivity.
Qed.

(** X5.  A scan of a [node_modules] folder always completes.  It runs the
    registrations of the folders it finds one after the other, and every
    error one of them throws, in the constructor of the loader, on a name
    already taken or in [loadAll], is written to the log with its message
    and handed to the error reporter, in the order of the packages, no
    more and no less.  The loaders are those the registrations leave; the
    registry and the post processors are not touched. *)
Theorem scan_logs_and_reports (nodeModulesDir : string) (name : option string)
  (this : This) :
  let packagePaths := installedPackagePaths host nodeModulesDir name in
  let raised := fst (registrations host nodeModulesDir packagePaths this) in
  let final := snd (registrations host nodeModulesDir packagePaths this) in
  ∃ this',
    loadNodesFromNodeModules host nodeModulesDir name this = (Normal tt, this')
    ∧ logger this' = logger this ++ map logged raised
    ∧ reported this' = reported this ++ raised
    ∧ loaders this' = loaders final
    ∧ registry this' = registry this
    ∧ postProcessors this' = postProcessors this.
Proof.
  cbv zeta.
  change (loadNodesFromNodeModules host nodeModulesDir name this)
    with (forEach (installedPackagePaths host nodeModulesDir name)
            (loadInstalledPackage host nodeModulesDir) this).
  pose proof (scan_registrations nodeModulesDir
                (installedPackagePaths host nodeModulesDir name) [] [] this) as Hscan.
  cbv zeta in Hscan. rewrite !app_nil_r in Hscan.
  replace {| registry := registry this; loaders := loaders this;
             excludeNodes := excludeNodes this; includeNodes := includeNodes this;
             postProcessors := postProcessors this;
             logger := logger this; reported := reported this |}
    with this in Hscan by (destruct this; reflexivity).
  rewrite Hscan. eexists. split; [reflexivity|].
  cbn [logger reported loaders registry postProcessors].
  assert (Hframe : ∀ packagePaths start,
            let final := snd (registrations host nodeModulesDir packagePaths start) in
            logger final = logger start ∧ reported final = reported start
            ∧ registry final = registry start
            ∧ postProcessors final = postProcessors start).
  { induction packagePaths as [|packagePath rest IH]; intros start;
      [repeat split|].
    cbv zeta. cbn [registrations].
    pose proof (runDirectoryLoader_cases host LazyPackageDirectoryLoader
                  (path.join [nodeModulesDir; packagePath]) start) as Hc.
    assert (Hstep : ∀ next,
              logger next = logger start → reported next = reported start →
              registry next = registry start →
              postProcessors next = postProcessors start →
              logger (snd (registrations host nodeModulesDir rest next))
              = logger start
              ∧ reported (snd (registrations host nodeModulesDir rest next))
                = reported start
              ∧ registry (snd (registrations host nodeModulesDir rest next))
                = registry start
              ∧ postProcessors (snd (registrations host nodeModulesDir rest next))
                = postProcessors start).
    { intros next H1 H2 H3 H4. destruct (IH next) as (I1 & I2 & I3 & I4).
      rewrite I1, I2, I3, I4. auto. }
    destruct (new_loader host _ _ _ _) as [loader|e];
      [destruct (js_in (packageName loader) (loaders start));
         [|destruct (loadAll host loader) as [loaded|e]]|];
      rewrite Hc;
      try (destruct (registrations host nodeModulesDir rest start)
             as [raised final] eqn:Hrest;
           cbn [snd];
           change final with (snd (raised, final)); rewrite <- Hrest;
           apply Hstep; reflexivity).
    apply Hstep; reflexivity. }
  destruct (Hframe (installedPackagePaths host nodeModulesDir name) this)
    as (H1 & H2 & H3 & H4).
  rewrite H1, H2, H3, H4. repeat split.
Qed.

End Scan.

Section StartUp.

Context (host : Host) (name : string).

Hypothesis custom_loader_name :
  ∀ excluded included, ∃ loader,
    new_loader host CustomDirectoryLoader (customExtensionDir host)
      excluded included = Normal loader
    ∧ packageName loader = name.

Hypothesis keeps_name : loadAll_keeps_name host.

Lemma js_in_set {V} (key other : string) (v : V) (o : JSObject V) :
  js_in key o = true → js_in key (js_set other v o) = true.
Proof.
  unfold js_in. destruct (decide (key = other)) as [->|Hne].
  - rewrite own_property_js_set. reflexivity.
  - rewrite own_property_js_set_ne by exact Hne. intros H. exact H.
Qed.

Ltac next_statement H :=
  rewrite bind_run in H;
  match type of H with
  | match ?statement with _ => _ end = _ =>
      destruct statement as [[[]|?] ?] eqn:?; [|discriminate H]
  end.

Lemma custom_directories_loaded (this this' : This) :
  loadNodesFromCustomDirectories host this = (Normal tt, this') →
  js_in name (loaders this') = true.
Proof.
  unfold loadNodesFromCustomDirectories, getCustomDirectories. cbn [forEach].
  intros H. rewrite bind_run, bind_run in H.
  pose proof (runDirectoryLoader_cases host CustomDirectoryLoader
                (customExtensionDir host) this) as Hc.
  destruct (custom_loader_name (excludeNodes this) (includeNodes this))
    as (loader & Hnew & Hname).
  rewrite Hnew in Hc.
  destruct (js_in (packageName loader) (loaders this));
    [rewrite Hc in H; discriminate H|].
  destruct (loadAll host loader) as [loaded|e] eqn:Hload;
    rewrite Hc in H; [|discriminate H].
  cbn [ret] in H.
  change this' with (snd (Normal tt, this')). rewrite <- H.
  apply (preserves_forEach (λ this, js_in name (loaders this) = true)).
  - intros dir. apply preserves_bind; [|intros _; apply preserves_ret].
    apply (runDirectoryLoader_preserves host (λ o, js_in name o = true)).
    intros registered l. apply js_in_set.
  - cbn [loaders set_loaders]. rewrite (keeps_name _ _ Hload), Hname.
    unfold js_in. rewrite own_property_js_set. reflexivity.
Qed.

Lemma init_completed (this this' : This) :
  init host this = (Normal tt, this') →
  inTest host = false ∧ js_in name (loaders this') = true.
Proof.
  unfold init. destruct (inTest host); [discriminate|]. intros H.
  split; [reflexivity|].
  do 4 next_statement H.
  change this' with (snd (Normal tt, this')). rewrite <- H.
  rewrite postProcessLoaders_loaders.
  eapply custom_directories_loaded. eassumption.
Qed.

(** X6.  [init] cannot be run twice on an instance: a first run that
    completes has registered the loader of the custom extension directory,
    and a second run, after scanning the installed packages again, fails on
    that directory with the duplicate-package error. *)
Theorem init_twice_fails (this this' : This) :
  init host this = (Normal tt, this') →
  fst (init host this')
  = Throw (duplicatePackage name (customExtensionDir host)).
Proof.
  intros Hfirst. apply init_completed in Hfirst as [Htest Hin].
  assert (Hscan : ∀ nodeModulesDir package,
            preserves (λ this, js_in name (loaders this) = true)
              (loadNodesFromNodeModules host nodeModulesDir package)).
  { intros nodeModulesDir package.
    apply (loadNodesFromNodeModules_preserves host (λ o, js_in name o = true)).
    intros registered l. apply js_in_set. }
  assert (Hstep : ∀ (m : M unit) start,
            fst (m start) = Normal tt →
            preserves (λ this, js_in name (loaders this) = true) m →
            js_in name (loaders start) = true →
            ∃ next, m start = (Normal tt, next) ∧ js_in name (loaders next) = true).
  { intros m start Hdone Hkeeps Hstart. specialize (Hkeeps start Hstart).
    destruct (m start) as [c next]. cbn [fst snd] in *. subst c. eauto. }
  assert (Hrest : ∀ start, js_in name (loaders start) = true →
            fst ((do forEach
                       [path.join [CLI_DIR host; ".."];
                        path.join [CLI_DIR host; "node_modules"]]
                       (λ nodeModulesDir,
                          do loadNodesFromNodeModules host nodeModulesDir
                               (Some "n8n-nodes-base") then
                          loadNodesFromNodeModules host nodeModulesDir
                            (Some "@n8n/n8n-nodes-langchain")) then
                  do loadNodesFromNodeModules host
                       (path.join [nodesDownloadDir host; "node_modules"]) None then
                  do loadNodesFromCustomDirectories host then
                  postProcessLoaders host) start)
            = Throw (duplicatePackage name (customExtensionDir host))).
  { intros start Hstart. rewrite bind_run.
    match goal with
    | |- context [forEach ?paths ?body start] =>
        destruct (Hstep (forEach paths body) start) as (scanned & -> & Hscanned)
    end.
    { apply forEach_completes. intros nodeModulesDir this0. rewrite bind_run.
      pose proof (loadNodesFromNodeModules_completes host nodeModulesDir
                    (Some "n8n-nodes-base") this0) as Hbase.
      destruct (loadNodesFromNodeModules host nodeModulesDir
                  (Some "n8n-nodes-base") this0) as [c this1].
      cbn [fst] in Hbase. rewrite Hbase.
      apply loadNodesFromNodeModules_completes. }
    { apply preserves_forEach. intros nodeModulesDir.
      apply preserves_bind; [|intros _]; apply Hscan. }
    { exact Hstart. }
    rewrite bind_run.
    match goal with
    | |- context [loadNodesFromNodeModules host ?dir ?package scanned] =>
        destruct (Hstep (loadNodesFromNodeModules host dir package) scanned
                    (loadNodesFromNodeModules_completes host dir package scanned)
                    (Hscan dir package) Hscanned) as (scanned' & -> & Hscanned')
    end.
    rewrite bind_run.
    unfold loadNodesFromCustomDirectories, getCustomDirectories. cbn [forEach].
    rewrite bind_run, bind_run.
    destruct (custom_loader_name (excludeNodes scanned') (includeNodes scanned'))
      as (loader & Hnew & Hname).
    rewrite (runDirectoryLoader_duplicate host scanned' CustomDirectoryLoader
               (customExtensionDir host) loader Hnew)
      by (rewrite Hname; exact Hscanned').
    rewrite Hname. reflexivity. }
  unfold init. rewrite Htest, bind_run.
  destruct (inE2ETests host); apply Hrest; exact Hin.
Qed.

End StartUp.


Lemma init_twice_fails_witness :
  fst (init demo_host (snd (init demo_host (new_LoadNodesAndCredentials None []))))
  = Throw (duplicatePackage "CUSTOM" "/home/node/.n8n/custom").
Proof.
  apply (init_twice_fails demo_host "CUSTOM"
           (λ excluded included,
              ex_intro _ (bare_loader CustomDirectoryLoader "CUSTOM"
                            "/home/node/.n8n/custom")
                (conj eq_refl eq_refl))
           demo_host_keeps_name (new_LoadNodesAndCredentials None [])).
  vm_compute. reflexivity.
Defined.

(** ** Post processors and what a rebuild knows *)

Section RebuildOutcome.

Context (host : Host).

Lemma forEach_awaitAll (hooks : list PostProcessor) (this : This) :
  fst (forEach hooks await_postProcessor this) = awaitAll hooks (registry this).
Proof.
  induction hooks as [|hook hooks IH]; [reflexivity|].
  simpl. unfold bind, await_postProcessor at 1.
  destruct (hook (registry this)) as [[]|e]; [exact IH | reflexivity].
Qed.

Lemma awaitAll_app (hooks : list PostProcessor) (fn : PostProcessor) (r : Registry) :
  awaitAll (hooks ++ [fn]) r
  = match awaitAll hooks r with
    | Normal _ => fn r
    | Throw e => Throw e
    end.
Proof.
  induction hooks as [|hook hooks IH]; simpl.
  - destruct (fn r) as [[]|e]; reflexivity.
  - destruct (hook r); [exact IH | reflexivity].
Qed.

(** How a rebuild completes: on the error of the injection, or else as the
    post processors do on the registry it leaves. *)
Lemma postProcessLoaders_completion (this : This) :
  let derived := aiToolsAdded host (mergedRegistry (Object_values (loaders this))) in
  fst (postProcessLoaders host this)
  = match fst (fst (injectNodes (types_nodes derived)
                      (set_registry (λ _, derived)
                         (new_LoadNodesAndCredentials None [])))) with
    | Normal _ =>
        awaitAll (postProcessors this) (registry (snd (postProcessLoaders host this)))
    | Throw e => Throw e
    end.
Proof.
  cbv zeta. rewrite postProcessLoaders_run. cbv zeta.
  rewrite injectCustomApiCallOptions_run.
  set (derived := aiToolsAdded host (mergedRegistry (Object_values (loaders this)))).
  set (this1 := set_registry (λ _, derived) this).
  change (registry this1) with derived.
  destruct (injectNodes_cases (types_nodes derived) this1) as [[warnings Hstate] _].
  rewrite Hstate.
  rewrite (injectNodes_deterministic (types_nodes derived) this1
             (set_registry (λ _, derived) (new_LoadNodesAndCredentials None [])))
    by reflexivity.
  destruct (fst (fst (injectNodes _ _))) as [[]|e]; [|reflexivity].
  rewrite forEach_awaitAll, forEach_await. cbn [postProcessors set_registry].
  rewrite postProcessors_log_all. reflexivity.
Qed.

(** X7.  A post processor added with [addPostProcessor] becomes the last
    statement of the next rebuild, an awaiting one: it is awaited after the
    derivation passes and after every post processor added before it.  A
    rebuild that fails without it, in the injection or in an earlier post
    processor, fails in the same way with it; a rebuild that completes
    without it completes with it as the new post processor does.  An error
    of a post processor is not caught: it is the error of the rebuild. *)
Theorem added_postProcessor_runs_last (fn : PostProcessor) (this : This) :
  let before := postProcessLoaders host this in
  let after := postProcessLoaders host (snd (addPostProcessor fn this)) in
  postProcessLoaders_statements host (snd (addPostProcessor fn this))
  = postProcessLoaders_statements host this
    ++ [ {| awaits := true; run := await_postProcessor fn |} ]
  ∧ fst after
    = match fst before with
      | Normal _ => fn (registry (snd before))
      | Throw e => Throw e
      end.
Proof.
  cbv zeta. split.
  { unfold postProcessLoaders_statements.
    change (loaders (snd (addPostProcessor fn this))) with (loaders this).
    change (postProcessors (snd (addPostProcessor fn this)))
      with (postProcessors this ++ [fn]).
    rewrite map_app, <- !app_assoc. reflexivity. }
  assert (Hregistry :
            registry (snd (postProcessLoaders host (snd (addPostProcessor fn this))))
            = registry (snd (postProcessLoaders host this))).
  { rewrite !postProcessLoaders_registry. reflexivity. }
  rewrite !postProcessLoaders_completion. cbv zeta. rewrite Hregistry.
  change (loaders (snd (addPostProcessor fn this))) with (loaders this).
  change (postProcessors (snd (addPostProcessor fn this)))
    with (postProcessors this ++ [fn]).
  destruct (fst (fst (injectNodes _ _))) as [[]|e]; [|reflexivity].
  rewrite awaitAll_app.
  destruct (awaitAll (postProcessors this) _) as [[]|e]; reflexivity.
Qed.

Lemma aiTools_known_nodes (usable : list INodeTypeDescription) (r : Registry)
  (type : string) :
  is_Some (known_nodes (foldl (λ r' usableNode, aiToolAdded host usableNode r')
                          r usable) !! type)
  ↔ is_Some (known_nodes r !! type)
    ∨ ∃ node, node ∈ usable ∧ node_name (convertNodeToAiTool host node) = type.
Proof.
  revert r. induction usable as [|u usable IH]; intros r.
  - simpl. split; [auto|]. intros [H|(node & Hin & _)]; [exact H|].
    apply elem_of_nil in Hin. contradiction.
  - simpl foldl. rewrite IH. cbn [known_nodes aiToolAdded].
    rewrite lookup_insert_is_Some'. split.
    + intros [[Hu|H]|(node & Hin & Hname)].
      * right. exists u. split; [left | exact Hu].
      * left. exact H.
      * right. exists node. split; [right; exact Hin | exact Hname].
    + intros [H|(node & Hin & Hname)]; [left; right; exact H|].
      apply elem_of_cons in Hin as [->|Hin].
      * left. left. exact Hname.
      * right. exists node. split; assumption.
Qed.

(** The names filed in [known.nodes] by a rebuild. *)
Lemma known_nodes_rebuilt (this : This) (type : string) :
  let ls := Object_values (loaders this) in
  is_Some (known_nodes (registry (snd (postProcessLoaders host this))) !! type)
  ↔ (∃ loader, loader ∈ ls ∧ is_Some (loader_known_nodes loader !! type))
    ∨ (∃ node, node ∈ usableAsTool (concat (map loader_types_nodes ls))
               ∧ node_name (convertNodeToAiTool host node) = type).
Proof.
  cbv zeta. rewrite postProcessLoaders_registry. cbv zeta.
  cbn [known_nodes set_types_nodes]. unfold aiToolsAdded.
  rewrite aiTools_known_nodes.
  cbn [known_nodes types_nodes mergedRegistry]. unfold mergedKnownNodes.
  rewrite (merged_lookup_is_Some
             (λ loader, qualifyNode loader <$> loader_known_nodes loader)).
  rewrite lookup_empty. split.
  - intros [[H|(loader & Hin & H)]|H].
    + destruct H as [? H]. discriminate.
    + left. exists loader. split; [exact Hin|].
      rewrite lookup_fmap in H. apply fmap_is_Some in H. exact H.
    + right. exact H.
  - intros [(loader & Hin & H)|H].
    + left. right. exists loader. split; [exact Hin|].
      rewrite lookup_fmap. apply fmap_is_Some. exact H.
    + right. exact H.
Qed.

(** X8.  When no loader knows a node type named [__proto__] and no tool
    variant has that name, [isKnownNode] answers true after a rebuild,
    however the rebuild completes, for exactly the types an active loader
    knows, the names of the tool variants derived from the descriptions
    flagged [usableAsTool], and the names of the members every object
    inherits. *)
Theorem isKnownNode_after_rebuild (this : This) (type : string) :
  let ls := Object_values (loaders this) in
  (∀ loader, loader ∈ ls → loader_known_nodes loader !! "__proto__" = None) →
  (∀ node, node ∈ usableAsTool (concat (map loader_types_nodes ls)) →
           toolName host node ≠ "__proto__") →
  fst (isKnownNode type (snd (postProcessLoaders host this))) = Normal true
  ↔ (∃ loader, loader ∈ ls ∧ is_Some (loader_known_nodes loader !! type))
    ∨ (∃ node, node ∈ usableAsTool (concat (map loader_types_nodes ls))
               ∧ toolName host node = type)
    ∨ inherited type = true.
Proof.
  cbv zeta. intros _ _. unfold isKnownNode, gets, toolName. cbn [fst].
  match goal with
  | |- Normal ?b = Normal true ↔ _ =>
      transitivity (b = true); [split; [intros [= ->] | intros ->]; reflexivity|]
  end.
  rewrite orb_true_iff, bool_decide_eq_true, known_nodes_rebuilt. cbv zeta.
  split.
  - intros [[H|H]|H]; [left | right; left | right; right]; exact H.
  - intros [H|[H|H]]; [left; left | left; right | right]; exact H.
Qed.


End RebuildOutcome.

Lemma isKnownNode_after_rebuild_witness :
  fst (isKnownNode "fooTool" (snd (postProcessLoaders demo_host two_packages)))
  = Normal true
  ↔ (∃ loader, loader ∈ Object_values (loaders two_packages)
               ∧ is_Some (loader_known_nodes loader !! "fooTool"))
    ∨ (∃ node,
         node ∈ usableAsTool
                  (concat (map loader_types_nodes
                             (Object_values (loaders two_packages))))
         ∧ toolName demo_host node = "fooTool")
    ∨ inherited "fooTool" = true.
Proof.
  apply (isKnownNode_after_rebuild demo_host two_packages "fooTool").
  - intros loader Hin.
    change (Object_values (loaders two_packages))
      with [custom_loader; beta_loader] in Hin.
    apply elem_of_cons in Hin as [->|Hin]; [reflexivity|].
    apply list_elem_of_singleton in Hin. subst loader. reflexivity.
  - intros node Hin. apply list_elem_of_singleton in Hin. subst node. discriminate.
Defined.


(** ** What the derivation passes leave alone *)

Section ToolCredentials.

Context (host : Host) (allowed : list string).

Lemma supportedNodes_grown_refl (credential : CredentialLoadingDetails) :
  supportedNodes_grown allowed credential credential.
Proof.
  exists []. split; [constructor|]. destruct credential as [? ? [nodes|] ?]; simpl;
    [rewrite app_nil_r|]; reflexivity.
Qed.

Lemma supportedNodes_grown_trans (c1 c2 c3 : CredentialLoadingDetails) :
  supportedNodes_grown allowed c1 c2 → supportedNodes_grown allowed c2 c3 →
  supportedNodes_grown allowed c1 c3.
Proof.
  intros (added1 & H1 & ->) (added2 & H2 & ->). exists (added1 ++ added2).
  split; [apply Forall_app; split; assumption|]. simpl.
  destruct (supportedNodes c1) as [nodes|]; simpl; [rewrite app_assoc|]; reflexivity.
Qed.

Lemma supportedNodes_grown_push (name : string)
  (credential : CredentialLoadingDetails) :
  name ∈ allowed →
  supportedNodes_grown allowed credential (pushSupportedNode name credential).
Proof.
  intros Hname. exists [name]. split; [|reflexivity].
  constructor; [exact Hname | constructor].
Qed.

Lemma credentials_grown_refl (m : gmap string CredentialLoadingDetails) :
  credentials_grown allowed m m.
Proof.
  intros name. destruct (m !! name) as [c|] eqn:H; [|reflexivity].
  exists c. split; [reflexivity | apply supportedNodes_grown_refl].
Qed.

Lemma credentials_grown_trans (m1 m2 m3 : gmap string CredentialLoadingDetails) :
  credentials_grown allowed m1 m2 → credentials_grown allowed m2 m3 →
  credentials_grown allowed m1 m3.
Proof.
  intros H12 H23 name. specialize (H12 name). specialize (H23 name).
  destruct (m1 !! name) as [c1|].
  - destruct H12 as (c2 & Hc2 & Hg12). rewrite Hc2 in H23.
    destruct H23 as (c3 & Hc3 & Hg23). exists c3. split; [exact Hc3|].
    eapply supportedNodes_grown_trans; eassumption.
  - rewrite H12 in H23. exact H23.
Qed.

Lemma credentials_grown_alter (tool name : string)
  (m : gmap string CredentialLoadingDetails) :
  tool ∈ allowed →
  credentials_grown allowed m (alter (pushSupportedNode tool) name m).
Proof.
  intros Htool key. destruct (decide (key = name)) as [->|Hne].
  - rewrite lookup_alter_eq. destruct (m !! name) as [c|]; [|reflexivity].
    eexists. split; [reflexivity | apply supportedNodes_grown_push, Htool].
  - rewrite lookup_alter_ne by congruence.
    destruct (m !! key) as [c|]; [|reflexivity].
    exists c. split; [reflexivity | apply supportedNodes_grown_refl].
Qed.

Lemma credentials_grown_pushes (tool : string) (names : list string)
  (m : gmap string CredentialLoadingDetails) :
  tool ∈ allowed →
  credentials_grown allowed m
    (foldl (λ credentials name, alter (pushSupportedNode tool) name credentials)
       m names).
Proof.
  intros Htool. revert m. induction names as [|name names IH]; intros m.
  - apply credentials_grown_refl.
  - simpl. eapply credentials_grown_trans; [|apply IH].
    apply credentials_grown_alter, Htool.
Qed.

Lemma supports_elem_of (name : string) (credential : CredentialLoadingDetails) :
  supports name credential = true
  ↔ ∃ nodes, supportedNodes credential = Some nodes ∧ name ∈ nodes.
Proof.
  unfold supports. destruct (supportedNodes credential) as [nodes|].
  - rewrite array_includes_elem_of. split; [eauto|].
    intros (nodes' & [= <-] & H). exact H.
  - split; [discriminate | intros (? & ? & _); discriminate].
Qed.

Lemma supports_grown (name : string) (c c' : CredentialLoadingDetails) :
  supportedNodes_grown allowed c c' → supports name c = true →
  supports name c' = true.
Proof.
  intros (added & _ & ->). rewrite !supports_elem_of.
  intros (nodes & Hnodes & Hin). exists (nodes ++ added). simpl.
  rewrite Hnodes. split; [reflexivity|]. apply elem_of_app. left. exact Hin.
Qed.

Lemma supports_push (tool : string) (credential : CredentialLoadingDetails) :
  is_Some (supportedNodes credential) →
  supports tool (pushSupportedNode tool credential) = true.
Proof.
  intros [nodes Hnodes]. apply supports_elem_of. exists (nodes ++ [tool]). simpl.
  rewrite Hnodes. split; [reflexivity|]. apply elem_of_app. right. left.
Qed.

(** One tool: every credential that lists the node lists its tool variant
    afterwards. *)
Lemma aiToolAdded_supports (usableNode : INodeTypeDescription) (r : Registry)
  (name : string) (credential : CredentialLoadingDetails) :
  toolName host usableNode ∈ allowed →
  known_credentials r !! name = Some credential →
  supports (node_name usableNode) credential = true →
  ∃ credential',
    known_credentials (aiToolAdded host usableNode r) !! name = Some credential'
    ∧ supports (toolName host usableNode) credential' = true.
Proof.
  intros Htool Hlookup Hsupports. cbn [known_credentials aiToolAdded].
  fold (toolName host usableNode).
  assert (Hin : name ∈ map fst
                  (filter (λ entry, supports (node_name usableNode) (snd entry) = true)
                     (map_to_list (known_credentials r)))).
  { apply list_elem_of_fmap. exists (name, credential). split; [reflexivity|].
    apply list_elem_of_filter. split; [exact Hsupports|].
    apply elem_of_map_to_list. exact Hlookup. }
  apply list_elem_of_split in Hin as (before & after & ->).
  rewrite foldl_app. simpl.
  pose proof (credentials_grown_pushes (toolName host usableNode) before
                (known_credentials r) Htool name) as Hbefore.
  rewrite Hlookup in Hbefore. destruct Hbefore as (c1 & Hc1 & Hg1).
  set (m1 := foldl _ (known_credentials r) before) in *.
  pose proof (credentials_grown_pushes (toolName host usableNode) after
                (alter (pushSupportedNode (toolName host usableNode)) name m1)
                Htool name) as Hafter.
  rewrite lookup_alter_eq, Hc1 in Hafter. simpl in Hafter.
  destruct Hafter as (c2 & Hc2 & Hg2). exists c2. split; [exact Hc2|].
  apply (supports_grown _ _ _ Hg2). apply supports_push.
  apply (supports_grown _ _ _ Hg1) in Hsupports.
  apply supports_elem_of in Hsupports as (nodes & -> & _). eauto.
Qed.

Lemma aiToolAdded_grown (usableNode : INodeTypeDescription) (r : Registry) :
  toolName host usableNode ∈ allowed →
  credentials_grown allowed (known_credentials r)
    (known_credentials (aiToolAdded host usableNode r)).
Proof. intros Htool. apply credentials_grown_pushes, Htool. Qed.

Lemma aiTools_grown (usable : list INodeTypeDescription) (r : Registry) :
  Forall (λ node, toolName host node ∈ allowed) usable →
  credentials_grown allowed (known_credentials r)
    (known_credentials
       (foldl (λ r' usableNode, aiToolAdded host usableNode r') r usable)).
Proof.
  intros Hallowed. revert r.
  induction Hallowed as [|u usable Hu Hallowed IH]; intros r.
  - apply credentials_grown_refl.
  - simpl. eapply credentials_grown_trans; [|apply IH].
    apply aiToolAdded_grown, Hu.
Qed.

Lemma aiTools_supports (usable : list INodeTypeDescription) (r : Registry)
  (node : INodeTypeDescription) (name : string)
  (credential : CredentialLoadingDetails) :
  Forall (λ node, toolName host node ∈ allowed) usable →
  node ∈ usable →
  known_credentials r !! name = Some credential →
  supports (node_name node) credential = true →
  ∃ credential',
    known_credentials
      (foldl (λ r' usableNode, aiToolAdded host usableNode r') r usable) !! name
    = Some credential'
    ∧ supports (toolName host node) credential' = true.
Proof.
  intros Hallowed Hin Hlookup Hsupports.
  apply list_elem_of_split in Hin as (before & after & ->).
  apply Forall_app in Hallowed as [Hbefore Hafter].
  apply Forall_cons in Hafter as [Hnode Hafter].
  rewrite foldl_app. simpl.
  set (r1 := foldl _ r before).
  pose proof (aiTools_grown before r Hbefore name) as Hg1. fold r1 in Hg1.
  rewrite Hlookup in Hg1. destruct Hg1 as (c1 & Hc1 & Hg1).
  destruct (aiToolAdded_supports node r1 name c1 Hnode Hc1
              (supports_grown _ _ _ Hg1 Hsupports)) as (c2 & Hc2 & Hs2).
  pose proof (aiTools_grown after (aiToolAdded host node r1) Hafter name) as Hg3.
  rewrite Hc2 in Hg3. destruct Hg3 as (c3 & Hc3 & Hg3).
  exists c3. split; [exact Hc3 | exact (supports_grown _ _ _ Hg3 Hs2)].
Qed.

End ToolCredentials.

Section ToolDerivation.

Context (host : Host).

(** X9.  [createAiTools] makes every credential that lists a node flagged
    [usableAsTool] among the nodes it supports list the tool variant of the
    node as well.  It changes the known credentials in no other way: no
    entry is added or dropped, the names it appends to a list are names of
    tool variants, what a list held before stays in front, and a
    credential without such a list gets none. *)
Theorem createAiTools_supportedNodes (this : This) :
  let usable := usableAsTool (types_nodes (registry this)) in
  let after := registry (snd (createAiTools host this)) in
  credentials_grown (map (toolName host) usable)
    (known_credentials (registry this)) (known_credentials after)
  ∧ (∀ node name credential,
       node ∈ usable →
       known_credentials (registry this) !! name = Some credential →
       supports (node_name node) credential = true →
       ∃ credential',
         known_credentials after !! name = Some credential'
         ∧ supports (toolName host node) credential' = true).
Proof.
  cbv zeta. rewrite createAiTools_run. cbn [snd registry set_registry].
  unfold aiToolsAdded.
  assert (Hallowed :
            Forall (λ node,
                      toolName host node
                      ∈ map (toolName host)
                          (usableAsTool (types_nodes (registry this))))
              (usableAsTool (types_nodes (registry this)))).
  { apply Forall_forall. intros node Hin. apply list_elem_of_fmap. eauto. }
  split.
  - apply aiTools_grown, Hallowed.
  - intros node name credential Hin Hlookup Hsupports.
    eapply aiTools_supports; eassumption.
Qed.

End ToolDerivation.

Section ToolKnownEntry.

Context (host : Host).

Lemma aiTools_known_other (usable : list INodeTypeDescription) (r : Registry)
  (type : string) :
  type ∉ map (toolName host) usable →
  known_nodes (foldl (λ r' usableNode, aiToolAdded host usableNode r') r usable)
    !! type
  = known_nodes r !! type.
Proof.
  revert r. induction usable as [|u usable IH]; intros r Hother; [reflexivity|].
  cbn [map] in Hother. apply not_elem_of_cons in Hother as [Hu Hother].
  simpl foldl. rewrite IH by exact Hother. cbn [known_nodes aiToolAdded].
  apply lookup_insert_ne. intros Heq. apply Hu. symmetry. exact Heq.
Qed.

(** X10.  When the tool variants of the flagged descriptions have names of
    their own, different from one another and from the names of the
    flagged descriptions, [createAiTools] files every tool variant in
    [known.nodes] with the loading details the original had there,
    [undefined] when the original had none. *)
Theorem tool_known_as_original (this : This) (node : INodeTypeDescription) :
  let usable := usableAsTool (types_nodes (registry this)) in
  NoDup (map (toolName host) usable) →
  (∀ original, original ∈ usable →
     node_name original ∉ map (toolName host) usable) →
  node ∈ usable →
  known_nodes (registry (snd (createAiTools host this))) !! toolName host node
  = Some (known_node (node_name node) (registry this)).
Proof.
  cbv zeta. intros Hnodup Hnames Hin.
  rewrite createAiTools_run. cbn [snd registry set_registry]. unfold aiToolsAdded.
  specialize (Hnames node Hin). revert Hnodup Hnames.
  apply list_elem_of_split in Hin as (before & after & ->).
  rewrite map_app. cbn [map]. intros Hnodup Hname.
  apply NoDup_app in Hnodup as (_ & _ & Hnodup).
  apply NoDup_cons in Hnodup as [Hafter _].
  rewrite foldl_app. simpl foldl. rewrite aiTools_known_other by exact Hafter.
  cbn [known_nodes aiToolAdded]. fold (toolName host node).
  rewrite lookup_insert_eq. f_equal. unfold known_node. f_equal.
  apply aiTools_known_other. intros Hbefore. apply Hname.
  apply elem_of_app. left. exact Hbefore.
Qed.

End ToolKnownEntry.

Lemma tool_known_as_original_witness :
  known_nodes (registry (snd (createAiTools demo_host gmail_instance)))
    !! toolName demo_host gmail_node
  = Some (known_node (node_name gmail_node) (registry gmail_instance)).
Proof.
  apply (tool_known_as_original demo_host gmail_instance gmail_node).
  - apply (bool_decide_unpack _). vm_compute. exact I.
  - intros original Hin. apply (bool_decide_unpack _).
    apply list_elem_of_singleton in Hin. subst original. vm_compute. exact I.
  - apply list_elem_of_singleton. reflexivity.
Defined.

Section InjectionKeeps.

Lemma logger_log_all (entries : list LogEntry) (this : This) :
  logger (log_all entries this) = logger this ++ entries.
Proof.
  revert this. induction entries as [|entry entries IH]; intros this.
  - simpl. rewrite app_nil_r. reflexivity.
  - simpl. rewrite IH. cbn [logger log]. rewrite <- app_assoc. reflexivity.
Qed.

Lemma options_grown_refl (p : INodeProperties) : options_grown p p.
Proof. split; [reflexivity | left; reflexivity]. Qed.

Lemma description_grown_refl (node : INodeTypeDescription) :
  description_grown node node.
Proof.
  repeat split. apply Forall2_same_length_lookup. split; [reflexivity|].
  intros i p q Hp Hq. rewrite Hp in Hq. injection Hq as <-. apply options_grown_refl.
Qed.

Lemma injectProperties_grown (ps : list INodeProperties) :
  Forall2 options_grown ps (snd (injectProperties ps)).
Proof.
  induction ps as [|p ps IH]; [constructor|]. simpl.
  destruct (lacksCustomApiCall p) as [lacking|e] eqn:Hlacks.
  - destruct (injectProperties ps) as [c ps']. cbn [snd] in *.
    constructor; [|exact IH]. destruct lacking; [|apply options_grown_refl].
    split; [reflexivity|]. unfold lacksCustomApiCall in Hlacks.
    destruct (array_includes _ (property_name p)); [|discriminate].
    destruct (property_options p) as [options|] eqn:Hoptions; [|discriminate].
    right. exists options. split; [reflexivity|].
    unfold pushCustomApiCall. cbn [property_options]. rewrite Hoptions. reflexivity.
  - cbn [snd]. constructor; [apply options_grown_refl|].
    apply Forall2_same_length_lookup. split; [reflexivity|].
    intros i q q' Hq Hq'. rewrite Hq in Hq'. injection Hq' as <-.
    apply options_grown_refl.
Qed.

Lemma injectNode_grown (node : INodeTypeDescription) (this : This) :
  description_grown node (snd (fst (injectNode node this))).
Proof.
  rewrite injectNode_run. cbv zeta. cbn [fst snd].
  destruct (isLatestVersion node && directProxyAuth _ node);
    [|apply description_grown_refl].
  pose proof (injectProperties_grown (node_properties node)) as Hps.
  destruct (injectProperties (node_properties node)) as [c ps]. cbn [snd] in *.
  repeat split. exact Hps.
Qed.

Lemma injectNodes_grown (nodes : list INodeTypeDescription) (this : This) :
  Forall2 description_grown nodes (snd (fst (injectNodes nodes this))).
Proof.
  revert this. induction nodes as [|node nodes IH]; intros this; [constructor|].
  simpl. pose proof (injectNode_grown node this) as Hnode.
  destruct (injectNode node this) as [[[[]|e] node'] this']; cbn [fst snd] in Hnode.
  - specialize (IH this'). destruct (injectNodes nodes this') as [[c rest] this''].
    cbn [fst snd] in *. constructor; assumption.
  - cbn [fst snd]. constructor; [exact Hnode|].
    apply Forall2_same_length_lookup. split; [reflexivity|].
    intros i q q' Hq Hq'. rewrite Hq in Hq'. injection Hq' as <-.
    apply description_grown_refl.
Qed.

(** X11.  Whether it completes or throws, the injection of the custom call
    options leaves as many descriptions as there were, in the same order,
    each with its name, versions, tool flag and credentials, and each
    parameter under its name with the options it had, followed by at most
    the one custom call option.  The known and loaded entries, the
    credential types and the post processors are as before, and the log
    has only grown. *)
Theorem injection_only_appends (this : This) :
  let after := snd (injectCustomApiCallOptions this) in
  Forall2 description_grown (types_nodes (registry this)) (types_nodes (registry after))
  ∧ set_types_nodes (λ _, types_nodes (registry this)) (registry after)
    = registry this
  ∧ postProcessors after = postProcessors this
  ∧ ∃ warnings, logger after = logger this ++ warnings.
Proof.
  cbv zeta. rewrite injectCustomApiCallOptions_run. cbn [snd].
  destruct (injectNodes_cases (types_nodes (registry this)) this)
    as [[warnings Hstate] _].
  rewrite Hstate. cbn [registry postProcessors logger set_registry
                         types_nodes set_types_nodes].
  rewrite registry_log_all, postProcessors_log_all.
  split; [apply injectNodes_grown|].
  split; [destruct this as [[] ? ? ? ? ? ?]; reflexivity|].
  split; [reflexivity|]. exists warnings. apply logger_log_all.
Qed.

End InjectionKeeps.

Section RebuildPublishes.

Context (host : Host).

Lemma description_grown_names (before after : list INodeTypeDescription) :
  Forall2 description_grown before after →
  map node_name after = map node_name before.
Proof.
  induction 1 as [|node node' before after (Hname & _) _ IH]; [reflexivity|].
  cbn [map]. rewrite Hname, IH. reflexivity.
Qed.

(** X18.  What a rebuild publishes, however it completes: the credential
    types of the loaders, loader after loader, untouched by the derivation;
    and, for the descriptions, those of the loaders in the same order,
    followed by one tool variant for every description flagged
    [usableAsTool], each of them, original or variant, under its name and
    with the options it had on every parameter, followed by at most the one
    custom call option. *)
Theorem rebuild_descriptions (this : This) :
  let this' := snd (postProcessLoaders host this) in
  let ls := Object_values (loaders this) in
  let credentials := concat (map loader_types_credentials ls) in
  let nodes := concat (map loader_types_nodes ls) in
  types_credentials (registry this') = credentials
  ∧ Forall2 description_grown
      (nodes ++ map (convertNodeToAiTool host) (usableAsTool nodes))
      (types_nodes (registry this'))
  ∧ map node_name (types_nodes (registry this'))
    = map node_name nodes ++ map (toolName host) (usableAsTool nodes)
  ∧ length (types_nodes (registry this'))
    = (length nodes + length (usableAsTool nodes))%nat.
Proof.
  cbv zeta. rewrite postProcessLoaders_registry. cbv zeta.
  set (derived := aiToolsAdded host (mergedRegistry (Object_values (loaders this)))).
  cbn [types_credentials types_nodes set_types_nodes].
  assert (Hcredentials :
            types_credentials derived
            = concat (map loader_types_credentials (Object_values (loaders this)))).
  { unfold derived. rewrite aiToolsAdded_types_credentials. reflexivity. }
  assert (Hdescriptions :
            types_nodes derived
            = concat (map loader_types_nodes (Object_values (loaders this)))
              ++ map (convertNodeToAiTool host)
                   (usableAsTool
                      (concat (map loader_types_nodes
                                 (Object_values (loaders this)))))).
  { unfold derived. rewrite aiToolsAdded_types_nodes. reflexivity. }
  pose proof (injectNodes_grown (types_nodes derived)
                (set_registry (λ _, derived) (new_LoadNodesAndCredentials None [])))
    as Hgrown.
  rewrite Hdescriptions in Hgrown at 1.
  split; [exact Hcredentials|]. split; [exact Hgrown|].
  assert (Hnames :
            map node_name
              (snd (fst (injectNodes (types_nodes derived)
                           (set_registry (λ _, derived)
                              (new_LoadNodesAndCredentials None [])))))
            = map node_name
                (concat (map loader_types_nodes (Object_values (loaders this)))
                 ++ map (convertNodeToAiTool host)
                      (usableAsTool
                         (concat (map loader_types_nodes
                                    (Object_values (loaders this))))))).
  { apply description_grown_names, Hgrown. }
  split.
  - rewrite Hnames, map_app, map_map. reflexivity.
  - apply Forall2_length in Hgrown. rewrite <- Hgrown, length_app, length_map.
    reflexivity.
Qed.

End RebuildPublishes.

(** ** Icons inside the directory *)

Section IconsInside.

Context (host : Host).

Lemma unsplit_plain_relative (file : list string) :
  file ≠ [] → Forall plain_segment file →
  path.unsplit file ≠ EmptyString ∧ path.isAbsolute (path.unsplit file) = false.
Proof.
  destruct file as [|seg rest]; [congruence|]. intros _ Hall.
  inversion Hall as [|? ? (Hne & _ & _ & Hslash) _]; subst.
  destruct seg as [|c seg]; [congruence|].
  apply no_slash_cons in Hslash as [Hc _].
  destruct rest; simpl; (split; [discriminate | exact Hc]).
Qed.

Lemma strip_common_below (segs file : list string) :
  path.strip_common segs (segs ++ file) = ([], file).
Proof.
  rewrite <- (app_nil_r segs) at 1. rewrite strip_common_app.
  destruct file; reflexivity.
Qed.

(** X12.  For a registered package whose directory is an absolute,
    normalised path, an icon URL made of the prefix [/icons/<package>/]
    and the segments of a file below the directory resolves to that file,
    unless two dots in a row occur somewhere in the relative path: such a
    file is refused although it lies inside the directory.  The URL that
    is just the prefix resolves to the directory itself. *)
Theorem resolveIcon_inside (this : This) (name : string) (loader : DirectoryLoader)
  (segs file : list string) :
  own_property name (loaders this) = Some loader →
  directory loader = absolute_path segs →
  Forall plain_segment segs →
  Forall plain_segment file →
  resolveIcon host name ("/icons/" +:+ name +:+ "/" +:+ path.unsplit file) this
  = (Normal (if js_includes ".." (path.unsplit file) then None
             else Some (absolute_path (segs ++ file))),
     this).
Proof.
  intros Hown Hdir Hsegs Hfile.
  rewrite (resolveIcon_registered host this name _ loader Hown). cbv zeta.
  replace ("/icons/" +:+ name +:+ "/" +:+ path.unsplit file)
    with (("/icons/" +:+ name +:+ "/") +:+ path.unsplit file)
    by (rewrite !string_app_assoc; reflexivity).
  rewrite js_substring_app, Hdir.
  assert (Hresolved :
            path.resolve (cwd host) [absolute_path segs; path.unsplit file]
            = absolute_path (segs ++ file)).
  { destruct (decide (file = [])) as [->|Hne].
    - rewrite app_nil_r. apply (resolve_absolute_path (cwd host) segs Hsegs).
    - destruct (unsplit_plain_relative file Hne Hfile) as [Hrest Hrel].
      rewrite resolve_under_absolute by assumption. f_equal.
      rewrite split_unsplit by (try apply plain_segment_no_slash; assumption).
      rewrite normalize_segments_plain_app by exact Hfile. simpl.
      rewrite rev_app_distr, !rev_involutive. reflexivity. }
  rewrite Hresolved.
  rewrite relative_absolute
    by (try apply Forall_app; try split; assumption).
  destruct (decide (segs = segs ++ file)) as [Heq|Hne].
  - assert (file = []) as ->.
    { apply (f_equal length) in Heq. rewrite length_app in Heq.
      destruct file; [reflexivity | simpl in Heq; lia]. }
    reflexivity.
  - rewrite strip_common_below. reflexivity.
Qed.

End IconsInside.

Lemma resolveIcon_inside_witness :
  resolveIcon demo_host "n8n-nodes-base"
    ("/icons/" +:+ "n8n-nodes-base" +:+ "/"
     +:+ path.unsplit ["dist"; "nodes"; "Gmail"; "gmail.svg"]) base_installed
  = (Normal (if js_includes ".."
                  (path.unsplit ["dist"; "nodes"; "Gmail"; "gmail.svg"])
             then None
             else Some (absolute_path
                          (["usr"; "lib"; "node_modules"; "n8n-nodes-base"]
                           ++ ["dist"; "nodes"; "Gmail"; "gmail.svg"]))),
     base_installed).
Proof.
  apply (resolveIcon_inside demo_host base_installed "n8n-nodes-base"
           (bare_loader LazyPackageDirectoryLoader "n8n-nodes-base"
              "/usr/lib/node_modules/n8n-nodes-base")).
  - reflexivity.
  - reflexivity.
  - repeat constructor; try discriminate; reflexivity.
  - repeat constructor; try discriminate; reflexivity.
Defined.

(** ** Custom extension folders *)

Section CustomDirectories.

Lemma js_includes_char_cons (c d : ascii) (s : string) :
  js_includes (String c EmptyString) (String d s)
  = Ascii.eqb d c || js_includes (String c EmptyString) s.
Proof.
  change (js_includes (String c EmptyString) (String d s))
    with ((if ascii_dec c d then String.prefix EmptyString s else false)
          || js_includes (String c EmptyString) s).
  f_equal. destruct (ascii_dec c d) as [<-|Hne].
  - rewrite Ascii.eqb_refl. destruct s; reflexivity.
  - symmetry. apply Ascii.eqb_neq. intros ->. apply Hne. reflexivity.
Qed.

Lemma js_split_absent (c : ascii) (s : string) :
  js_includes (String c EmptyString) s = false → js_split c s = [s].
Proof.
  induction s as [|d s IH]; intros H; [reflexivity|].
  rewrite js_includes_char_cons in H. apply orb_false_iff in H as [Hd Hs].
  simpl. rewrite Hd, (IH Hs). reflexivity.
Qed.

(** Splitting undoes joining, when no piece holds the separator. *)
Lemma js_split_join (c : ascii) (pieces : list string) :
  pieces ≠ [] →
  Forall (λ piece, js_includes (String c EmptyString) piece = false) pieces →
  js_split c (js_join (String c EmptyString) pieces) = pieces.
Proof.
  induction pieces as [|a [|b rest] IH]; intros Hne Hall; [congruence| |].
  - inversion Hall; subst. simpl. apply js_split_absent. assumption.
  - inversion Hall as [|? ? Ha Hrest]; subst.
    change (js_join (String c EmptyString) (a :: b :: rest))
      with (a +:+ String c (js_join (String c EmptyString) (b :: rest))).
    rewrite js_split_app, (IH ltac:(discriminate) Hrest), (js_split_absent c a Ha).
    reflexivity.
Qed.

(** X13.  When the environment variable of the custom extensions holds
    folders joined with [;], the custom directories are the folder of the
    user settings followed by those folders, in their order.  An empty
    piece is a folder like any other: for the empty string in the variable,
    or a [;] at its end, a loader is also run on the directory with the
    empty name. *)
Theorem getCustomDirectories_split (host : Host) (folders : list string) :
  folders ≠ [] →
  Forall (λ folder, js_includes ";" folder = false) folders →
  env_CUSTOM_EXTENSION host = Some (js_join ";" folders) →
  getCustomDirectories host = customExtensionDir host :: folders.
Proof.
  intros Hne Hall Henv. unfold getCustomDirectories. rewrite Henv.
  f_equal. apply (js_split_join ";"%char folders Hne Hall).
Qed.

End CustomDirectories.

Lemma getCustomDirectories_split_witness :
  getCustomDirectories host_with_extensions
  = customExtensionDir host_with_extensions :: ["/opt/extensions"; "/srv/nodes"].
Proof.
  apply (getCustomDirectories_split host_with_extensions
           ["/opt/extensions"; "/srv/nodes"]).
  - discriminate.
  - repeat constructor.
  - reflexivity.
Defined.

(** ** The static files of the front end *)

Section StaticFiles.

Context {A : Type} (stringify : A → string).

Lemma string_app_empty_r (s : string) : s +:+ EmptyString = s.
Proof.
  induction s as [|c s IH]; [reflexivity|].
  change (String c (s +:+ EmptyString) = String c s). rewrite IH. reflexivity.
Qed.

Lemma stream_content_write (chunk : string) (stream : list string) :
  stream_content (stream_write chunk stream) = stream_content stream +:+ chunk.
Proof.
  unfold stream_write, stream_content.
  induction stream as [|first stream IH]; simpl.
  - change (chunk +:+ EmptyString = EmptyString +:+ chunk).
    rewrite string_app_empty_r. reflexivity.
  - rewrite IH, string_app_assoc. reflexivity.
Qed.

Lemma writeEntry_content (data : list A) (index : nat) (entry : A)
  (stream : list string) :
  stream_content (writeEntry stringify data index entry stream)
  = stream_content stream +:+ stringify entry
    +:+ (if bool_decide (index ≠ (length data - 1)%nat) then "," else EmptyString)
    +:+ LF.
Proof.
  unfold writeEntry. cbv zeta.
  destruct (bool_decide (index ≠ (length data - 1)%nat)).
  - rewrite !stream_content_write, !string_app_assoc. reflexivity.
  - rewrite !stream_content_write, !string_app_assoc. reflexivity.
Qed.

Lemma forEach_indexed_content (data rest : list A) (index : nat)
  (stream : list string) :
  (index + length rest = length data)%nat →
  stream_content (forEach_indexed (writeEntry stringify data) index rest stream)
  = stream_content stream
    +:+ match rest with
        | [] => EmptyString
        | _ => js_join ("," +:+ LF) (map stringify rest) +:+ LF
        end.
Proof.
  revert index stream. induction rest as [|entry rest IH]; intros index stream Hlen.
  - simpl. rewrite string_app_empty_r. reflexivity.
  - cbn [forEach_indexed]. rewrite IH by (simpl in Hlen; lia).
    rewrite writeEntry_content. destruct rest as [|next rest].
    + rewrite bool_decide_eq_false_2 by (simpl in Hlen; lia).
      rewrite !string_app_empty_r. reflexivity.
    + rewrite bool_decide_eq_true_2 by (simpl in Hlen; lia).
      cbn [map]. unfold js_join.
      change (String.concat ("," +:+ LF)
                (stringify entry :: stringify next :: map stringify rest))
        with (stringify entry +:+ ("," +:+ LF)
              +:+ String.concat ("," +:+ LF)
                    (stringify next :: map stringify rest)).
      rewrite !string_app_assoc. reflexivity.
Qed.

(** X14.  The file [writeStaticJSON] writes is an opening bracket on a line
    of its own, the entries in their order, one on a line, with a comma
    after each but the last, and a closing bracket on a line of its own;
    for no entry at all, the two brackets. *)
Theorem writeStaticJSON_content (data : list A) :
  stream_content (writeStaticJSON stringify data)
  = "[" +:+ LF
    +:+ match data with
        | [] => EmptyString
        | _ => js_join ("," +:+ LF) (map stringify data) +:+ LF
        end
    +:+ "]" +:+ LF.
Proof.
  unfold writeStaticJSON. cbv zeta.
  rewrite stream_content_write, forEach_indexed_content by reflexivity.
  rewrite stream_content_write, !string_app_assoc. reflexivity.
Qed.

End StaticFiles.

(** ** Overwritten credential properties *)

Section Overwrites.

Context {V : Type} (getParentTypes : string → list string)
  (credentialsOverwrites : JSObject (JSObject V)).

Lemma uniq_from_elem_of (seen xs : list string) (x : string) :
  x ∈ uniq_from seen xs ↔ x ∈ xs ∧ x ∉ seen.
Proof.
  revert seen. induction xs as [|y xs IH]; intros seen; simpl.
  - split; [intros H | intros [H _]]; apply elem_of_nil in H; contradiction.
  - destruct (array_includes seen y) eqn:Hseen.
    + apply array_includes_elem_of in Hseen. rewrite IH, elem_of_cons. split.
      * intros [Hin Hnot]. split; [right; exact Hin | exact Hnot].
      * intros [[->|Hin] Hnot]; [contradiction | split; assumption].
    + assert (Hy : y ∉ seen).
      { intros H. apply array_includes_elem_of in H. congruence. }
      rewrite !elem_of_cons, IH, not_elem_of_cons. split.
      * intros [->|(Hin & Hne & Hnot)]; [split; [left; reflexivity | exact Hy]|].
        split; [right; exact Hin | exact Hnot].
      * intros [[->|Hin] Hnot]; [left; reflexivity|].
        destruct (decide (x = y)) as [->|Hne]; [left; reflexivity|].
        right. repeat split; assumption.
Qed.

Lemma uniq_from_NoDup (seen xs : list string) : NoDup (uniq_from seen xs).
Proof.
  revert seen. induction xs as [|y xs IH]; intros seen; simpl; [constructor|].
  destruct (array_includes seen y); [apply IH|].
  constructor; [|apply IH]. rewrite uniq_from_elem_of.
  intros [_ Hnot]. apply Hnot. left.
Qed.

Lemma Member_keys_get (name key : string) :
  key ∈ Member_keys (js_get name credentialsOverwrites)
  ↔ ∃ overwrite, own_property name credentialsOverwrites = Some overwrite
                 ∧ key ∈ Object_keys overwrite.
Proof.
  unfold js_get. destruct (own_property name credentialsOverwrites) as [o|].
  - simpl. split; [eauto|]. intros (o' & [= <-] & H). exact H.
  - split.
    + intros H. destruct (inherited name); apply elem_of_nil in H; contradiction.
    + intros (? & ? & _). discriminate.
Qed.

Lemma overwrittenProperties_elem_of (credential : ICredentialType) (key : string) :
  key ∈ overwrittenProperties getParentTypes credentialsOverwrites credential
  ↔ overwrittenFor credentialsOverwrites
      (overwriteOwners getParentTypes credential) key.
Proof.
  unfold overwrittenProperties, overwrittenFor, overwriteOwners. cbv zeta.
  rewrite elem_of_app, list_elem_of_In, in_flat_map. split.
  - intros [(member & Hmember & Hkey)|Hown].
    + apply in_map_iff in Hmember as (parent & <- & Hparent).
      apply (proj2 (in_rev _ _)), list_elem_of_In in Hparent.
      assert (Hkeys : key ∈ Member_keys (js_get parent credentialsOverwrites)).
      { apply list_elem_of_In in Hkey.
        destruct (js_get parent credentialsOverwrites); [exact Hkey..|].
        apply elem_of_nil in Hkey. contradiction. }
      apply Member_keys_get in Hkeys as (overwrite & Hlookup & Hin).
      exists parent, overwrite. split; [right; exact Hparent|]. split; assumption.
    + destruct (js_in (credtype_name credential) credentialsOverwrites);
        [|apply elem_of_nil in Hown; contradiction].
      apply Member_keys_get in Hown as (overwrite & Hlookup & Hin).
      exists (credtype_name credential), overwrite.
      split; [left|split]; assumption || reflexivity.
  - intros (owner & overwrite & Howner & Hlookup & Hin).
    apply elem_of_cons in Howner as [->|Hparent].
    + right. rewrite (own_property_js_in _ _ _ Hlookup).
      apply Member_keys_get. eauto.
    + left. exists (js_get owner credentialsOverwrites). split.
      * apply in_map_iff. exists owner. split; [reflexivity|].
        apply (proj1 (in_rev _ _)), list_elem_of_In. exact Hparent.
      * apply list_elem_of_In. unfold js_get. rewrite Hlookup. exact Hin.
Qed.

(** X15.  For every credential of the aggregate list,
    [overwriteCredentialsProperties] assigns to [__overwrittenProperties]
    the names of the properties overwritten for the credential itself or
    for one of its parent types, each name once; when no property is
    overwritten for any of them, it assigns nothing, and the field keeps
    the value it had. *)
Theorem overwrittenProperties_assigned (credentials : list ICredentialType)
  (i : nat) (credential : ICredentialType) :
  credentials !! i = Some credential →
  ∃ assigned,
    overwriteCredentialsProperties getParentTypes credentialsOverwrites credentials
      !! i = Some assigned
    ∧ match assigned with
      | Some properties =>
          NoDup properties ∧ properties ≠ []
          ∧ ∀ key, key ∈ properties
                   ↔ overwrittenFor credentialsOverwrites
                       (overwriteOwners getParentTypes credential) key
      | None =>
          ∀ key, ¬ overwrittenFor credentialsOverwrites
                     (overwriteOwners getParentTypes credential) key
      end.
Proof.
  intros Hi. unfold overwriteCredentialsProperties.
  rewrite list_lookup_fmap, Hi. cbv zeta. simpl. eexists. split; [reflexivity|].
  destruct (overwrittenProperties getParentTypes credentialsOverwrites credential)
    as [|first rest] eqn:Hprops.
  - simpl. intros key Hkey. apply overwrittenProperties_elem_of in Hkey.
    rewrite Hprops in Hkey. apply elem_of_nil in Hkey. contradiction.
  - cbn [length Nat.eqb]. split; [apply uniq_from_NoDup|]. split; [discriminate|].
    intros key. unfold uniq. rewrite uniq_from_elem_of, <- Hprops.
    rewrite <- overwrittenProperties_elem_of. split; [intros [H _]; exact H|].
    intros H. split; [exact H|]. intros Hnil. apply elem_of_nil in Hnil. contradiction.
Qed.

End Overwrites.

Lemma overwrittenProperties_assigned_witness :
  ∃ assigned,
    overwriteCredentialsProperties demo_getParentTypes demo_overwrites
      microsoft_credentials !! 0%nat = Some assigned
    ∧ match assigned with
      | Some properties =>
          NoDup properties ∧ properties ≠ []
          ∧ ∀ key, key ∈ properties
                   ↔ overwrittenFor demo_overwrites
                       (overwriteOwners demo_getParentTypes
                          {| credtype_name := "microsoftOutlookOAuth2Api";
                             credtype_extends := Some ["microsoftOAuth2Api"];
                             credtype_authenticate := None |}) key
      | None =>
          ∀ key, ¬ overwrittenFor demo_overwrites
                     (overwriteOwners demo_getParentTypes
                        {| credtype_name := "microsoftOutlookOAuth2Api";
                           credtype_extends := Some ["microsoftOAuth2Api"];
                           credtype_authenticate := None |}) key
      end.
Proof.
  apply (overwrittenProperties_assigned demo_getParentTypes demo_overwrites
           microsoft_credentials 0). reflexivity.
Defined.

(** The Outlook credential takes the client secret from [oAuth2Api], two
    levels up, and lists the client id, overwritten twice, once. *)
Example overwrittenProperties_of_outlook :
  overwriteCredentialsProperties demo_getParentTypes demo_overwrites
    microsoft_credentials
  = [ Some ["clientId"; "clientSecret"]; Some ["clientId"; "clientSecret"];
      Some ["clientId"; "clientSecret"]; None ].
Proof. reflexivity. Qed.

(** ** What start-up does to the exclusion list *)

Section Exclusions.

Context (host : Host).

Lemma excludeNodes_log_all (entries : list LogEntry) (this : This) :
  excludeNodes (log_all entries this) = excludeNodes this.
Proof.
  revert this. induction entries as [|entry entries IH]; intros this;
    [reflexivity | simpl; rewrite IH; reflexivity].
Qed.

Lemma postProcessLoaders_excludeNodes (this : This) :
  excludeNodes (snd (postProcessLoaders host this)) = excludeNodes this.
Proof.
  rewrite postProcessLoaders_run. cbv zeta. rewrite injectCustomApiCallOptions_run.
  destruct (injectNodes_cases
              (types_nodes (registry (set_registry
                 (λ _, aiToolsAdded host (mergedRegistry (Object_values (loaders this))))
                 this)))
              (set_registry
                 (λ _, aiToolsAdded host (mergedRegistry (Object_values (loaders this))))
                 this)) as [[warnings Hstate] _].
  rewrite Hstate.
  destruct (fst (fst (injectNodes _ _))) as [[]|e].
  - rewrite forEach_await. cbn [excludeNodes set_registry].
    rewrite excludeNodes_log_all. reflexivity.
  - cbn [snd excludeNodes set_registry]. rewrite excludeNodes_log_all. reflexivity.
Qed.

Lemma runDirectoryLoader_excludeNodes (excluded : option (list string))
  (constructor : LoaderClass) (dir : string) :
  preserves (λ this, excludeNodes this = excluded)
    (runDirectoryLoader host constructor dir).
Proof.
  intros this H. pose proof (runDirectoryLoader_cases host constructor dir this) as Hc.
  destruct (new_loader host _ _ _ _) as [loader|e]; [|rewrite Hc; exact H].
  destruct (js_in (packageName loader) (loaders this)); [rewrite Hc; exact H|].
  destruct (loadAll host loader) as [loaded|e]; rewrite Hc; exact H.
Qed.

Lemma loadNodesFromNodeModules_excludeNodes (excluded : option (list string))
  (nodeModulesDir : string) (name : option string) :
  preserves (λ this, excludeNodes this = excluded)
    (loadNodesFromNodeModules host nodeModulesDir name).
Proof.
  unfold loadNodesFromNodeModules. apply preserves_forEach. intros packagePath.
  unfold loadInstalledPackage. apply preserves_try_catch.
  - apply preserves_bind; [apply runDirectoryLoader_excludeNodes|].
    intros _. apply preserves_ret.
  - intros e. apply preserves_bind; [|intros _]; apply preserves_modify;
      intros this H; exact H.
Qed.

(** X17.  In a test build [init] throws at once and leaves the instance
    alone.  Otherwise, however it completes, it leaves the exclusion list
    it found with the end-to-end test node added at its end, a list of
    that node alone when there was none; in an end-to-end test build it
    leaves the list as it was.  A second [init] adds the node a second
    time. *)
Theorem init_excludes_e2e_node (this : This) :
  (inTest host = true →
   init host this = (Throw (ApplicationError "Not available in tests"), this))
  ∧ (inTest host = false →
     excludeNodes (snd (init host this))
     = if inE2ETests host then excludeNodes this
       else Some (default [] (excludeNodes this) ++ ["n8n-nodes-base.e2eTest"])).
Proof.
  split; intros Htest; unfold init; rewrite Htest; [reflexivity|].
  set (excluded := if inE2ETests host then excludeNodes this
                   else Some (default [] (excludeNodes this)
                              ++ ["n8n-nodes-base.e2eTest"])).
  rewrite bind_run.
  assert (Hrest : ∀ start, excludeNodes start = excluded →
            excludeNodes
              (snd ((do forEach
                          [path.join [CLI_DIR host; ".."];
                           path.join [CLI_DIR host; "node_modules"]]
                          (λ nodeModulesDir,
                             do loadNodesFromNodeModules host nodeModulesDir
                                  (Some "n8n-nodes-base") then
                             loadNodesFromNodeModules host nodeModulesDir
                               (Some "@n8n/n8n-nodes-langchain")) then
                     do loadNodesFromNodeModules host
                          (path.join [nodesDownloadDir host; "node_modules"])
                          None then
                     do loadNodesFromCustomDirectories host then
                     postProcessLoaders host) start))
            = excluded).
  { apply (preserves_bind (λ this, excludeNodes this = excluded)).
    { apply preserves_forEach. intros nodeModulesDir.
      apply preserves_bind; [|intros _]; apply loadNodesFromNodeModules_excludeNodes. }
    intros _. apply preserves_bind; [apply loadNodesFromNodeModules_excludeNodes|].
    intros _. apply preserves_bind.
    { unfold loadNodesFromCustomDirectories. apply preserves_forEach. intros dir.
      apply preserves_bind; [apply runDirectoryLoader_excludeNodes|].
      intros _. apply preserves_ret. }
    intros _ start Hstart. rewrite postProcessLoaders_excludeNodes. exact Hstart. }
  subst excluded. destruct (inE2ETests host); apply Hrest; reflexivity.
Qed.

End Exclusions.

Lemma new_instance_keyed (exclude : option (list string)) (include : list string) :
  loaders_keyed (loaders (new_LoadNodesAndCredentials exclude include)).
Proof. split; constructor. Qed.

(** ** Hot reload *)

Section HotReload.

Context (host : Host).






End HotReload.



(** The watchers of the development installation: the directory of the
    lazily loaded package is not there, the custom directory is watched for
    every script and data file. *)
Example setupHotReload_demo :
  setupHotReload demo_fs two_packages = [custom_watcher].
Proof. reflexivity. Qed.

(** Two changes half a second apart lead to two runs. *)
Example debounce_apart : debounce 100 [0; 40; 90; 600]%N = [190; 700]%N.
Proof. reflexivity. Qed.
